(** * Alpine risk assessment: the weighted risk classifier of [App.js]

    The development verifies the [RiskAssessment] component of
    [frontend/src/App.js]: [calculateOverallRisk], [updateRiskFactor] and
    [getRiskColor].

    JavaScript numbers are IEEE 754 binary64 values.  They are modelled by
    Rocq's primitive [float], whose operations are specified by
    [SpecFloat] (precision 53, maximal exponent 1024).  The first part of
    the file develops what the proofs need about that arithmetic:
    rounding to nearest is monotone, so sums and products by a positive
    constant preserve the order.  The second part embeds the component,
    and the last part states the properties of the specification. *)

From Stdlib Require Import ZArith Lia Bool Floats QArith Qabs.
From stdpp Require Import gmap strings.

#[local] Set Warnings "-inexact-float".
#[local] Open Scope Z_scope.

(** ** Integer view of binary floating-point rounding *)

(** Every finite float of a format is an integer multiple of [2 ^ emin].  The
    functions below give the order-preserving integer image [ord_of] of a float
    (in units of [2 ^ emin], the infinities sent to [± 2 ^ (emax - emin)])
    and the rounding function [rnd_of] on exact results, which are kept in
    the finer unit [2 ^ ebase_of] so that exact products are integers too. *)
Section RoundingModel.
Variables prec emax : Z.

Definition ebase_of : Z := 2 * SpecFloat.emin prec emax.

(** [v / 2 ^ n] rounded to the nearest integer, ties to even. *)
Definition rne_div (v n : Z) : Z :=
  let q := v / 2 ^ n in
  let r := v mod 2 ^ n in
  match 2 * r ?= 2 ^ n with
  | Lt => q
  | Gt => q + 1
  | Eq => if Z.even q then q else q + 1
  end.

(** Exponent of the float that the exact value [v * 2 ^ ebase_of] rounds to. *)
Definition rexp_of (v : Z) : Z := fexp prec emax (Z.log2 v + 1 + ebase_of).

Definition rnd_pos_of (v : Z) : Z :=
  Z.min (rne_div v (rexp_of v - ebase_of) * 2 ^ (rexp_of v - SpecFloat.emin prec emax))
        (2 ^ (emax - SpecFloat.emin prec emax)).

Definition rnd_of (v : Z) : Z := Z.sgn v * rnd_pos_of (Z.abs v).

Definition ord_of (x : spec_float) : Z :=
  match x with
  | S754_zero _ | S754_nan => 0
  | S754_infinity s => cond_Zopp s (2 ^ (emax - SpecFloat.emin prec emax))
  | S754_finite s m e => cond_Zopp s (Zpos m * 2 ^ (e - SpecFloat.emin prec emax))
  end.
End RoundingModel.

Definition sf_is_nan (x : spec_float) : bool :=
  match x with S754_nan => true | _ => false end.

Definition sf_is_finite (x : spec_float) : bool :=
  match x with S754_zero _ | S754_finite _ _ _ => true | _ => false end.

(** [a] is weakly below [b]: either both are numbers and [a <= b], or [b] is
    not a number, or [a] is not a number and [b] is plus infinity.  This is
    the order that sums of floats preserve when an infinity meets its
    opposite. *)
Definition sf_wle_of (prec emax : Z) (a b : spec_float) : Prop :=
  (sf_is_nan a = false /\ sf_is_nan b = false /\ ord_of prec emax a <= ord_of prec emax b)
  \/ sf_is_nan b = true
  \/ (sf_is_nan a = true /\ b = S754_infinity false).

(** Position of a remainder [r] below [2 ^ n], as the shift-right loop of the
    rounding algorithm records it. *)
Definition loc_of_rem (r n : Z) : location :=
  if r =? 0 then loc_Exact else loc_Inexact (2 * r ?= 2 ^ n).

(** ** JavaScript numbers *)

Definition num_wle (a b : float) : Prop :=
  sf_wle_of prec emax (Prim2SF a) (Prim2SF b).

(** A number that is neither an infinity nor NaN. *)
Definition num_finite (x : float) : bool := sf_is_finite (Prim2SF x).

(** [Math.round] of ECMAScript: NaN, the infinities, the zeros and the
    integral numbers are returned as they are; otherwise the result is
    [floor (x + 1/2)] computed exactly, which is [-0] for [-0.5 <= x < 0]
    and [+0] for [0 < x < 0.5]. *)
Definition Math_round (x : float) : float :=
  match Prim2SF x with
  | S754_finite s m e =>
      if 0 <=? e then x
      else
        let n := Z.shiftr (2 * cond_Zopp s (Zpos m) + 2 ^ (- e)) (1 - e) in
        if n =? 0 then (if s then neg_zero else zero)
        else SF2Prim (binary_normalize prec emax n 0 false)
  | _ => x
  end.

(** Exact rational value of a finite number (0 for the others). *)
Definition float_value (x : float) : Q :=
  match Prim2SF x with
  | S754_finite s m e =>
      (if s then -1 else 1) * (inject_Z (Zpos m) * Qpower 2 e)
  | _ => 0
  end%Q.


(** ** The [RiskAssessment] component *)

(** Values held in the factor records: the source stores numbers and
    strings. *)
Inductive jsval : Type :=
  | JNum (x : float)
  | JStr (s : string).

Inductive RiskLevel : Type := LOW | MODERATE | HIGH | EXTREME.

(** The icons of [lucide-react] used by the recommendations, each rendered
    with [size={24}]. *)
Inductive Icon : Type := CheckCircle | AlertTriangle | XCircle.

Record OverallRisk : Type := {
  score : float;
  level : RiskLevel;
  color : string;
  percentage : float
}.

Record Recommendation : Type := {
  action : string;
  message : string;
  details : list string;
  icon : Icon
}.

(** The state hooks of the component.  [overallRisk] and [recommendation]
    start as the empty object, here [None]. *)
Record State : Type := {
  riskFactors : gmap string (gmap string jsval);
  overallRisk : option OverallRisk;
  recommendation : option Recommendation
}.

Record Weights (A : Type) : Type := {
  weather : A;
  avalanche : A;
  terrain : A;
  group : A
}.
Arguments weather {A} _.
Arguments avalanche {A} _.
Arguments terrain {A} _.
Arguments group {A} _.


(** The weights as the program holds them: each literal denotes the nearest
    binary64 number. *)
Definition weights : Weights float :=
  {| weather := 0.3; avalanche := 0.35; terrain := 0.2; group := 0.15 |}%float.

Definition level_name (l : RiskLevel) : string :=
  match l with
  | LOW => "LOW"
  | MODERATE => "MODERATE"
  | HIGH => "HIGH"
  | EXTREME => "EXTREME"
  end.

(** Severity order of the tiers. *)
Definition level_rank (l : RiskLevel) : nat :=
  match l with
  | LOW => 0
  | MODERATE => 1
  | HIGH => 2
  | EXTREME => 3
  end.

Definition initialRiskFactors : gmap string (gmap string jsval) :=
  {[ "weather" :=
       {[ "temperature" := JNum (-5); "windSpeed" := JNum 35;
          "visibility" := JNum 150; "forecast" := JStr "deteriorating";
          "precipitation" := JStr "snow"; "score" := JNum 6 ]};
     "avalanche" :=
       {[ "level" := JNum 3; "trend" := JStr "increasing";
          "newSnow" := JNum 25; "windLoading" := JStr "moderate";
          "score" := JNum 7 ]};
     "terrain" :=
       {[ "elevation" := JNum 2800; "slope" := JNum 38;
          "aspect" := JStr "north"; "difficulty" := JStr "intermediate";
          "score" := JNum 5 ]};
     "group" :=
       {[ "experience" := JStr "intermediate"; "groupSize" := JNum 3;
          "equipment" := JStr "complete"; "fitness" := JStr "good";
          "score" := JNum 4 ]} ]}.

Definition initialState : State :=
  {| riskFactors := initialRiskFactors;
     overallRisk := None;
     recommendation := None |}.

Definition recommendation_GO : Recommendation :=
  {| action := "GO";
     message := "Risk profile supports resilient activity execution";
     details :=
       [ "Weather conditions are stable and favorable";
         "Avalanche risk is within acceptable parameters";
         "Route complexity matches group capabilities";
         "Proceed with standard resilience measures" ];
     icon := CheckCircle |}.

Definition recommendation_CAUTION : Recommendation :=
  {| action := "CAUTION";
     message := "Enhanced resilience measures required for safe execution";
     details :=
       [ "Implement continuous monitoring of changing conditions";
         "Verify latest hazard bulletins and warnings";
         "Deploy comprehensive risk mitigation equipment";
         "Activate contingency planning and alternative routes" ];
     icon := AlertTriangle |}.

Definition recommendation_RECONSIDER : Recommendation :=
  {| action := "RECONSIDER";
     message := "Risk exposure exceeds resilience capacity thresholds";
     details :=
       [ "Current hazard profile surpasses acceptable risk tolerance";
         "Recommend postponement pending improved conditions";
         "Professional risk management expertise required if proceeding";
         "Deploy advanced emergency response infrastructure" ];
     icon := AlertTriangle |}.

Definition recommendation_CRITICAL : Recommendation :=
  {| action := "CRITICAL RISK";
     message := "Hazard exposure incompatible with population safety";
     details :=
       [ "Multiple catastrophic risk vectors converging";
         "Environmental conditions pose extreme societal threat";
         "Restrict access to secured, controlled environments only";
         "Await substantial hazard mitigation before reconsidering" ];
     icon := XCircle |}.

Section Component.
(** Conversion of a string to a number by the language ([ToNumber] on a
    string), used only when a score field holds a string. *)
Variable StringToNumber : string -> float.

Definition ToNumber (v : option jsval) : float :=
  match v with
  | Some (JNum x) => x
  | Some (JStr s) => StringToNumber s
  | None => nan
  end.

(** [riskFactors.category.score] converted for the multiplication.  A
    missing category makes the property access throw ([None]); a missing
    [score] field is [undefined], which converts to NaN. *)
Definition factor_score (rf : gmap string (gmap string jsval))
    (category : string) : option float :=
  r ← rf !! category; Some (ToNumber (r !! "score")).

Definition calculateOverallRisk (st : State) : option State :=
  w ← factor_score (riskFactors st) "weather";
  a ← factor_score (riskFactors st) "avalanche";
  t ← factor_score (riskFactors st) "terrain";
  g ← factor_score (riskFactors st) "group";
  let weightedScore :=
    ((w * weather weights) +
     (a * avalanche weights) +
     (t * terrain weights) +
     (g * group weights))%float in
  let '(riskLevel, color, recommendation) :=
    if (weightedScore <=? 3)%float then
      (LOW, "#10b981", recommendation_GO)
    else if (weightedScore <=? 5)%float then
      (MODERATE, "#f59e0b", recommendation_CAUTION)
    else if (weightedScore <=? 7)%float then
      (HIGH, "#f97316", recommendation_RECONSIDER)
    else
      (EXTREME, "#dc2626", recommendation_CRITICAL) in
  Some {| riskFactors := riskFactors st;
          overallRisk :=
            Some {| score := weightedScore;
                    level := riskLevel;
                    color := color;
                    percentage := Math_round ((weightedScore / 10) * 100)%float |};
          recommendation := Some recommendation |}.
End Component.

(** [setRiskFactors(prev => ({...prev, [category]: {...prev[category],
    [field]: value}}))].  Spreading the [undefined] of a missing category
    copies nothing. *)
Definition updateRiskFactor (category field : string) (value : jsval)
    (st : State) : State :=
  {| riskFactors :=
       <[category := <[field := value]> (default ∅ (riskFactors st !! category))]>
         (riskFactors st);
     overallRisk := overallRisk st;
     recommendation := recommendation st |}.

Definition getRiskColor (score : float) : string :=
  if (score <=? 3)%float then "#10b981"
  else if (score <=? 5)%float then "#f59e0b"
  else if (score <=? 7)%float then "#f97316"
  else "#dc2626".

(** ** Vocabulary of the specification *)

(** The state holds a record for [category] whose [score] is the number
    [x]. *)
Definition sub_score (st : State) (category : string) (x : float) : Prop :=
  exists r, riskFactors st !! category = Some r /\ r !! "score" = Some (JNum x).

(** [riskFactors.category.field], [None] when the category or the field is
    missing. *)
Definition field_of (st : State) (category field : string) : option jsval :=
  riskFactors st !! category ≫= (.!! field).

(** The input record of four numeric sub-scores. *)
Definition sub_scores (st : State) (w a t g : float) : Prop :=
  sub_score st "weather" w /\ sub_score st "avalanche" a /\
  sub_score st "terrain" t /\ sub_score st "group" g.

(** A state with the four sub-scores and nothing else. *)
Definition state_of_scores (w a t g : float) : State :=
  {| riskFactors :=
       {[ "weather" := {[ "score" := JNum w ]};
          "avalanche" := {[ "score" := JNum a ]};
          "terrain" := {[ "score" := JNum t ]};
          "group" := {[ "score" := JNum g ]} ]};
     overallRisk := None;
     recommendation := None |}.

(** The weighted sum as the specification writes it, weight first. *)
Definition weighted_sum (w a t g : float) : float :=
  (0.3 * w + 0.35 * a + 0.2 * t + 0.15 * g)%float.

(** The tier of a score by the conditional chain of the specification. *)
Definition tier_of_score (s : float) : RiskLevel :=
  if (s <=? 3)%float then LOW
  else if (s <=? 5)%float then MODERATE
  else if (s <=? 7)%float then HIGH
  else EXTREME.

(** Color and recommendation bundle of a tier, as the specification lists
    them. *)
Definition tier_color (l : RiskLevel) : string :=
  match l with
  | LOW => "#10b981"
  | MODERATE => "#f59e0b"
  | HIGH => "#f97316"
  | EXTREME => "#dc2626"
  end.

Definition tier_recommendation (l : RiskLevel) : Recommendation :=
  match l with
  | LOW => recommendation_GO
  | MODERATE => recommendation_CAUTION
  | HIGH => recommendation_RECONSIDER
  | EXTREME => recommendation_CRITICAL
  end.

(** One sub-score increases from the first quadruple to the second and the
    other three are unchanged. *)
Definition one_increased (w a t g w' a' t' g' : float) : Prop :=
  ((w <=? w')%float = true /\ a = a' /\ t = t' /\ g = g') \/
  (w = w' /\ (a <=? a')%float = true /\ t = t' /\ g = g') \/
  (w = w' /\ a = a' /\ (t <=? t')%float = true /\ g = g') \/
  (w = w' /\ a = a' /\ t = t' /\ (g <=? g')%float = true).


(** A sub-score in the closed interval from 0 to 10. *)
Definition in_range (x : float) : Prop :=
  (0 <=? x)%float = true /\ (x <=? 10)%float = true.

(** ** The [RiskAssessment] component, continued *)

(** The glyphs that [getWeatherIcon] returns: a snowflake, fog, a gust of
    wind, and the sun behind a cloud. *)
Inductive WeatherGlyph : Type := GlyphSnow | GlyphFog | GlyphWind | GlyphSunCloud.

(** [v === 'snow']. *)
Definition is_snow (v : option jsval) : bool :=
  match v with
  | Some (JStr s) => bool_decide (s = "snow")
  | _ => false
  end.

Section WeatherGlyphs.
Variable StringToNumber : string -> float.

(** [getWeatherIcon] of the component: the first test that holds decides.
      A missing [weather] record makes the property access throw ([None]);
      a comparison with a missing field is a comparison with NaN, false. *)
Definition getWeatherIcon (st : State) : option WeatherGlyph :=
    w ← riskFactors st !! "weather";
    Some (if is_snow (w !! "precipitation") then GlyphSnow
          else if (ToNumber StringToNumber (w !! "visibility") <? 200)%float then GlyphFog
          else if (30 <? ToNumber StringToNumber (w !! "windSpeed"))%float then GlyphWind
          else GlyphSunCloud).
End WeatherGlyphs.

(** The four categories that [calculateOverallRisk] reads. *)
Definition scored_categories : list string :=
  ["weather"; "avalanche"; "terrain"; "group"].

(** What the component shows of an assessment: the overall risk and the
    recommendation, [None] when the evaluation threw. *)
Definition assessment (r : option State)
    : option (option OverallRisk * option Recommendation) :=
  st ← r; Some (overallRisk st, recommendation st).

(** The severity of the most severe factor badge: each factor is shown in
    the color that [getRiskColor] gives its sub-score. *)
Definition worst_factor_rank (w a t g : float) : nat :=
  Nat.max (Nat.max (Nat.max (level_rank (tier_of_score w))
                            (level_rank (tier_of_score a)))
                   (level_rank (tier_of_score t)))
          (level_rank (tier_of_score g)).

(** ** Rounding a float to an integer *)

(** [floor (x + 1/2)] and [floor x] on the floats of a format, with the
    sign of zero that [Math.round] and [Math.floor] give. *)
Definition sf_round_of (prec emax : Z) (x : spec_float) : spec_float :=
  match x with
  | S754_finite s m e =>
      if 0 <=? e then x
      else
        let n := Z.shiftr (2 * cond_Zopp s (Zpos m) + 2 ^ (- e)) (1 - e) in
        if n =? 0 then S754_zero s else binary_normalize prec emax n 0 false
  | _ => x
  end.

Definition sf_floor_of (prec emax : Z) (x : spec_float) : spec_float :=
  match x with
  | S754_finite s m e =>
      if 0 <=? e then x
      else
        let n := Z.shiftr (cond_Zopp s (Zpos m)) (- e) in
        if n =? 0 then S754_zero false else binary_normalize prec emax n 0 false
  | _ => x
  end.

(** [Math.floor] of ECMAScript: the largest integral number not above [x];
    NaN, the infinities, the zeros and the integral numbers are returned as
    they are, and a number between 0 and 1 gives [+0]. *)
Definition Math_floor (x : float) : float :=
  match Prim2SF x with
  | S754_finite s m e =>
      if 0 <=? e then x
      else
        let n := Z.shiftr (cond_Zopp s (Zpos m)) (- e) in
        if n =? 0 then zero
        else SF2Prim (binary_normalize prec emax n 0 false)
  | _ => x
  end.

(** Integer image of a number, in units of [2 ^ -1074]. *)
Definition ord64 (x : float) : Z := ord_of prec emax (Prim2SF x).

(** A finite number with an integral value. *)
Definition num_integer (x : float) : bool :=
  num_finite x && (ord64 x mod 2 ^ 1074 =? 0).

(** The index that a number denotes as a property key of an array: the
    non-negative integral numbers (and [-0]) denote an index, every other
    number names no element. *)
Definition array_index (k : float) : option nat :=
  if num_integer k && (0 <=? ord64 k)
  then Some (Z.to_nat (ord64 k / 2 ^ 1074))
  else None.

(** [l[k]]: the element, or [undefined] ([None]). *)
Definition array_get {A : Type} (l : list A) (k : float) : option A :=
  i ← array_index k; l !! i.

(** The number of a natural number. *)
Definition num_of_nat (n : nat) : float :=
  SF2Prim (binary_normalize prec emax (Z.of_nat n) 0 false).

(** The result of a call of [Math.random]: a number from 0 up to but not
    including 1. *)
Definition unit_draw (r : float) : Prop :=
  (0 <=? r)%float = true /\ (r <? 1)%float = true.


(** [lo <= x <= hi] as the comparisons of numbers decide it, and the same
    for a number with an integral value. *)
Definition num_between (lo x hi : float) : Prop :=
  (lo <=? x)%float = true /\ (x <=? hi)%float = true.

Definition whole_between (lo x hi : float) : Prop :=
  num_between lo x hi /\ num_integer x = true.

(** ** The [WeatherDashboard] component *)

(** What an evaluation has consumed of its environment: the number of
    results of [Math.random] and of [Date.now] taken so far. *)
Record World : Type := { draws : nat; reads : nat }.

(** Evaluations that consume results of [Math.random] and [Date.now]. *)
Definition Sim (A : Type) : Type := World -> A * World.

#[global] Instance sim_ret : MRet Sim := fun A (a : A) (w : World) => (a, w).

#[global] Instance sim_bind : MBind Sim :=
  fun A B (f : A -> Sim B) (m : Sim A) (w : World) => f (fst (m w)) (snd (m w)).

(** [Array.from({ length: count }, (_, i) => f i)]: the entries are computed
    in the order of their indices. *)
Fixpoint array_from {A : Type} (f : nat -> Sim A) (i count : nat) : Sim (list A) :=
  match count with
  | O => mret []
  | S count' => x ← f i; xs ← array_from f (S i) count'; mret (x :: xs)
  end.

(** [l.length], a number. *)
Definition array_length {A : Type} (l : list A) : float := num_of_nat (length l).

(** Members that an object literal inherits from [Object.prototype]. *)
Definition object_prototype_members : list string :=
  ["constructor"; "hasOwnProperty"; "isPrototypeOf"; "propertyIsEnumerable";
   "toLocaleString"; "toString"; "valueOf"; "__proto__";
   "__defineGetter__"; "__defineSetter__"; "__lookupGetter__"; "__lookupSetter__"].

(** What [table[key] || fallback] evaluates to: a value of the kind that the
    table holds, or a member inherited from [Object.prototype]. *)
Inductive Member (A : Type) : Type :=
  | Own (a : A)
  | Inherited (key : string).
Arguments Own {A} a.
Arguments Inherited {A} key.

Fixpoint own_property {A : Type} (table : list (string * A)) (key : string) : option A :=
  match table with
  | [] => None
  | (k, a) :: rest => if bool_decide (k = key) then Some a else own_property rest key
  end.

(** The property key of a value that is a string or [undefined]. *)
Definition property_key (v : option string) : string :=
  match v with Some s => s | None => "undefined" end.

(** [table[key] || fallback] for an object literal whose own values are all
    truthy: an own property wins, then an inherited member (all of them are
    truthy), and the fallback is taken when the key names neither. *)
Definition member_or {A : Type} (table : list (string * A)) (key : option string)
    (fallback : A) : Member A :=
  match own_property table (property_key key) with
  | Some a => Own a
  | None =>
      if bool_decide (property_key key ∈ object_prototype_members)
      then Inherited (property_key key)
      else Own fallback
  end.

Module WeatherDashboard.

Module Location.
Record t : Type := { name : string; elevation : string }.
End Location.

Module Current.
Record t : Type := {
  temperature : float;
  condition : option string;
  humidity : float;
  windSpeed : float;
  windDirection : option string;
  visibility : float;
  pressure : float;
  feelsLike : float
}.
End Current.

Module Hourly.
Record t : Type := {
  hour : float;
  temperature : float;
  condition : option string;
  precipitation : float
}.
End Hourly.

Module Risks.
Record t : Type := {
  avalanche : string;
  frost : string;
  visibility : string;
  wind : string
}.
End Risks.

Record WeatherData : Type := {
  location : string;
  elevation : string;
  current : Current.t;
  forecast : list Hourly.t;
  risks : Risks.t
}.

(** An icon element: the component and its class. *)
Record Element : Type := { component : string; className : string }.

Definition conditions : list string :=
  ["sunny"; "cloudy"; "rainy"; "snowy"; "windy"].

Definition directions : list string :=
  ["N"; "NE"; "E"; "SE"; "S"; "SW"; "W"; "NW"].

Section Generator.
#[local] Open Scope float_scope.
(** The results of the calls of [Math.random] and [Date.now], in the order
    of the calls, and the local hour of a time value. *)
Variable random : nat -> float.
Variable now : nat -> float.
Variable getHours : float -> float.

Definition Math_random : Sim float :=
  fun w => (random (draws w), {| draws := S (draws w); reads := reads w |}).

Definition Date_now : Sim float :=
  fun w => (now (reads w), {| draws := draws w; reads := S (reads w) |}).

(** One entry of the forecast: the callback of [Array.from]. *)
Definition forecast_entry (baseTemp : float) (i : nat) : Sim Hourly.t :=
  t ← Date_now;
  r1 ← Math_random;
  r2 ← Math_random;
  r3 ← Math_random;
  mret {| Hourly.hour := getHours (t + num_of_nat i * 60 * 60 * 1000);
          Hourly.temperature := Math_round (baseTemp + (r1 - 0.5) * 8);
          Hourly.condition :=
            array_get conditions (Math_floor (r2 * array_length conditions));
          Hourly.precipitation := r3 * 5 |}.

Definition generateMockWeatherData (loc : Location.t) : Sim WeatherData :=
  r ← Math_random;
  let baseTemp := r * 20 - 5 in
  r ← Math_random;
  let condition := array_get conditions (Math_floor (r * array_length conditions)) in
  rh ← Math_random;
  rw ← Math_random;
  rd ← Math_random;
  rv ← Math_random;
  rp ← Math_random;
  rf ← Math_random;
  fc ← array_from (forecast_entry baseTemp) 0 24;
  ra ← Math_random;
  rv' ← Math_random;
  rw' ← Math_random;
  mret {| location := Location.name loc;
          elevation := Location.elevation loc;
          current :=
            {| Current.temperature := Math_round baseTemp;
               Current.condition := condition;
               Current.humidity := Math_round (rh * 40 + 40);
               Current.windSpeed := Math_round (rw * 25 + 5);
               Current.windDirection := array_get directions (Math_floor (rd * 8));
               Current.visibility := Math_round (rv * 20 + 10);
               Current.pressure := Math_round (rp * 50 + 980);
               Current.feelsLike := Math_round (baseTemp - rf * 5) |};
          forecast := fc;
          risks :=
            {| Risks.avalanche := if 0.7 <? ra then "moderate" else "low";
               Risks.frost := if baseTemp <? 0 then "high" else "low";
               Risks.visibility := if 0.8 <? rv' then "poor" else "good";
               Risks.wind := if 0.6 <? rw' then "strong" else "normal" |} |}.
End Generator.

Definition cloudy_icon : Element :=
  {| component := "Cloud"; className := "weather-icon cloudy" |}.

Definition icons : list (string * Element) :=
  [("sunny", {| component := "Sun"; className := "weather-icon sunny" |});
   ("cloudy", cloudy_icon);
   ("rainy", {| component := "CloudRain"; className := "weather-icon rainy" |});
   ("snowy", {| component := "Cloud"; className := "weather-icon snowy" |});
   ("windy", {| component := "Wind"; className := "weather-icon windy" |})].

(** [icons[condition] || icons.cloudy]. *)
Definition getWeatherIcon (condition : option string) : Member Element :=
  member_or icons condition cloudy_icon.

Definition colors : list (string * string) :=
  [("low", "var(--alpine-safe)");
   ("moderate", "var(--alpine-warning)");
   ("high", "var(--alpine-danger)");
   ("poor", "var(--alpine-danger)");
   ("good", "var(--alpine-safe)");
   ("normal", "var(--alpine-safe)");
   ("strong", "var(--alpine-warning)")].

(** [colors[risk] || 'var(--alpine-rock)']. *)
Definition getRiskColor (risk : option string) : Member string :=
  member_or colors risk "var(--alpine-rock)".

End WeatherDashboard.

(** ** The local risk calculation of the [App] component of Alpine Guard *)

Module AlpineGuard.

Record Weather : Type := {
  temp : float;
  condition : string;
  wind : float;
  humidity : float
}.


(** The entries that the object literal of [calculateLocalRisks] starts
    with. *)
Definition default_risks : gmap string string :=
  <["avalanche" := "low"]>
    (<["weather" := "low"]>
       (<["visibility" := "good"]> (<["terrain" := "low"]> ∅))).

(** [calculateLocalRisks]: the risks are the defaults overridden by the
    entries of [baseRisks] (an omitted argument is the empty object), then
    updated by the tests in the order of the source.  The key [avalanche]
    is always present when it is read. *)
Definition calculateLocalRisks (weather : Weather)
    (baseRisks : option (gmap string string)) : gmap string string :=
  let risks := default ∅ baseRisks ∪ default_risks in
  let risks :=
    if (temp weather <? -5)%float then <["weather" := "moderate"]> risks else risks in
  let risks :=
    if (temp weather <? -10)%float then <["weather" := "high"]> risks else risks in
  let risks :=
    if (25 <? wind weather)%float then <["weather" := "moderate"]> risks else risks in
  let risks :=
    if (40 <? wind weather)%float then <["weather" := "high"]> risks else risks in
  let risks :=
    if bool_decide (condition weather = "Snow")
    then <["visibility" := "poor"]>
           (alter (fun a => if bool_decide (a = "low") then "moderate" else a)
                  "avalanche" risks)
    else risks in
  let risks :=
    if bool_decide (condition weather = "Fog")
    then <["visibility" := "poor"]> risks else risks in
  let risks :=
    if bool_decide (condition weather = "Snow") && (20 <? wind weather)%float
    then <["avalanche" := "high"]> risks else risks in
  risks.

(** The order of the labels 'low', 'moderate', 'high'. *)
Definition label_rank (l : string) : nat :=
  if bool_decide (l = "high") then 2
  else if bool_decide (l = "moderate") then 1
  else 0.

Definition known_label (l : string) : Prop :=
  l = "low" \/ l = "moderate" \/ l = "high".

End AlpineGuard.
(** ** Binary floating-point rounding is monotone

    The lemmas of this part hold for every format [prec], [emax] with
    [0 < prec < emax].  They follow the rounding algorithm of [SpecFloat]:
    the number of digits of a mantissa, the shift-right loop and its record
    of the bits shifted out, rounding to nearest with ties to even, and the
    final overflow test. *)

(** *** Number of binary digits *)

Section Digits.
Lemma digits2_pos_size p : digits2_pos p = Pos.size p.
Proof. induction p; simpl; congruence. Qed.

Lemma digits2_bounds p :
  2 ^ (Zpos (digits2_pos p) - 1) <= Zpos p < 2 ^ Zpos (digits2_pos p).
Proof.
  rewrite digits2_pos_size. split.
  - pose proof (Pos.size_le p) as H.
    assert (2 ^ Zpos (Pos.size p) <= 2 * Zpos p) as H1.
    { rewrite <- Pos2Z.inj_pow. change (2 * Z.pos p) with (Z.pos p~0). lia. }
    replace (Zpos (Pos.size p)) with (Z.succ (Zpos (Pos.size p) - 1)) in H1 by lia.
    rewrite Z.pow_succ_r in H1 by lia. lia.
  - pose proof (Pos.size_gt p) as H.
    rewrite <- Pos2Z.inj_pow. lia.
Qed.

Lemma digits2_log2 p : Zpos (digits2_pos p) = Z.log2 (Zpos p) + 1.
Proof.
  pose proof (digits2_bounds p) as [H1 H2].
  assert (Z.log2 (Zpos p) = Zpos (digits2_pos p) - 1); [|lia].
  apply Z.log2_unique; [lia|]. split; [exact H1|].
  replace (Z.succ (Zpos (digits2_pos p) - 1)) with (Zpos (digits2_pos p)) by lia. exact H2.
Qed.
End Digits.

(** *** The shift-right loop

    After [n] steps on a mantissa [m] the record holds the quotient of [m]
    by [2 ^ n] and the position of the remainder. *)

Section Shr.
Lemma iter_pos_nat {A} (f : A -> A) p x :
  SpecFloat.iter_pos f p x = Nat.iter (Pos.to_nat p) f x.
Proof.
  revert x; induction p as [p IH|p IH|]; intros x;
    rewrite ?Pos2Nat.inj_xI, ?Pos2Nat.inj_xO; cbn [SpecFloat.iter_pos].
  - rewrite !IH, <- Nat.iter_succ_r, <- Nat.iter_add.
    f_equal. lia.
  - rewrite !IH, <- Nat.iter_add. f_equal. lia.
  - reflexivity.
Qed.

Lemma loc_of_rem_flags m rb sb r n :
  loc_of_shr_record (Build_shr_record m rb sb) = loc_of_rem r n ->
  rb || sb = negb (r =? 0).
Proof.
  unfold loc_of_rem. destruct (r =? 0), rb, sb; simpl; congruence.
Qed.

Lemma shr_1_inv m0 n mrs r :
  0 <= n -> 0 <= shr_m mrs -> 0 <= r < 2 ^ n ->
  m0 = shr_m mrs * 2 ^ n + r ->
  loc_of_shr_record mrs = loc_of_rem r n ->
  exists r', 0 <= r' < 2 ^ (n + 1) /\
             m0 = shr_m (shr_1 mrs) * 2 ^ (n + 1) + r' /\
             0 <= shr_m (shr_1 mrs) /\
             loc_of_shr_record (shr_1 mrs) = loc_of_rem r' (n + 1).
Proof.
  intros Hn Hm Hr Hm0 Hloc. destruct mrs as [m rb sb]. simpl in Hm, Hm0.
  apply loc_of_rem_flags in Hloc.
  assert (Hp : 2 ^ (n + 1) = 2 * 2 ^ n) by (rewrite Z.pow_add_r by lia; lia).
  assert (Hodd : forall b : bool,
    loc_of_shr_record (Build_shr_record (m / 2) b (rb || sb))
    = loc_of_rem (if b then 2 ^ n + r else r) (n + 1)).
  { intros b. unfold loc_of_rem. rewrite Hloc, Hp.
    destruct b.
    - destruct (Z.eqb_spec r 0) as [->|Hr0]; simpl.
      + rewrite Z.add_0_r. destruct (Z.eqb_spec (2 ^ n) 0); [lia|].
        now rewrite Z.compare_refl.
      + destruct (Z.eqb_spec (2 ^ n + r) 0); [lia|].
        replace (2 * (2 ^ n + r) ?= 2 * 2 ^ n) with Gt; [easy|].
        symmetry. apply Z.compare_gt_iff. lia.
    - destruct (Z.eqb_spec r 0) as [->|Hr0]; simpl; [easy|].
      replace (2 * r ?= 2 * 2 ^ n) with Lt; [easy|].
      symmetry. apply Z.compare_lt_iff. lia. }
  destruct m as [|[p|p|]|p]; simpl; try lia.
  - exists r. rewrite Hp. repeat split; try lia. apply (Hodd false).
  - exists (2 ^ n + r). rewrite Hp. repeat split; try lia.
    replace (Z.pos p) with (Z.pos p~1 / 2). apply (Hodd true).
    rewrite Pos2Z.inj_xI. symmetry. apply (Z.div_unique _ 2 _ 1); lia.
  - exists r. rewrite Hp. repeat split; try lia.
    replace (Z.pos p) with (Z.pos p~0 / 2). apply (Hodd false).
    rewrite Pos2Z.inj_xO. symmetry. apply (Z.div_unique _ 2 _ 0); lia.
  - exists (2 ^ n + r). rewrite Hp. repeat split; try lia. apply (Hodd true).
Qed.
End Shr.

(** *** Shifting then rounding computes [rne_div] *)

Section ShrSpec.
Lemma pow2_pos n : 0 <= n -> 0 < 2 ^ n.
Proof. intros; apply Z.pow_pos_nonneg; lia. Qed.

Lemma shr_iter_inv (k : nat) m :
  0 <= m ->
  exists r, 0 <= r < 2 ^ Z.of_nat k /\
    m = shr_m (Nat.iter k shr_1 (Build_shr_record m false false)) * 2 ^ Z.of_nat k + r /\
    0 <= shr_m (Nat.iter k shr_1 (Build_shr_record m false false)) /\
    loc_of_shr_record (Nat.iter k shr_1 (Build_shr_record m false false))
      = loc_of_rem r (Z.of_nat k).
Proof.
  intros Hm. induction k as [|k IH].
  - exists 0. simpl. repeat split; lia.
  - destruct IH as (r & Hr & Hm0 & Hq & Hloc).
    rewrite Nat2Z.inj_succ, <- Z.add_1_r. simpl Nat.iter.
    eapply shr_1_inv; eauto. lia.
Qed.

Lemma rne_div_of_rem m q r n :
  0 <= n -> 0 <= r < 2 ^ n -> m = q * 2 ^ n + r ->
  q = m / 2 ^ n /\ round_nearest_even q (loc_of_rem r n) = rne_div m n.
Proof.
  intros Hn Hr Hm. pose proof (pow2_pos n Hn) as Hp.
  assert (Hq : q = m / 2 ^ n) by (apply (Z.div_unique_pos _ _ _ r); lia).
  assert (Hr' : r = m mod 2 ^ n) by (apply (Z.mod_unique_pos _ _ q); lia).
  split; [exact Hq|]. unfold rne_div, loc_of_rem. rewrite <- Hq, <- Hr'.
  destruct (Z.eqb_spec r 0) as [->|Hr0]; simpl.
  - destruct (2 ^ n); [lia|reflexivity|lia].
  - destruct (2 * r ?= 2 ^ n); reflexivity.
Qed.

Lemma shr_exact_spec m e n :
  0 <= m -> 0 <= n ->
  snd (shr (shr_record_of_loc m loc_Exact) e n) = e + n /\
  shr_m (fst (shr (shr_record_of_loc m loc_Exact) e n)) = m / 2 ^ n /\
  round_nearest_even
    (shr_m (fst (shr (shr_record_of_loc m loc_Exact) e n)))
    (loc_of_shr_record (fst (shr (shr_record_of_loc m loc_Exact) e n)))
  = rne_div m n.
Proof.
  intros Hm Hn. destruct n as [|k|k]; [| |lia].
  - simpl shr. simpl fst. simpl snd. rewrite Z.add_0_r. split; [easy|].
    assert (H0 : 0 <= 0 < 2 ^ 0) by (simpl; lia).
    assert (Hm0 : m = m * 2 ^ 0 + 0) by (simpl; lia).
    destruct (rne_div_of_rem m m 0 0 (Z.le_refl 0) H0 Hm0) as [H1 H2].
    split; [exact H1|exact H2].
  - unfold shr. simpl fst. simpl snd. split; [easy|].
    rewrite iter_pos_nat. unfold shr_record_of_loc.
    destruct (shr_iter_inv (Pos.to_nat k) m Hm) as (r & Hr & Hm0 & Hq & Hloc).
    rewrite positive_nat_Z in *. rewrite Hloc.
    eapply rne_div_of_rem; eauto; lia.
Qed.

Lemma rne_div_bounds m n :
  0 <= n -> m / 2 ^ n <= rne_div m n <= m / 2 ^ n + 1.
Proof.
  intros Hn. unfold rne_div.
  destruct (2 * (m mod 2 ^ n) ?= 2 ^ n); [destruct (Z.even _)| |]; lia.
Qed.

Lemma rne_div_exact q n : 0 <= n -> rne_div (q * 2 ^ n) n = q.
Proof.
  intros Hn. pose proof (pow2_pos n Hn) as Hp. unfold rne_div.
  rewrite Z.div_mul, Z.mod_mul by lia.
  assert (Hc : (2 * 0 ?= 2 ^ n) = Lt) by (apply Z.compare_lt_iff; lia).
  now rewrite Hc.
Qed.

Lemma rne_div_scale m n k :
  0 <= n -> 0 <= k -> rne_div (m * 2 ^ k) (n + k) = rne_div m n.
Proof.
  intros Hn Hk. pose proof (pow2_pos n Hn). pose proof (pow2_pos k Hk).
  unfold rne_div. rewrite Z.pow_add_r by lia.
  rewrite Z.div_mul_cancel_r by lia.
  rewrite Z.mul_mod_distr_r by lia.
  rewrite Z.mul_assoc, <- Zmult_compare_compat_r by lia. reflexivity.
Qed.

Lemma rne_div_mono m m' n :
  0 <= n -> m <= m' -> rne_div m n <= rne_div m' n.
Proof.
  intros Hn Hm. pose proof (pow2_pos n Hn) as Hp.
  pose proof (Z.div_le_mono m m' (2 ^ n) Hp Hm) as Hq.
  destruct (Z.eq_dec (m / 2 ^ n) (m' / 2 ^ n)) as [Heq|Hne].
  - assert (Hr : m mod 2 ^ n <= m' mod 2 ^ n).
    { rewrite 2!Z.mod_eq by lia. rewrite Heq. lia. }
    unfold rne_div. rewrite Heq.
    destruct (Z.compare_spec (2 * (m mod 2 ^ n)) (2 ^ n));
      destruct (Z.compare_spec (2 * (m' mod 2 ^ n)) (2 ^ n));
      destruct (Z.even (m' / 2 ^ n)); lia.
  - pose proof (rne_div_bounds m n Hn). pose proof (rne_div_bounds m' n Hn). lia.
Qed.
End ShrSpec.

(** *** Powers of two *)

Section PowFacts.
Lemma pow2_split a b : 0 <= a -> 0 <= b -> 2 ^ (a + b) = 2 ^ a * 2 ^ b.
Proof. intros; apply Z.pow_add_r; lia. Qed.

Lemma pow2_le a b : 0 <= a <= b -> 2 ^ a <= 2 ^ b.
Proof. intros; apply Z.pow_le_mono_r; lia. Qed.

Lemma pow2_lt a b : 0 <= a < b -> 2 ^ a < 2 ^ b.
Proof. intros; apply Z.pow_lt_mono_r; lia. Qed.

Lemma pow2_lt_inv a b : 0 <= b -> 2 ^ a < 2 ^ b -> a < b.
Proof. intros Hb H. apply (Z.pow_lt_mono_r_iff 2); lia. Qed.

Lemma div_pow2_lower p n k :
  0 <= n -> 0 <= k -> 2 ^ (n + k) <= p -> 2 ^ k <= p / 2 ^ n.
Proof.
  intros Hn Hk H. rewrite pow2_split in H by lia.
  apply Z.div_le_lower_bound; [apply pow2_pos; lia|lia].
Qed.

Lemma div_pow2_upper p n k :
  0 <= n -> 0 <= k -> p < 2 ^ (n + k) -> p / 2 ^ n < 2 ^ k.
Proof.
  intros Hn Hk H. rewrite pow2_split in H by lia.
  apply Z.div_lt_upper_bound; [apply pow2_pos; lia|lia].
Qed.

Lemma digits2_unique q k :
  2 ^ (k - 1) <= Zpos q < 2 ^ k -> Zpos (digits2_pos q) = k.
Proof.
  intros [H1 H2]. pose proof (digits2_bounds q) as [H3 H4].
  assert (0 < k).
  { destruct (Z.leb_spec k 0); [|lia]. exfalso.
    destruct k; [simpl in H2; lia|lia|]. rewrite Z.pow_neg_r in H2; lia. }
  assert (k - 1 < Zpos (digits2_pos q)) by (apply pow2_lt_inv; lia).
  assert (Zpos (digits2_pos q) - 1 < k) by (apply pow2_lt_inv; lia).
  lia.
Qed.

Lemma digits2_le q k : 0 <= k -> Zpos q < 2 ^ k -> Zpos (digits2_pos q) <= k.
Proof.
  intros Hk H. pose proof (digits2_bounds q) as [H3 H4].
  assert (Zpos (digits2_pos q) - 1 < k) by (apply pow2_lt_inv; lia). lia.
Qed.

Lemma shr_nonpos mrs e n : n <= 0 -> shr mrs e n = (mrs, e).
Proof. destruct n; [reflexivity|lia|reflexivity]. Qed.
End PowFacts.

(** *** Rounding, order and the operations of a format *)

Section Binary.
Variables prec emax : Z.
Hypothesis Hprec : 0 < prec.
Hypothesis Hemax : prec < emax.

Abbreviation emin := (SpecFloat.emin prec emax).
Abbreviation fexp := (SpecFloat.fexp prec emax).
Abbreviation ebase := (ebase_of prec emax).
Abbreviation rexp := (rexp_of prec emax).
Abbreviation rnd_pos := (rnd_pos_of prec emax).
Abbreviation rnd := (rnd_of prec emax).
Abbreviation ord := (ord_of prec emax).
Abbreviation valid := (SpecFloat.valid_binary prec emax).
Abbreviation omega := (2 ^ (emax - emin)).
Abbreviation sf_wle := (sf_wle_of prec emax).

Lemma emin_eq : emin = 3 - emax - prec.
Proof. reflexivity. Qed.

Lemma fexp_eq e : fexp e = Z.max (e - prec) emin.
Proof. reflexivity. Qed.

(** Rounding an exact positive mantissa [p] at exponent [e] never gives NaN,
    gives a float of the format, and the integer image of the result is the
    mantissa rounded to nearest-even at the exponent of the format, capped
    at the image of infinity. *)
Lemma binary_round_aux_spec s p e :
  e <= fexp (Zpos (digits2_pos p) + e) ->
  binary_round_aux prec emax s (Zpos p) e loc_Exact <> S754_nan /\
  SpecFloat.valid_binary prec emax (binary_round_aux prec emax s (Zpos p) e loc_Exact) = true /\
  ord (binary_round_aux prec emax s (Zpos p) e loc_Exact)
  = cond_Zopp s
      (Z.min (rne_div (Zpos p) (fexp (Zpos (digits2_pos p) + e) - e)
              * 2 ^ (fexp (Zpos (digits2_pos p) + e) - emin))
             (2 ^ (emax - emin))).
Proof.
  intros Hpre. unfold binary_round_aux, shr_fexp. simpl Zdigits2.
  pose proof (digits2_bounds p) as [Hd1 Hd2].
  remember (Zpos (digits2_pos p)) as d eqn:Hd.
  remember (fexp (d + e)) as E eqn:HE.
  assert (Hd0 : 0 < d) by lia.
  assert (Hn : 0 <= E - e) by lia.
  destruct (shr_exact_spec (Zpos p) e (E - e)) as (He' & Hm1 & HM); [lia|lia|].
  destruct (shr (shr_record_of_loc (Z.pos p) loc_Exact) e (E - e)) as [mrs' e'].
  simpl in He', Hm1, HM. rewrite HM. replace e' with E by lia. clear He' e'.
  pose proof (rne_div_bounds (Zpos p) (E - e) Hn) as HMb.
  remember (rne_div (Zpos p) (E - e)) as M eqn:HMdef.
  pose proof (emin_eq) as Hemin. rewrite fexp_eq in HE.
  assert (Hm1lo : 0 <= Zpos p / 2 ^ (E - e)).
  { apply Z.div_pos; [lia|apply pow2_pos; lia]. }
  assert (Hm1hi : Zpos p / 2 ^ (E - e) < 2 ^ prec).
  { apply div_pow2_upper; try lia.
    eapply Z.lt_le_trans; [exact Hd2|]. apply pow2_le. lia. }
  assert (Hnorm : E = d + e - prec -> 2 ^ (prec - 1) <= Zpos p / 2 ^ (E - e)).
  { intros HEm. apply div_pow2_lower; try lia.
    eapply Z.le_trans; [|exact Hd1]. apply pow2_le. lia. }
  assert (Hsub : d + e - prec < emin ->
                 Zpos p / 2 ^ (E - e) < 2 ^ (prec - 1)).
  { intros Hlt. apply div_pow2_upper; try lia.
    eapply Z.lt_le_trans; [exact Hd2|]. apply pow2_le. lia. }
  assert (Hpp : 2 ^ prec = 2 * 2 ^ (prec - 1)).
  { replace prec with (1 + (prec - 1)) at 1 by lia.
    rewrite pow2_split by lia. reflexivity. }
  assert (Hpp0 : 0 < 2 ^ (prec - 1)) by (apply pow2_pos; lia).
  assert (HEmin : emin <= E) by lia.
  assert (Hbig : 0 < 2 ^ (emax - emin)) by (apply pow2_pos; lia).
  assert (HEpos : 0 < 2 ^ (E - emin)) by (apply pow2_pos; lia).
  destruct M as [|q|q]; [| |lia].
  - simpl Zdigits2. rewrite shr_nonpos by (rewrite fexp_eq; lia). simpl.
    repeat split; [discriminate|]. rewrite Z.min_l by lia. now destruct s.
  - assert (Hcases : (Zpos q < 2 ^ prec /\ fexp (Zpos (digits2_pos q) + E) = E
                      /\ (E = d + e - prec -> 2 ^ (prec - 1) <= Zpos q))
                     \/ Zpos q = 2 ^ prec).
    { destruct (Z.eq_dec (Zpos q) (2 ^ prec)) as [Heq|Hne]; [now right|left].
      assert (Hlt : Zpos q < 2 ^ prec) by lia.
      split; [exact Hlt|]. split; [|intros HEm; specialize (Hnorm HEm); lia].
      pose proof (digits2_le q prec ltac:(lia) Hlt) as Hd2q.
      rewrite fexp_eq.
      destruct (Z_lt_le_dec (d + e - prec) emin) as [Hs|Hs]; [lia|].
      assert (Zpos (digits2_pos q) = prec); [|lia].
      apply digits2_unique. split; [|exact Hlt].
      assert (E = d + e - prec) as HEm by lia. specialize (Hnorm HEm). lia. }
    destruct Hcases as [(Hlt & Hfe & Hlo)|Heq].
    + simpl Zdigits2. rewrite Hfe, shr_nonpos by lia. simpl shr_m.
      destruct (Z.leb_spec E (emax - prec)) as [Hle|Hgt].
      * split; [discriminate|]. split.
        { simpl. unfold bounded, canonical_mantissa.
          rewrite Hfe, Z.eqb_refl. simpl. now apply Z.leb_le. }
        simpl ord. f_equal. rewrite Z.min_l; [reflexivity|].
        assert (2 ^ prec * 2 ^ (E - emin) <= 2 ^ (emax - emin)).
        { rewrite <- pow2_split by lia. apply pow2_le. lia. }
        nia.
      * split; [discriminate|]. split; [reflexivity|].
        simpl ord. f_equal. rewrite Z.min_r; [reflexivity|].
        assert (2 ^ (emax - emin) <= 2 ^ (prec - 1) * 2 ^ (E - emin)).
        { rewrite <- pow2_split by lia. apply pow2_le. lia. }
        assert (E = d + e - prec) as HEm by lia. specialize (Hlo HEm). nia.
    + assert (Hdq : Zpos (digits2_pos q) = prec + 1).
      { apply digits2_unique. rewrite Heq. split.
        - apply pow2_le. lia.
        - apply pow2_lt. lia. }
      assert (Hfe : fexp (Zpos (digits2_pos q) + E) - E = 1).
      { rewrite fexp_eq, Hdq. lia. }
      simpl Zdigits2. rewrite Hfe.
      destruct (shr_exact_spec (Zpos q) E 1) as (He' & Hm2 & _); [lia|lia|].
      destruct (shr (shr_record_of_loc (Z.pos q) loc_Exact) E 1) as [mrs'' e''].
      simpl in He', Hm2. rewrite Hm2, He'.
      assert (Hq2 : Zpos q / 2 ^ 1 = 2 ^ (prec - 1)).
      { rewrite Heq, Hpp. change (2 ^ 1) with 2.
        rewrite Z.mul_comm, Z.div_mul by lia. reflexivity. }
      rewrite Hq2.
      destruct (2 ^ (prec - 1)) as [|h|h] eqn:Hh; [lia| |lia].
      assert (Hdh : Zpos (digits2_pos h) = prec).
      { apply digits2_unique. rewrite <- Hh. split; [lia|]. apply pow2_lt. lia. }
      destruct (Z.leb_spec (E + 1) (emax - prec)) as [Hle|Hgt].
      * split; [discriminate|]. split.
        { simpl. unfold bounded, canonical_mantissa.
          rewrite Hdh, fexp_eq.
          replace (Z.max (prec + (E + 1) - prec) emin) with (E + 1) by lia.
          rewrite Z.eqb_refl. simpl. now apply Z.leb_le. }
        simpl ord. f_equal. rewrite <- Hh, Heq.
        replace (E + 1 - emin) with (1 + (E - emin)) by lia.
        rewrite (pow2_split 1) by lia. change (2 ^ 1) with 2.
        rewrite Z.min_l; [lia|].
        assert (2 ^ prec * 2 ^ (E - emin) <= 2 ^ (emax - emin)); [|lia].
        rewrite <- pow2_split by lia. apply pow2_le. lia.
      * split; [discriminate|]. split; [reflexivity|].
        simpl ord. f_equal. rewrite Heq. rewrite Z.min_r; [reflexivity|].
        rewrite <- pow2_split by lia. apply pow2_le. lia.
Qed.

Lemma ebase_eq : ebase = 2 * emin.
Proof. reflexivity. Qed.

Lemma rexp_eq v : rexp v = Z.max (Z.log2 v + 1 + ebase - prec) emin.
Proof. reflexivity. Qed.

(** The rounding function on integers: range, monotonicity, and exactness
    on the floats of the format. *)
Lemma rexp_mono v v' : v <= v' -> rexp v <= rexp v'.
Proof.
  intros H. rewrite !rexp_eq. pose proof (Z.log2_le_mono v v' H). lia.
Qed.

Lemma rexp_scaled p e :
  ebase <= e -> rexp (Zpos p * 2 ^ (e - ebase)) = fexp (Zpos (digits2_pos p) + e).
Proof.
  intros He. rewrite rexp_eq, fexp_eq, digits2_log2.
  rewrite Z.log2_mul_pow2 by lia. f_equal. lia.
Qed.

Lemma rnd_pos_0 : rnd_pos 0 = 0.
Proof.
  unfold rnd_pos_of. pose proof emin_eq. pose proof ebase_eq.
  assert (Hr : rexp 0 = emin) by (rewrite rexp_eq; simpl Z.log2; lia).
  rewrite Hr. unfold rne_div. rewrite Z.div_0_l, Z.mod_0_l
    by (apply Z.pow_nonzero; lia).
  assert (Hc : (2 * 0 ?= 2 ^ (emin - ebase)) = Lt).
  { apply Z.compare_lt_iff. assert (0 < 2 ^ (emin - ebase)) by (apply pow2_pos; lia). lia. }
  rewrite Hc. apply Z.min_l. simpl. apply Z.lt_le_incl, pow2_pos. lia.
Qed.

Lemma rne_div_nonneg v n : 0 <= v -> 0 <= n -> 0 <= rne_div v n.
Proof.
  intros Hv Hn. pose proof (rne_div_bounds v n Hn).
  assert (0 <= v / 2 ^ n) by (apply Z.div_pos; [lia|apply pow2_pos; lia]). lia.
Qed.

Lemma rnd_pos_range v : 0 <= v -> 0 <= rnd_pos v <= omega.
Proof.
  intros Hv. unfold rnd_pos_of. pose proof emin_eq. pose proof ebase_eq.
  pose proof (rexp_eq v).
  assert (0 < omega) by (apply pow2_pos; lia).
  assert (0 < 2 ^ (rexp v - emin)) by (apply pow2_pos; lia).
  assert (0 <= rne_div v (rexp v - ebase)) by (apply rne_div_nonneg; lia).
  split; [|apply Z.le_min_r]. apply Z.min_glb; nia.
Qed.

Lemma rnd_pos_mono v v' : 0 < v <= v' -> rnd_pos v <= rnd_pos v'.
Proof.
  intros [Hv Hvv]. unfold rnd_pos_of. apply Z.min_le_compat_r.
  pose proof emin_eq as Hemin. pose proof ebase_eq as Hebase.
  pose proof (rexp_mono v v' Hvv) as HE.
  pose proof (rexp_eq v) as HEv. pose proof (rexp_eq v') as HEv'.
  remember (rexp v) as E. remember (rexp v') as E'.
  assert (H2E : 0 < 2 ^ (E - emin)) by (apply pow2_pos; lia).
  assert (H2E' : 0 < 2 ^ (E' - emin)) by (apply pow2_pos; lia).
  destruct (Z.eq_dec E E') as [Heq|Hne].
  - subst E'. rewrite <- Heq.
    apply Z.mul_le_mono_nonneg_r; [lia|]. apply rne_div_mono; lia.
  - assert (HEE : E < E') by lia.
    destruct (Z.log2_spec v Hv) as [_ Hhi].
    destruct (Z.log2_spec v' ltac:(lia)) as [Hlo _].
    pose proof (Z.log2_nonneg v). pose proof (Z.log2_nonneg v').
    assert (Hm : rne_div v (E - ebase) <= 2 ^ prec).
    { pose proof (rne_div_bounds v (E - ebase) ltac:(lia)).
      assert (v / 2 ^ (E - ebase) < 2 ^ prec); [|lia].
      apply div_pow2_upper; try lia.
      eapply Z.lt_le_trans; [exact Hhi|]. apply pow2_le. lia. }
    assert (Hm' : 2 ^ (prec - 1) <= rne_div v' (E' - ebase)).
    { pose proof (rne_div_bounds v' (E' - ebase) ltac:(lia)).
      assert (2 ^ (prec - 1) <= v' / 2 ^ (E' - ebase)); [|lia].
      apply div_pow2_lower; try lia.
      eapply Z.le_trans; [|exact Hlo]. apply pow2_le. lia. }
    assert (Hstep : 2 ^ prec * 2 ^ (E - emin) <= 2 ^ (prec - 1) * 2 ^ (E' - emin)).
    { rewrite <- !pow2_split by lia. apply pow2_le. lia. }
    assert (0 < 2 ^ (prec - 1)) by (apply pow2_pos; lia).
    nia.
Qed.

Lemma rnd_pos_exact m e :
  bounded prec emax m e = true ->
  rnd_pos (Zpos m * 2 ^ (e - ebase)) = Zpos m * 2 ^ (e - emin).
Proof.
  unfold bounded, canonical_mantissa. intros Hb.
  apply andb_true_iff in Hb as [Hc Hle].
  apply Z.eqb_eq in Hc. apply Z.leb_le in Hle.
  pose proof emin_eq as Hemin. pose proof ebase_eq as Hebase.
  pose proof (fexp_eq (Zpos (digits2_pos m) + e)) as Hfe.
  assert (Hee : ebase <= e) by lia.
  unfold rnd_pos_of. rewrite rexp_scaled, Hc by lia.
  rewrite rne_div_exact by lia. apply Z.min_l.
  pose proof (digits2_bounds m) as [_ Hhi].
  assert (2 ^ Zpos (digits2_pos m) <= 2 ^ prec) by (apply pow2_le; lia).
  assert (2 ^ prec * 2 ^ (e - emin) <= omega).
  { rewrite <- pow2_split by lia. apply pow2_le. lia. }
  assert (0 < 2 ^ (e - emin)) by (apply pow2_pos; lia). nia.
Qed.

Lemma rnd_0 : rnd 0 = 0.
Proof. reflexivity. Qed.

Lemma rnd_opp v : rnd (- v) = - rnd v.
Proof. unfold rnd_of. rewrite Z.sgn_opp, Z.abs_opp. lia. Qed.

Lemma rnd_of_pos v : 0 <= v -> rnd v = rnd_pos v.
Proof.
  intros Hv. unfold rnd_of. destruct (Z.eq_dec v 0) as [->|Hne].
  - now rewrite rnd_pos_0.
  - rewrite Z.sgn_pos, Z.abs_eq by lia. lia.
Qed.

Lemma rnd_range v : - omega <= rnd v <= omega.
Proof.
  destruct (Z.le_ge_cases 0 v) as [Hv|Hv].
  - rewrite rnd_of_pos by lia. pose proof (rnd_pos_range v Hv). lia.
  - replace v with (- - v) by lia. rewrite rnd_opp, rnd_of_pos by lia.
    pose proof (rnd_pos_range (- v) ltac:(lia)). lia.
Qed.

Lemma rnd_mono v v' : v <= v' -> rnd v <= rnd v'.
Proof.
  intros Hvv.
  destruct (Z.le_gt_cases 0 v) as [Hv|Hv].
  - rewrite !rnd_of_pos by lia. destruct (Z.eq_dec v 0) as [->|Hne].
    + rewrite rnd_pos_0. apply rnd_pos_range. lia.
    + apply rnd_pos_mono. lia.
  - replace v with (- - v) by lia. rewrite rnd_opp, (rnd_of_pos (- v)) by lia.
    destruct (Z.le_gt_cases 0 v') as [Hv'|Hv'].
    + rewrite rnd_of_pos by lia.
      pose proof (rnd_pos_range (- v) ltac:(lia)).
      pose proof (rnd_pos_range v' Hv'). lia.
    + replace v' with (- - v') by lia. rewrite rnd_opp, (rnd_of_pos (- v')) by lia.
      pose proof (rnd_pos_mono (- v') (- v) ltac:(lia)). lia.
Qed.

Lemma cond_Zopp_rnd s v : 0 <= v -> cond_Zopp s (rnd_pos v) = rnd (cond_Zopp s v).
Proof.
  intros Hv. destruct s; simpl.
  - now rewrite rnd_opp, rnd_of_pos.
  - now rewrite rnd_of_pos.
Qed.

(** The comparison of [SpecFloat] on valid floats is the comparison of
    their integer images. *)
Lemma bounded_facts m e :
  bounded prec emax m e = true ->
  emin <= e <= emax - prec /\
  fexp (Zpos (digits2_pos m) + e) = e /\
  Zpos m < 2 ^ prec /\
  (emin < e -> 2 ^ (prec - 1) <= Zpos m).
Proof.
  unfold bounded, canonical_mantissa. intros Hb.
  apply andb_true_iff in Hb as [Hc Hle].
  apply Z.eqb_eq in Hc. apply Z.leb_le in Hle.
  pose proof emin_eq as Hemin.
  pose proof (fexp_eq (Zpos (digits2_pos m) + e)) as Hfe.
  pose proof (digits2_bounds m) as [Hlo Hhi].
  repeat split; try lia.
  - eapply Z.lt_le_trans; [exact Hhi|]. apply pow2_le. lia.
  - intros He. eapply Z.le_trans; [|exact Hlo]. apply pow2_le. lia.
Qed.

Lemma ord_finite_bound m e :
  bounded prec emax m e = true -> 0 < Zpos m * 2 ^ (e - emin) < omega.
Proof.
  intros Hb. destruct (bounded_facts m e Hb) as (He & _ & Hm & _).
  pose proof emin_eq as Hemin.
  assert (0 < 2 ^ (e - emin)) by (apply pow2_pos; lia).
  assert (2 ^ prec * 2 ^ (e - emin) <= omega).
  { rewrite <- pow2_split by lia. apply pow2_le. lia. }
  split; nia.
Qed.

Lemma canonical_exp_lt m1 e1 m2 e2 :
  bounded prec emax m1 e1 = true -> bounded prec emax m2 e2 = true ->
  e1 < e2 -> Zpos m1 * 2 ^ (e1 - emin) < Zpos m2 * 2 ^ (e2 - emin).
Proof.
  intros H1 H2 Hlt.
  destruct (bounded_facts m1 e1 H1) as (He1 & _ & Hm1 & _).
  destruct (bounded_facts m2 e2 H2) as (He2 & _ & _ & Hm2).
  specialize (Hm2 ltac:(lia)).
  assert (0 < 2 ^ (e1 - emin)) by (apply pow2_pos; lia).
  assert (0 < 2 ^ (e2 - emin)) by (apply pow2_pos; lia).
  assert (2 ^ prec * 2 ^ (e1 - emin) <= 2 ^ (prec - 1) * 2 ^ (e2 - emin)).
  { rewrite <- !pow2_split by lia. apply pow2_le. lia. }
  nia.
Qed.

Lemma compare_finite_pos m1 e1 m2 e2 :
  bounded prec emax m1 e1 = true -> bounded prec emax m2 e2 = true ->
  match e1 ?= e2 with
  | Lt => Lt
  | Gt => Gt
  | Eq => Pos.compare_cont Eq m1 m2
  end = (Zpos m1 * 2 ^ (e1 - emin) ?= Zpos m2 * 2 ^ (e2 - emin)).
Proof.
  intros H1 H2. destruct (Z.compare_spec e1 e2) as [Heq|Hlt|Hgt].
  - subst e2. destruct (bounded_facts m1 e1 H1) as (He1 & _).
    rewrite <- Zmult_compare_compat_r by (apply Z.lt_gt, pow2_pos; lia).
    reflexivity.
  - symmetry. apply Z.compare_lt_iff. now apply canonical_exp_lt.
  - symmetry. apply Z.compare_gt_iff. now apply canonical_exp_lt.
Qed.

Lemma SFcompare_ord x y :
  valid x = true -> valid y = true ->
  sf_is_nan x = false -> sf_is_nan y = false ->
  SFcompare x y = Some (ord x ?= ord y).
Proof.
  intros Hx Hy Nx Ny.
  assert (Hom : 0 < omega).
  { apply pow2_pos. pose proof emin_eq. lia. }
  destruct x as [sx|sx| |sx mx ex], y as [sy|sy| |sy my ey];
    try discriminate; simpl in Hx, Hy; simpl SFcompare; simpl ord_of;
    try pose proof (ord_finite_bound mx ex Hx) as Bx;
    try pose proof (ord_finite_bound my ey Hy) as By;
    f_equal; symmetry;
    try (destruct sx); try (destruct sy); simpl cond_Zopp;
    try first [ reflexivity
              | apply Z.compare_lt_iff; lia
              | apply Z.compare_gt_iff; lia
              | apply Z.compare_eq_iff; lia ].
  - destruct (Z.compare_spec ex ey) as [Heq|Hlt|Hgt].
    + subst ey. rewrite Z.compare_opp.
      rewrite <- Zmult_compare_compat_r by lia.
      apply (Pos.compare_antisym mx my).
    + apply Z.compare_gt_iff.
      pose proof (canonical_exp_lt mx ex my ey Hx Hy Hlt). lia.
    + apply Z.compare_lt_iff.
      pose proof (canonical_exp_lt my ey mx ex Hy Hx Hgt). lia.
  - now rewrite (compare_finite_pos mx ex my ey Hx Hy).
Qed.

Lemma SFleb_ord x y :
  valid x = true -> valid y = true ->
  sf_is_nan x = false -> sf_is_nan y = false ->
  SFleb x y = (ord x <=? ord y).
Proof.
  intros. unfold SFleb. rewrite SFcompare_ord by assumption.
  unfold Z.leb. now destruct (ord x ?= ord y).
Qed.

Lemma SFltb_ord x y :
  valid x = true -> valid y = true ->
  sf_is_nan x = false -> sf_is_nan y = false ->
  SFltb x y = (ord x <? ord y).
Proof.
  intros. unfold SFltb. rewrite SFcompare_ord by assumption.
  unfold Z.ltb. now destruct (ord x ?= ord y).
Qed.

Lemma SFleb_nan_l x : SFleb S754_nan x = false.
Proof. reflexivity. Qed.

Lemma SFleb_nan_r x : SFleb x S754_nan = false.
Proof. now destruct x. Qed.

Lemma SFltb_nan_l x : SFltb S754_nan x = false.
Proof. reflexivity. Qed.

Lemma SFltb_nan_r x : SFltb x S754_nan = false.
Proof. now destruct x. Qed.

Lemma ord_range x : valid x = true -> - omega <= ord x <= omega.
Proof.
  intros Hx.
  assert (Hom : 0 < omega).
  { apply pow2_pos. pose proof emin_eq. lia. }
  destruct x as [sx|sx| |sx mx ex]; simpl in *; try lia.
  - destruct sx; simpl; lia.
  - pose proof (ord_finite_bound mx ex Hx). destruct sx; simpl; lia.
Qed.

Lemma ord_finite_range x :
  valid x = true -> sf_is_finite x = true -> - omega < ord x < omega.
Proof.
  intros Hx Fx.
  assert (Hom : 0 < omega).
  { apply pow2_pos. pose proof emin_eq. lia. }
  destruct x as [sx|sx| |sx mx ex]; simpl in *; try discriminate; try lia.
  pose proof (ord_finite_bound mx ex Hx). destruct sx; simpl; lia.
Qed.

(** Products and sums of finite floats: the image of the result is the
    rounding of the exact product or sum. *)
Lemma binary_round_aux_ord s p e :
  ebase <= e -> e <= fexp (Zpos (digits2_pos p) + e) ->
  sf_is_nan (binary_round_aux prec emax s (Zpos p) e loc_Exact) = false /\
  valid (binary_round_aux prec emax s (Zpos p) e loc_Exact) = true /\
  ord (binary_round_aux prec emax s (Zpos p) e loc_Exact)
  = rnd (cond_Zopp s (Zpos p * 2 ^ (e - ebase))).
Proof.
  intros Hb Hpre.
  destruct (binary_round_aux_spec s p e Hpre) as (Hn & Hv & Ho).
  split; [now destruct (binary_round_aux _ _ _ _ _ _)|]. split; [exact Hv|].
  rewrite Ho.
  assert (0 < 2 ^ (e - ebase)) by (apply pow2_pos; lia).
  rewrite <- cond_Zopp_rnd by (try assumption; lia). f_equal.
  unfold rnd_pos_of. rewrite rexp_scaled by lia.
  replace (fexp (Zpos (digits2_pos p) + e) - ebase)
    with ((fexp (Zpos (digits2_pos p) + e) - e) + (e - ebase)) by lia.
  rewrite rne_div_scale by lia. reflexivity.
Qed.

Lemma digits2_mul_lower mx my :
  Zpos (digits2_pos mx) + Zpos (digits2_pos my) - 1
  <= Zpos (digits2_pos (mx * my)).
Proof.
  pose proof (digits2_bounds mx) as [Hx _].
  pose proof (digits2_bounds my) as [Hy _].
  pose proof (digits2_bounds (mx * my)) as [_ Hxy].
  rewrite Pos2Z.inj_mul in Hxy.
  assert (2 ^ (Zpos (digits2_pos mx) - 1 + (Zpos (digits2_pos my) - 1))
          < 2 ^ Zpos (digits2_pos (mx * my))).
  { rewrite pow2_split by lia.
    assert (0 < 2 ^ (Zpos (digits2_pos mx) - 1)) by (apply pow2_pos; lia).
    assert (0 < 2 ^ (Zpos (digits2_pos my) - 1)) by (apply pow2_pos; lia).
    nia. }
  apply pow2_lt_inv in H; lia.
Qed.

Lemma cond_Zopp_mul sx sy a b :
  cond_Zopp sx a * cond_Zopp sy b = cond_Zopp (xorb sx sy) (a * b).
Proof. destruct sx, sy; simpl; lia. Qed.

Lemma SFmul_ord x y :
  valid x = true -> valid y = true ->
  sf_is_finite x = true -> sf_is_finite y = true ->
  sf_is_nan (SFmul prec emax x y) = false /\
  valid (SFmul prec emax x y) = true /\
  ord (SFmul prec emax x y) = rnd (ord x * ord y).
Proof.
  intros Hx Hy Fx Fy.
  destruct x as [sx|sx| |sx mx ex], y as [sy|sy| |sy my ey]; try discriminate;
    simpl SFmul; simpl ord_of; rewrite ?Z.mul_0_l, ?Z.mul_0_r;
    try (repeat split; reflexivity).
  simpl in Hx, Hy.
  destruct (bounded_facts mx ex Hx) as (Hex & Hcx & Hmx & Hnx).
  destruct (bounded_facts my ey Hy) as (Hey & Hcy & Hmy & Hny).
  pose proof emin_eq as Hemin. pose proof ebase_eq as Hebase.
  pose proof (digits2_mul_lower mx my) as Hd.
  pose proof (fexp_eq (Zpos (digits2_pos mx) + ex)) as Hfx.
  pose proof (fexp_eq (Zpos (digits2_pos my) + ey)) as Hfy.
  pose proof (fexp_eq (Zpos (digits2_pos (mx * my)) + (ex + ey))) as Hfxy.
  destruct (binary_round_aux_ord (xorb sx sy) (mx * my) (ex + ey)) as (Hn & Hv & Ho); [lia|lia|].
  split; [exact Hn|]. split; [exact Hv|]. rewrite Ho. f_equal.
  rewrite cond_Zopp_mul. f_equal. rewrite Pos2Z.inj_mul.
  replace (ex + ey - ebase) with ((ex - emin) + (ey - emin)) by lia.
  rewrite pow2_split by lia. lia.
Qed.

Lemma iter_xO_spec m d : Zpos (Pos.iter xO m d) = Zpos m * 2 ^ Zpos d.
Proof.
  induction d as [|d IH] using Pos.peano_ind.
  - simpl. lia.
  - rewrite Pos.iter_succ, Pos2Z.inj_xO, IH, Pos2Z.inj_succ.
    rewrite Z.pow_succ_r by lia. lia.
Qed.

Lemma shl_align_spec m e e' :
  snd (shl_align m e e') = Z.min e e' /\
  Zpos (fst (shl_align m e e')) = Zpos m * 2 ^ (e - Z.min e e') /\
  Zpos (digits2_pos (fst (shl_align m e e'))) + Z.min e e'
  = Zpos (digits2_pos m) + e.
Proof.
  unfold shl_align. destruct (e' - e) as [|d|d] eqn:Hd; simpl fst; simpl snd.
  - replace (Z.min e e') with e by lia. rewrite Z.sub_diag. simpl. lia.
  - replace (Z.min e e') with e by lia. rewrite Z.sub_diag. simpl. lia.
  - replace (Z.min e e') with e' by lia.
    replace (e - e') with (Zpos d) by lia.
    split; [reflexivity|]. split; [apply iter_xO_spec|].
    assert (Zpos (digits2_pos (Pos.iter xO m d)) = Zpos (digits2_pos m) + Zpos d); [|lia].
    apply digits2_unique. rewrite iter_xO_spec.
    pose proof (digits2_bounds m) as [Hlo Hhi].
    assert (0 < 2 ^ Zpos d) by (apply pow2_pos; lia).
    replace (Zpos (digits2_pos m) + Zpos d - 1)
      with ((Zpos (digits2_pos m) - 1) + Zpos d) by lia.
    rewrite !pow2_split by lia. nia.
Qed.

Lemma binary_round_ord s m e :
  ebase <= e ->
  sf_is_nan (binary_round prec emax s m e) = false /\
  valid (binary_round prec emax s m e) = true /\
  ord (binary_round prec emax s m e) = rnd (cond_Zopp s (Zpos m * 2 ^ (e - ebase))).
Proof.
  intros He. unfold binary_round.
  pose proof emin_eq as Hemin. pose proof ebase_eq as Hebase.
  pose proof (fexp_eq (Zpos (digits2_pos m) + e)) as Hf.
  destruct (shl_align_spec m e (fexp (Zpos (digits2_pos m) + e))) as (H1 & H2 & H3).
  destruct (shl_align m e (fexp (Zpos (digits2_pos m) + e))) as [mz ez].
  simpl in H1, H2, H3.
  destruct (binary_round_aux_ord s mz ez) as (Hn & Hv & Ho).
  - lia.
  - replace (Zpos (digits2_pos mz) + ez) with (Zpos (digits2_pos m) + e) by lia. lia.
  - split; [exact Hn|]. split; [exact Hv|]. rewrite Ho. do 2 f_equal.
    rewrite H2, <- H1, <- Z.mul_assoc, <- pow2_split by lia. do 2 f_equal. lia.
Qed.

Lemma binary_normalize_ord n e sz :
  ebase <= e ->
  sf_is_nan (binary_normalize prec emax n e sz) = false /\
  valid (binary_normalize prec emax n e sz) = true /\
  ord (binary_normalize prec emax n e sz) = rnd (n * 2 ^ (e - ebase)).
Proof.
  intros He. destruct n as [|p|p]; simpl binary_normalize.
  - repeat split.
  - apply (binary_round_ord false p e He).
  - destruct (binary_round_ord true p e He) as (Hn & Hv & Ho).
    split; [exact Hn|]. split; [exact Hv|]. rewrite Ho. f_equal. simpl. lia.
Qed.

Lemma ord_scale_exact x :
  valid x = true -> sf_is_finite x = true ->
  rnd (ord x * 2 ^ (emin - ebase)) = ord x.
Proof.
  intros Hx Fx. destruct x as [sx|sx| |sx mx ex]; try discriminate; simpl ord_of.
  - reflexivity.
  - simpl in Hx.
    destruct (bounded_facts mx ex Hx) as (Hex & _).
    pose proof emin_eq as Hemin. pose proof ebase_eq as Hebase.
    assert (Hs : cond_Zopp sx (Zpos mx * 2 ^ (ex - emin)) * 2 ^ (emin - ebase)
                 = cond_Zopp sx (Zpos mx * 2 ^ (ex - ebase))).
    { replace (ex - ebase) with ((ex - emin) + (emin - ebase)) by lia.
      rewrite pow2_split by lia. destruct sx; simpl; lia. }
    rewrite Hs.
    assert (0 < 2 ^ (ex - ebase)) by (apply pow2_pos; lia).
    rewrite <- cond_Zopp_rnd by (try assumption; lia).
    now rewrite rnd_pos_exact.
Qed.

Lemma SFadd_ord x y :
  valid x = true -> valid y = true ->
  sf_is_finite x = true -> sf_is_finite y = true ->
  sf_is_nan (SFadd prec emax x y) = false /\
  valid (SFadd prec emax x y) = true /\
  ord (SFadd prec emax x y) = rnd ((ord x + ord y) * 2 ^ (emin - ebase)).
Proof.
  intros Hx Hy Fx Fy.
  destruct x as [sx|sx| |sx mx ex], y as [sy|sy| |sy my ey]; try discriminate.
  - destruct sx, sy; repeat split.
  - simpl SFadd. split; [reflexivity|]. split; [exact Hy|].
    change (ord (S754_zero sx)) with 0. rewrite Z.add_0_l.
    symmetry. now apply ord_scale_exact.
  - simpl SFadd. split; [reflexivity|]. split; [exact Hx|].
    change (ord (S754_zero sy)) with 0. rewrite Z.add_0_r.
    symmetry. now apply ord_scale_exact.
  - simpl in Hx, Hy.
    destruct (bounded_facts mx ex Hx) as (Hex & _).
    destruct (bounded_facts my ey Hy) as (Hey & _).
    pose proof emin_eq as Hemin. pose proof ebase_eq as Hebase.
    cbn [SFadd].
    destruct (shl_align_spec mx ex (Z.min ex ey)) as (_ & Hax & _).
    destruct (shl_align_spec my ey (Z.min ex ey)) as (_ & Hay & _).
    rewrite Hax, Hay.
    replace (Z.min ex (Z.min ex ey)) with (Z.min ex ey) by lia.
    replace (Z.min ey (Z.min ex ey)) with (Z.min ex ey) by lia.
    destruct (binary_normalize_ord
                (cond_Zopp sx (Zpos mx * 2 ^ (ex - Z.min ex ey))
                 + cond_Zopp sy (Zpos my * 2 ^ (ey - Z.min ex ey)))
                (Z.min ex ey) false) as (Hn & Hv & Ho); [lia|].
    split; [exact Hn|]. split; [exact Hv|]. rewrite Ho. f_equal. simpl ord_of.
    replace (ex - emin) with ((ex - Z.min ex ey) + (Z.min ex ey - emin)) by lia.
    replace (ey - emin) with ((ey - Z.min ex ey) + (Z.min ex ey - emin)) by lia.
    replace (Z.min ex ey - ebase)
      with ((Z.min ex ey - emin) + (emin - ebase)) by lia.
    rewrite !pow2_split by lia. destruct sx, sy; simpl; lia.
Qed.

(** Monotonicity of the operations, infinities included. *)
Lemma omega_pos : 0 < omega.
Proof. apply pow2_pos. pose proof emin_eq. lia. Qed.

Lemma ord_infinite x :
  sf_is_nan x = false -> sf_is_finite x = false ->
  (x = S754_infinity false /\ ord x = omega) \/
  (x = S754_infinity true /\ ord x = - omega).
Proof.
  destruct x as [s|[|]| |s m e]; try discriminate; intros _ _; [right|left]; easy.
Qed.

Lemma SFadd_valid x y :
  valid x = true -> valid y = true -> valid (SFadd prec emax x y) = true.
Proof.
  intros Hx Hy.
  destruct (sf_is_finite x) eqn:Fx, (sf_is_finite y) eqn:Fy;
    [now apply SFadd_ord|..];
    destruct x as [sx|[|]| |sx mx ex], y as [sy|[|]| |sy my ey];
    try discriminate; try reflexivity; assumption.
Qed.

Lemma SFmul_valid x y :
  valid x = true -> valid y = true -> valid (SFmul prec emax x y) = true.
Proof.
  intros Hx Hy.
  destruct (sf_is_finite x) eqn:Fx, (sf_is_finite y) eqn:Fy;
    [now apply SFmul_ord|..];
    destruct x as [sx|[|]| |sx mx ex], y as [sy|[|]| |sy my ey];
    try discriminate; try reflexivity; assumption.
Qed.

Lemma SFadd_comm x y : SFadd prec emax x y = SFadd prec emax y x.
Proof.
  destruct x as [[|]|[|]| |sx mx ex], y as [[|]|[|]| |sy my ey]; try reflexivity.
  cbn [SFadd]. rewrite (Z.min_comm ey ex). f_equal. apply Z.add_comm.
Qed.

Lemma SFmul_comm x y : SFmul prec emax x y = SFmul prec emax y x.
Proof.
  destruct x as [[|]|[|]| |[|] mx ex], y as [[|]|[|]| |[|] my ey]; try reflexivity;
    cbn [SFmul xorb]; now rewrite (Pos.mul_comm my mx), (Z.add_comm ey ex).
Qed.

Lemma ord_add_fin x z :
  valid x = true -> valid z = true ->
  sf_is_nan x = false -> sf_is_finite z = true ->
  sf_is_nan (SFadd prec emax x z) = false /\
  ord (SFadd prec emax x z)
  = if sf_is_finite x then rnd ((ord x + ord z) * 2 ^ (emin - ebase)) else ord x.
Proof.
  intros Hx Hz Nx Fz. destruct (sf_is_finite x) eqn:Fx.
  - destruct (SFadd_ord x z Hx Hz Fx Fz) as (H1 & _ & H3). now split.
  - destruct x as [sx|[|]| |sx mx ex], z as [sz|[|]| |sz mz ez];
      try discriminate; now split.
Qed.

Lemma ord_mul_fin x c :
  valid x = true -> valid c = true ->
  sf_is_nan x = false -> sf_is_finite c = true -> 0 < ord c ->
  sf_is_nan (SFmul prec emax x c) = false /\
  ord (SFmul prec emax x c)
  = if sf_is_finite x then rnd (ord x * ord c) else ord x.
Proof.
  intros Hx Hc Nx Fc Pc. destruct (sf_is_finite x) eqn:Fx.
  - destruct (SFmul_ord x c Hx Hc Fx Fc) as (H1 & _ & H3). now split.
  - destruct c as [sc|sc| |sc mc ec]; try discriminate.
    destruct sc.
    { simpl in Pc, Hc. pose proof (ord_finite_bound mc ec Hc). lia. }
    destruct x as [sx|[|]| |sx mx ex]; try discriminate; now split.
Qed.

Lemma mono_skeleton (F : Z -> Z) a b oa ob :
  (forall u v, u <= v -> F u <= F v) ->
  valid a = true -> valid b = true ->
  sf_is_nan a = false -> sf_is_nan b = false ->
  oa = (if sf_is_finite a then rnd (F (ord a)) else ord a) ->
  ob = (if sf_is_finite b then rnd (F (ord b)) else ord b) ->
  ord a <= ord b -> oa <= ob.
Proof.
  intros HF Ha Hb Na Nb -> -> Hab. pose proof omega_pos as Hom.
  destruct (sf_is_finite a) eqn:Fa, (sf_is_finite b) eqn:Fb.
  - apply rnd_mono, HF, Hab.
  - pose proof (ord_finite_range a Ha Fa).
    destruct (ord_infinite b Nb Fb) as [[_ ->]|[_ Hob]]; [|lia].
    apply rnd_range.
  - pose proof (ord_finite_range b Hb Fb).
    destruct (ord_infinite a Na Fa) as [[_ Hoa]|[_ ->]]; [lia|].
    apply rnd_range.
  - exact Hab.
Qed.

Lemma SFadd_le_mono a b z :
  valid a = true -> valid b = true -> valid z = true ->
  sf_is_nan a = false -> sf_is_nan b = false -> sf_is_finite z = true ->
  ord a <= ord b ->
  sf_is_nan (SFadd prec emax a z) = false /\
  sf_is_nan (SFadd prec emax b z) = false /\
  ord (SFadd prec emax a z) <= ord (SFadd prec emax b z).
Proof.
  intros Ha Hb Hz Na Nb Fz Hab.
  destruct (ord_add_fin a z Ha Hz Na Fz) as [Hna Hoa].
  destruct (ord_add_fin b z Hb Hz Nb Fz) as [Hnb Hob].
  split; [exact Hna|]. split; [exact Hnb|].
  apply (mono_skeleton (fun u => (u + ord z) * 2 ^ (emin - ebase)) a b); auto.
  intros u v Huv. apply Z.mul_le_mono_nonneg_r; [|lia].
  apply Z.lt_le_incl, pow2_pos. pose proof emin_eq. pose proof ebase_eq. lia.
Qed.

Lemma SFmul_le_mono a b c :
  valid a = true -> valid b = true -> valid c = true ->
  sf_is_nan a = false -> sf_is_nan b = false ->
  sf_is_finite c = true -> 0 < ord c ->
  ord a <= ord b ->
  sf_is_nan (SFmul prec emax a c) = false /\
  sf_is_nan (SFmul prec emax b c) = false /\
  ord (SFmul prec emax a c) <= ord (SFmul prec emax b c).
Proof.
  intros Ha Hb Hc Na Nb Fc Pc Hab.
  destruct (ord_mul_fin a c Ha Hc Na Fc Pc) as [Hna Hoa].
  destruct (ord_mul_fin b c Hb Hc Nb Fc Pc) as [Hnb Hob].
  split; [exact Hna|]. split; [exact Hnb|].
  apply (mono_skeleton (fun u => u * ord c) a b); auto.
  intros u v Huv. apply Z.mul_le_mono_nonneg_r; lia.
Qed.

(** The weak order is preserved by a sum with any float and by a product
    with a positive finite float. *)
Lemma sf_wle_of_le a b :
  sf_is_nan a = false -> sf_is_nan b = false -> ord a <= ord b -> sf_wle a b.
Proof. intros; left; auto. Qed.

Lemma positive_finite c :
  valid c = true -> sf_is_finite c = true -> 0 < ord c ->
  exists m e, c = S754_finite false m e.
Proof.
  intros Hc Fc Pc. destruct c as [sc|sc| |[|] mc ec]; try discriminate.
  - simpl in Pc, Hc. pose proof (ord_finite_bound mc ec Hc). lia.
  - now exists mc, ec.
Qed.

Lemma SFmul_wle a b c :
  valid a = true -> valid b = true -> valid c = true ->
  sf_is_finite c = true -> 0 < ord c ->
  sf_wle a b -> sf_wle (SFmul prec emax a c) (SFmul prec emax b c).
Proof.
  intros Ha Hb Hc Fc Pc [(Na & Nb & Hab)|[Nb|(Na & ->)]].
  - destruct (SFmul_le_mono a b c) as (H1 & H2 & H3); auto. now left.
  - right; left. destruct b; try discriminate. reflexivity.
  - destruct (positive_finite c Hc Fc Pc) as (m & e & ->).
    right; right. destruct a; try discriminate. now split.
Qed.

Lemma SFadd_wle a b z :
  valid a = true -> valid b = true -> valid z = true ->
  sf_wle a b -> sf_wle (SFadd prec emax a z) (SFadd prec emax b z).
Proof.
  intros Ha Hb Hz [(Na & Nb & Hab)|[Nb|(Na & ->)]].
  - destruct (sf_is_finite z) eqn:Fz.
    { destruct (SFadd_le_mono a b z) as (H1 & H2 & H3); auto. now left. }
    pose proof omega_pos as Hom.
    pose proof (ord_finite_range a Ha) as Ra.
    pose proof (ord_finite_range b Hb) as Rb.
    destruct z as [sz|[|]| |sz mz ez]; try discriminate;
      destruct a as [sa|[|]| |sa ma ea]; try discriminate;
      destruct b as [sb|[|]| |sb mb eb]; try discriminate;
      cbn [SFadd];
      try (right; left; reflexivity);
      try (right; right; split; reflexivity);
      try (left; repeat split; simpl; lia);
      exfalso; simpl in Hab;
      try specialize (Ra eq_refl); try specialize (Rb eq_refl);
      simpl in *; lia.
  - right; left. destruct b; try discriminate. reflexivity.
  - destruct a; try discriminate.
    destruct z as [sz|[|]| |sz mz ez]; cbn [SFadd];
      try (right; left; reflexivity); right; right; now split.
Qed.

Lemma sf_wle_ltb a b :
  valid a = true -> valid b = true -> sf_wle a b -> SFltb b a = false.
Proof.
  intros Ha Hb [(Na & Nb & Hab)|[Nb|(Na & _)]].
  - rewrite SFltb_ord by assumption. apply Z.ltb_ge. exact Hab.
  - destruct b; try discriminate. reflexivity.
  - destruct a; try discriminate. apply SFltb_nan_r.
Qed.

Lemma sf_wle_leb a b :
  valid a = true -> valid b = true ->
  sf_is_nan a = false -> sf_is_nan b = false ->
  sf_wle a b -> SFleb a b = true.
Proof.
  intros Ha Hb Na Nb [(_ & _ & Hab)|[Nb'|(Na' & _)]]; try congruence.
  rewrite SFleb_ord by assumption. now apply Z.leb_le.
Qed.

Lemma sf_wle_below a b t :
  valid a = true -> valid b = true -> valid t = true ->
  sf_is_finite t = true ->
  sf_wle a b -> SFleb b t = true -> SFleb a t = true.
Proof.
  intros Ha Hb Ht Ft [(Na & Nb & Hab)|[Nb|(Na & ->)]] Hbt.
  - assert (Nt : sf_is_nan t = false) by (now destruct t).
    rewrite SFleb_ord in * by assumption.
    apply Z.leb_le in Hbt. apply Z.leb_le. lia.
  - destruct b; discriminate.
  - destruct t; discriminate.
Qed.

Lemma SFleb_true_nonnan a b :
  SFleb a b = true -> sf_is_nan a = false /\ sf_is_nan b = false.
Proof. destruct a, b; try discriminate; now split. Qed.

Lemma SFleb_wle a b :
  valid a = true -> valid b = true -> SFleb a b = true -> sf_wle a b.
Proof.
  intros Ha Hb Hab. destruct (SFleb_true_nonnan a b Hab) as [Na Nb].
  left. repeat split; auto.
  rewrite SFleb_ord in Hab by assumption. now apply Z.leb_le.
Qed.

Lemma SFleb_trans a b c :
  valid a = true -> valid b = true -> valid c = true ->
  SFleb a b = true -> SFleb b c = true -> SFleb a c = true.
Proof.
  intros Ha Hb Hc Hab Hbc.
  destruct (SFleb_true_nonnan a b Hab) as [Na Nb].
  destruct (SFleb_true_nonnan b c Hbc) as [_ Nc].
  rewrite SFleb_ord in * by assumption.
  apply Z.leb_le in Hab, Hbc. apply Z.leb_le. lia.
Qed.

Lemma SFleb_between_finite lo x hi :
  valid lo = true -> valid x = true -> valid hi = true ->
  sf_is_finite lo = true -> sf_is_finite hi = true ->
  SFleb lo x = true -> SFleb x hi = true -> sf_is_finite x = true.
Proof.
  intros Hlo Hx Hhi Flo Fhi H1 H2.
  destruct (SFleb_true_nonnan lo x H1) as [Nlo Nx].
  destruct (SFleb_true_nonnan x hi H2) as [_ Nhi].
  rewrite SFleb_ord in * by assumption.
  apply Z.leb_le in H1, H2.
  pose proof (ord_finite_range lo Hlo Flo). pose proof (ord_finite_range hi Hhi Fhi).
  destruct (sf_is_finite x) eqn:Fx; [reflexivity|].
  destruct (ord_infinite x Nx Fx) as [[_ Ho]|[_ Ho]]; lia.
Qed.
End Binary.

(** ** Binary64: the order of JavaScript numbers *)

Section Binary64.
Local Open Scope float_scope.

Lemma prec_pos : (0 < prec)%Z.
Proof. reflexivity. Qed.

Lemma prec_lt_emax : (prec < emax)%Z.
Proof. reflexivity. Qed.

Lemma Prim2SF_zero : Prim2SF 0 = S754_zero false.
Proof. reflexivity. Qed.

Lemma SFeqb_refl x : sf_is_nan x = false -> SFeqb x x = true.
Proof.
  destruct x as [s|[|]| |[|] m e]; try discriminate; intros _; try reflexivity;
    unfold SFeqb; simpl; rewrite Z.compare_refl;
    change (Pos.compare_cont Eq m m) with (m ?= m)%positive;
    now rewrite Pos.compare_refl.
Qed.

Lemma is_nan_spec x : is_nan x = sf_is_nan (Prim2SF x).
Proof.
  unfold is_nan. rewrite FloatAxioms.eqb_spec.
  destruct (sf_is_nan (Prim2SF x)) eqn:Hn.
  - destruct (Prim2SF x); try discriminate. reflexivity.
  - now rewrite SFeqb_refl.
Qed.

Lemma leb_nonnan a b : (a <=? b) = true -> is_nan a = false /\ is_nan b = false.
Proof.
  intros H. rewrite FloatAxioms.leb_spec in H. rewrite !is_nan_spec.
  now apply SFleb_true_nonnan.
Qed.

Lemma leb_trans a b c :
  (a <=? b) = true -> (b <=? c) = true -> (a <=? c) = true.
Proof.
  intros H1 H2. rewrite FloatAxioms.leb_spec in *.
  apply (SFleb_trans prec emax prec_pos prec_lt_emax) with (Prim2SF b);
    try apply Prim2SF_valid; assumption.
Qed.

Lemma mul_comm a b : a * b = b * a.
Proof. apply Prim2SF_inj. rewrite !FloatAxioms.mul_spec. apply SFmul_comm. Qed.

Lemma add_comm a b : a + b = b + a.
Proof. apply Prim2SF_inj. rewrite !FloatAxioms.add_spec. apply SFadd_comm. Qed.

Lemma positive_ord c : (0 <? c) = true -> (0 < ord_of prec emax (Prim2SF c))%Z.
Proof.
  intros H. rewrite FloatAxioms.ltb_spec in H.
  assert (Hn : sf_is_nan (Prim2SF c) = false).
  { destruct (Prim2SF c); try reflexivity. now rewrite SFltb_nan_r in H. }
  rewrite (SFltb_ord prec emax prec_pos prec_lt_emax) in H;
    try apply Prim2SF_valid; try assumption; try reflexivity.
  apply Z.ltb_lt in H. exact H.
Qed.

Lemma num_wle_of_leb a b : (a <=? b) = true -> num_wle a b.
Proof.
  intros H. rewrite FloatAxioms.leb_spec in H.
  apply (SFleb_wle prec emax prec_pos prec_lt_emax);
    try apply Prim2SF_valid; assumption.
Qed.

Lemma num_wle_refl a : num_wle a a.
Proof.
  unfold num_wle, sf_wle_of. destruct (sf_is_nan (Prim2SF a)) eqn:Hn.
  - right; now left.
  - left. repeat split; auto. lia.
Qed.

Lemma num_wle_mul a b c :
  num_finite c = true -> (0 <? c) = true ->
  num_wle a b -> num_wle (a * c) (b * c).
Proof.
  intros Fc Pc H. unfold num_wle. rewrite !FloatAxioms.mul_spec.
  apply (SFmul_wle prec emax prec_pos prec_lt_emax);
    try apply Prim2SF_valid; try assumption.
  now apply positive_ord.
Qed.

Lemma num_wle_add_r a b z : num_wle a b -> num_wle (a + z) (b + z).
Proof.
  intros H. unfold num_wle. rewrite !FloatAxioms.add_spec.
  apply (SFadd_wle prec emax prec_pos prec_lt_emax);
    try apply Prim2SF_valid; assumption.
Qed.

Lemma num_wle_add_l a b z : num_wle a b -> num_wle (z + a) (z + b).
Proof. rewrite !(add_comm z). apply num_wle_add_r. Qed.

Lemma num_wle_ltb a b : num_wle a b -> (b <? a) = false.
Proof.
  intros H. rewrite FloatAxioms.ltb_spec.
  apply (sf_wle_ltb prec emax prec_pos prec_lt_emax);
    try apply Prim2SF_valid; assumption.
Qed.

Lemma num_wle_leb a b :
  num_wle a b -> is_nan a = false -> is_nan b = false -> (a <=? b) = true.
Proof.
  intros H Na Nb. rewrite is_nan_spec in Na, Nb. rewrite FloatAxioms.leb_spec.
  apply (sf_wle_leb prec emax prec_pos prec_lt_emax);
    try apply Prim2SF_valid; assumption.
Qed.

Lemma num_wle_below a b t :
  num_finite t = true -> num_wle a b -> (b <=? t) = true -> (a <=? t) = true.
Proof.
  intros Ft H Hb. rewrite FloatAxioms.leb_spec in *.
  apply (sf_wle_below prec emax prec_pos prec_lt_emax) with (Prim2SF b);
    try apply Prim2SF_valid; assumption.
Qed.

Lemma between_finite lo x hi :
  num_finite lo = true -> num_finite hi = true ->
  (lo <=? x) = true -> (x <=? hi) = true -> num_finite x = true.
Proof.
  intros Flo Fhi H1 H2. rewrite FloatAxioms.leb_spec in *.
  apply (SFleb_between_finite prec emax prec_pos prec_lt_emax)
    with (Prim2SF lo) (Prim2SF hi); try apply Prim2SF_valid; assumption.
Qed.

Lemma mul_le_mono a b c :
  num_finite c = true -> (0 <? c) = true ->
  (a <=? b) = true -> (a * c <=? b * c) = true.
Proof.
  intros Fc Pc H. destruct (leb_nonnan a b H) as [Na Nb].
  rewrite is_nan_spec in Na, Nb. rewrite FloatAxioms.leb_spec in *.
  rewrite (SFleb_ord prec emax prec_pos prec_lt_emax) in H;
    try apply Prim2SF_valid; try assumption.
  apply Z.leb_le in H.
  destruct (SFmul_le_mono prec emax prec_pos prec_lt_emax
              (Prim2SF a) (Prim2SF b) (Prim2SF c)) as (H1 & H2 & H3);
    try apply Prim2SF_valid; try assumption; [now apply positive_ord|].
  rewrite !FloatAxioms.mul_spec in *.
  rewrite (SFleb_ord prec emax prec_pos prec_lt_emax);
    try assumption; try (rewrite <- FloatAxioms.mul_spec; apply Prim2SF_valid).
  now apply Z.leb_le.
Qed.

Lemma add_le_mono_r a b z :
  num_finite z = true -> (a <=? b) = true -> (a + z <=? b + z) = true.
Proof.
  intros Fz H. destruct (leb_nonnan a b H) as [Na Nb].
  rewrite is_nan_spec in Na, Nb. rewrite FloatAxioms.leb_spec in *.
  rewrite (SFleb_ord prec emax prec_pos prec_lt_emax) in H;
    try apply Prim2SF_valid; try assumption.
  apply Z.leb_le in H.
  destruct (SFadd_le_mono prec emax prec_pos prec_lt_emax
              (Prim2SF a) (Prim2SF b) (Prim2SF z)) as (H1 & H2 & H3);
    try apply Prim2SF_valid; try assumption.
  rewrite !FloatAxioms.add_spec in *.
  rewrite (SFleb_ord prec emax prec_pos prec_lt_emax);
    try assumption; try (rewrite <- FloatAxioms.add_spec; apply Prim2SF_valid).
  now apply Z.leb_le.
Qed.

Lemma add_le_mono_l a b z :
  num_finite z = true -> (a <=? b) = true -> (z + a <=? z + b) = true.
Proof. rewrite !(add_comm z). apply add_le_mono_r. Qed.

(** Interval arithmetic for products by a positive constant and sums. *)
Lemma mul_interval lo x hi c :
  num_finite c = true -> (0 <? c) = true ->
  (lo <=? x) = true -> (x <=? hi) = true ->
  (lo * c <=? x * c) = true /\ (x * c <=? hi * c) = true.
Proof. intros; split; now apply mul_le_mono. Qed.

Lemma add_interval la a ha lb b hb :
  num_finite la = true -> num_finite ha = true ->
  num_finite lb = true -> num_finite hb = true ->
  (la <=? a) = true -> (a <=? ha) = true ->
  (lb <=? b) = true -> (b <=? hb) = true ->
  (la + lb <=? a + b) = true /\ (a + b <=? ha + hb) = true.
Proof.
  intros Fla Fha Flb Fhb H1 H2 H3 H4.
  assert (Fa : num_finite a = true) by (apply (between_finite la a ha); assumption).
  split.
  - apply (leb_trans _ (a + lb)).
    + now apply add_le_mono_r.
    + now apply add_le_mono_l.
  - apply (leb_trans _ (a + hb)).
    + now apply add_le_mono_l.
    + now apply add_le_mono_r.
Qed.

Lemma ltb_nonnan a b : (a <? b) = true -> is_nan a = false /\ is_nan b = false.
Proof.
  intros H. rewrite FloatAxioms.ltb_spec in H. rewrite !is_nan_spec.
  destruct (Prim2SF a), (Prim2SF b); try discriminate; now split.
Qed.

Lemma ltb_leb_trans a b c :
  (a <? b) = true -> (b <=? c) = true -> (a <? c) = true.
Proof.
  intros H1 H2.
  destruct (ltb_nonnan a b H1) as [Na Nb]. destruct (leb_nonnan b c H2) as [_ Nc].
  rewrite is_nan_spec in Na, Nb, Nc.
  rewrite FloatAxioms.ltb_spec in *. rewrite FloatAxioms.leb_spec in H2.
  rewrite (SFltb_ord prec emax prec_pos prec_lt_emax) in *;
    try apply Prim2SF_valid; try assumption.
  rewrite (SFleb_ord prec emax prec_pos prec_lt_emax) in H2;
    try apply Prim2SF_valid; try assumption.
  apply Z.ltb_lt in H1. apply Z.leb_le in H2. apply Z.ltb_lt. lia.
Qed.

Lemma ltb_leb a b : (a <? b) = true -> (a <=? b) = true.
Proof.
  intros H. destruct (ltb_nonnan a b H) as [Na Nb].
  rewrite is_nan_spec in Na, Nb.
  rewrite FloatAxioms.ltb_spec in H. rewrite FloatAxioms.leb_spec.
  rewrite (SFltb_ord prec emax prec_pos prec_lt_emax) in H;
    try apply Prim2SF_valid; try assumption.
  rewrite (SFleb_ord prec emax prec_pos prec_lt_emax);
    try apply Prim2SF_valid; try assumption.
  apply Z.ltb_lt in H. apply Z.leb_le. lia.
Qed.
End Binary64.

(** ** The component: characterisation of [calculateOverallRisk] *)

Section ComponentFacts.
Variable StringToNumber : string -> float.
Local Open Scope float_scope.

Abbreviation calc := (calculateOverallRisk StringToNumber).

Lemma factor_score_num st category x :
  sub_score st category x ->
  factor_score StringToNumber (riskFactors st) category = Some x.
Proof.
  intros (r & Hr & Hx). unfold factor_score. rewrite Hr. simpl. now rewrite Hx.
Qed.

(** With four numeric sub-scores the function returns, and its result is
    given by the weighted score alone. *)
Lemma calc_scores st w a t g :
  sub_scores st w a t g ->
  calc st =
  Some {| riskFactors := riskFactors st;
          overallRisk :=
            Some {| score := w * 0.3 + a * 0.35 + t * 0.2 + g * 0.15;
                    level := tier_of_score (w * 0.3 + a * 0.35 + t * 0.2 + g * 0.15);
                    color := tier_color
                               (tier_of_score (w * 0.3 + a * 0.35 + t * 0.2 + g * 0.15));
                    percentage :=
                      Math_round ((w * 0.3 + a * 0.35 + t * 0.2 + g * 0.15) / 10 * 100) |};
          recommendation :=
            Some (tier_recommendation
                    (tier_of_score (w * 0.3 + a * 0.35 + t * 0.2 + g * 0.15))) |}.
Proof.
  intros (Hw & Ha & Ht & Hg). unfold calculateOverallRisk.
  rewrite (factor_score_num st "weather" w Hw),
          (factor_score_num st "avalanche" a Ha),
          (factor_score_num st "terrain" t Ht),
          (factor_score_num st "group" g Hg).
  cbn [mbind option_bind weather avalanche terrain group weights].
  unfold tier_of_score.
  destruct (_ <=? 3); [reflexivity|].
  destruct (_ <=? 5); [reflexivity|].
  destruct (_ <=? 7); reflexivity.
Qed.

Lemma sub_scores_state_of_scores w a t g :
  sub_scores (state_of_scores w a t g) w a t g.
Proof.
  repeat split; eexists; (split; [reflexivity|reflexivity]).
Qed.
End ComponentFacts.

(** ** Order lemmas for the weighted score *)

Section ScoreFacts.
Local Open Scope float_scope.

Lemma score_wle w a t g w' a' t' g' :
  one_increased w a t g w' a' t' g' ->
  num_wle (w * 0.3 + a * 0.35 + t * 0.2 + g * 0.15)
          (w' * 0.3 + a' * 0.35 + t' * 0.2 + g' * 0.15).
Proof.
  intros [(H & -> & -> & ->)|[(-> & H & -> & ->)|[(-> & -> & H & ->)|(-> & -> & -> & H)]]].
  - do 3 apply num_wle_add_r. apply num_wle_mul; [reflexivity|reflexivity|].
    now apply num_wle_of_leb.
  - do 2 apply num_wle_add_r. apply num_wle_add_l.
    apply num_wle_mul; [reflexivity|reflexivity|]. now apply num_wle_of_leb.
  - apply num_wle_add_r, num_wle_add_l.
    apply num_wle_mul; [reflexivity|reflexivity|]. now apply num_wle_of_leb.
  - apply num_wle_add_l.
    apply num_wle_mul; [reflexivity|reflexivity|]. now apply num_wle_of_leb.
Qed.

Lemma tier_rank_mono s s' :
  num_wle s s' ->
  (level_rank (tier_of_score s) <= level_rank (tier_of_score s'))%nat.
Proof.
  intros H. unfold tier_of_score.
  destruct (s' <=? 3) eqn:H3.
  { rewrite (num_wle_below s s' 3 eq_refl H H3). simpl. lia. }
  destruct (s' <=? 5) eqn:H5.
  { rewrite (num_wle_below s s' 5 eq_refl H H5).
    destruct (s <=? 3); simpl; lia. }
  destruct (s' <=? 7) eqn:H7.
  { rewrite (num_wle_below s s' 7 eq_refl H H7).
    destruct (s <=? 3), (s <=? 5); simpl; lia. }
  destruct (s <=? 3), (s <=? 5), (s <=? 7); simpl; lia.
Qed.

Lemma score_in_range w a t g :
  in_range w -> in_range a -> in_range t -> in_range g ->
  in_range (w * 0.3 + a * 0.35 + t * 0.2 + g * 0.15).
Proof.
  intros [Hw0 Hw1] [Ha0 Ha1] [Ht0 Ht1] [Hg0 Hg1].
  destruct (mul_interval 0 w 10 0.3 eq_refl eq_refl Hw0 Hw1) as [Pw0 Pw1].
  destruct (mul_interval 0 a 10 0.35 eq_refl eq_refl Ha0 Ha1) as [Pa0 Pa1].
  destruct (mul_interval 0 t 10 0.2 eq_refl eq_refl Ht0 Ht1) as [Pt0 Pt1].
  destruct (mul_interval 0 g 10 0.15 eq_refl eq_refl Hg0 Hg1) as [Pg0 Pg1].
  change (0 * 0.3) with 0 in Pw0. change (10 * 0.3) with 3 in Pw1.
  change (0 * 0.35) with 0 in Pa0. change (10 * 0.35) with 3.5 in Pa1.
  change (0 * 0.2) with 0 in Pt0. change (10 * 0.2) with 2 in Pt1.
  change (0 * 0.15) with 0 in Pg0. change (10 * 0.15) with 1.5 in Pg1.
  destruct (add_interval 0 (w * 0.3) 3 0 (a * 0.35) 3.5
              eq_refl eq_refl eq_refl eq_refl Pw0 Pw1 Pa0 Pa1) as [S1 S2].
  change (0 + 0) with 0 in S1. change (3 + 3.5) with 6.5 in S2.
  destruct (add_interval 0 (w * 0.3 + a * 0.35) 6.5 0 (t * 0.2) 2
              eq_refl eq_refl eq_refl eq_refl S1 S2 Pt0 Pt1) as [S3 S4].
  change (0 + 0) with 0 in S3. change (6.5 + 2) with 8.5 in S4.
  destruct (add_interval 0 (w * 0.3 + a * 0.35 + t * 0.2) 8.5 0 (g * 0.15) 1.5
              eq_refl eq_refl eq_refl eq_refl S3 S4 Pg0 Pg1) as [S5 S6].
  change (0 + 0) with 0 in S5. change (8.5 + 1.5) with 10 in S6.
  split; assumption.
Qed.

Lemma weighted_sum_code_order w a t g :
  w * 0.3 + a * 0.35 + t * 0.2 + g * 0.15 = weighted_sum w a t g.
Proof.
  unfold weighted_sum.
  now rewrite (mul_comm w), (mul_comm a), (mul_comm t), (mul_comm g).
Qed.

Lemma getRiskColor_tier s : getRiskColor s = tier_color (tier_of_score s).
Proof.
  unfold getRiskColor, tier_of_score.
  destruct (s <=? 3); [reflexivity|].
  destruct (s <=? 5); [reflexivity|].
  destruct (s <=? 7); reflexivity.
Qed.

Lemma sub_scores_initialState : sub_scores initialState 6 7 5 4.
Proof.
  repeat split; eexists; (split; [reflexivity|reflexivity]).
Qed.
End ScoreFacts.

(** ** Properties of the specification *)

#[local] Open Scope float_scope.

(** C1: for every input record of four numeric sub-scores,
    [calculateOverallRisk] returns and stores as score exactly the weighted
    sum [0.30 * weather + 0.35 * avalanche + 0.20 * terrain + 0.15 * group],
    evaluated in the arithmetic of JavaScript numbers. *)
Theorem calculateOverallRisk_weighted_sum
    (StringToNumber : string -> float) (st : State) (w a t g : float) :
  sub_scores st w a t g ->
  exists st' r,
    calculateOverallRisk StringToNumber st = Some st' /\
    overallRisk st' = Some r /\
    score r = weighted_sum w a t g.
Proof.
  intros H. rewrite (calc_scores StringToNumber st w a t g H).
  eexists; eexists. split; [reflexivity|]. split; [reflexivity|].
  apply weighted_sum_code_order.
Qed.

Lemma calculateOverallRisk_weighted_sum_witness :
  exists st' r,
    calculateOverallRisk (fun _ => nan) initialState = Some st' /\
    overallRisk st' = Some r /\
    score r = weighted_sum 6 7 5 4.
Proof.
  apply (calculateOverallRisk_weighted_sum (fun _ => nan) initialState 6 7 5 4).
  repeat split; eexists; (split; reflexivity).
Defined.



(** C3: monotonicity.  When one sub-score increases and the other three
    are fixed, the weighted score does not decrease (the new score is never
    below the old one, and is at least the old one whenever both are
    numbers) and the tier does not move to a lower severity. *)
Theorem weighted_score_monotone
    (StringToNumber : string -> float) (st1 st2 : State)
    (w a t g w' a' t' g' : float) :
  sub_scores st1 w a t g ->
  sub_scores st2 w' a' t' g' ->
  one_increased w a t g w' a' t' g' ->
  exists st1' st2' r1 r2,
    calculateOverallRisk StringToNumber st1 = Some st1' /\
    calculateOverallRisk StringToNumber st2 = Some st2' /\
    overallRisk st1' = Some r1 /\
    overallRisk st2' = Some r2 /\
    (score r2 <? score r1) = false /\
    (is_nan (score r1) = false -> is_nan (score r2) = false ->
     (score r1 <=? score r2) = true) /\
    (level_rank (level r1) <= level_rank (level r2))%nat.
Proof.
  intros H1 H2 Hinc.
  rewrite (calc_scores StringToNumber st1 w a t g H1).
  rewrite (calc_scores StringToNumber st2 w' a' t' g' H2).
  do 4 eexists. do 4 (split; [reflexivity|]).
  cbn [score level]. pose proof (score_wle _ _ _ _ _ _ _ _ Hinc) as Hle.
  split; [now apply num_wle_ltb|].
  split; [now apply num_wle_leb|].
  now apply tier_rank_mono.
Qed.

Lemma weighted_score_monotone_witness :
  exists st1' st2' r1 r2,
    calculateOverallRisk (fun _ => nan) initialState = Some st1' /\
    calculateOverallRisk (fun _ => nan)
      (updateRiskFactor "avalanche" "score" (JNum 8) initialState) = Some st2' /\
    overallRisk st1' = Some r1 /\
    overallRisk st2' = Some r2 /\
    (score r2 <? score r1) = false /\
    (is_nan (score r1) = false -> is_nan (score r2) = false ->
     (score r1 <=? score r2) = true) /\
    (level_rank (level r1) <= level_rank (level r2))%nat.
Proof.
  apply (weighted_score_monotone (fun _ => nan) initialState
           (updateRiskFactor "avalanche" "score" (JNum 8) initialState)
           6 7 5 4 6 8 5 4).
  - repeat split; eexists; (split; reflexivity).
  - repeat split; eexists; (split; reflexivity).
  - right; left. repeat split; reflexivity.
Defined.

(** C4: when the four sub-scores lie in the closed interval from 0 to 10,
    so does the weighted score. *)
Theorem weighted_score_in_range
    (StringToNumber : string -> float) (st : State) (w a t g : float) :
  sub_scores st w a t g ->
  in_range w -> in_range a -> in_range t -> in_range g ->
  exists st' r,
    calculateOverallRisk StringToNumber st = Some st' /\
    overallRisk st' = Some r /\
    in_range (score r).
Proof.
  intros H Hw Ha Ht Hg. rewrite (calc_scores StringToNumber st w a t g H).
  eexists; eexists. split; [reflexivity|]. split; [reflexivity|].
  now apply score_in_range.
Qed.

Lemma weighted_score_in_range_witness :
  exists st' r,
    calculateOverallRisk (fun _ => nan) initialState = Some st' /\
    overallRisk st' = Some r /\
    in_range (score r).
Proof.
  apply (weighted_score_in_range (fun _ => nan) initialState 6 7 5 4).
  - repeat split; eexists; (split; reflexivity).
  - split; reflexivity.
  - split; reflexivity.
  - split; reflexivity.
  - split; reflexivity.
Defined.

(** C5: the displayed percentage is [Math.round (score / 10 * 100)]; four
    sub-scores equal to 0 give score 0, tier LOW and percentage 0, and four
    sub-scores equal to 10 give score 10, tier EXTREME and percentage 100. *)
Theorem display_percentage
    (StringToNumber : string -> float) (st : State) (w a t g : float) :
  sub_scores st w a t g ->
  exists st' r,
    calculateOverallRisk StringToNumber st = Some st' /\
    overallRisk st' = Some r /\
    percentage r = Math_round (score r / 10 * 100) /\
    (w = 0 -> a = 0 -> t = 0 -> g = 0 ->
     score r = 0 /\ level r = LOW /\ percentage r = 0) /\
    (w = 10 -> a = 10 -> t = 10 -> g = 10 ->
     score r = 10 /\ level r = EXTREME /\ percentage r = 100).
Proof.
  intros H. rewrite (calc_scores StringToNumber st w a t g H).
  eexists; eexists. split; [reflexivity|]. split; [reflexivity|].
  cbn [score level percentage]. split; [reflexivity|].
  split; intros -> -> -> ->; repeat split; reflexivity.
Qed.

Lemma display_percentage_witness :
  exists st' r,
    calculateOverallRisk (fun _ => nan) (state_of_scores 10 10 10 10) = Some st' /\
    overallRisk st' = Some r /\
    percentage r = Math_round (score r / 10 * 100) /\
    (10 = 0 -> 10 = 0 -> 10 = 0 -> 10 = 0 ->
     score r = 0 /\ level r = LOW /\ percentage r = 0) /\
    (10 = 10 -> 10 = 10 -> 10 = 10 -> 10 = 10 ->
     score r = 10 /\ level r = EXTREME /\ percentage r = 100).
Proof.
  apply (display_percentage (fun _ => nan) (state_of_scores 10 10 10 10) 10 10 10 10).
  repeat split; eexists; (split; reflexivity).
Defined.

(** C6: determinism.  The result depends on the four sub-scores only: two
    states with equal sub-scores give equal score, tier, color, percentage
    and recommendation, and the evaluation leaves the factors it reads
    unchanged. *)
Theorem calculateOverallRisk_deterministic
    (StringToNumber : string -> float) (st1 st2 : State) (w a t g : float) :
  sub_scores st1 w a t g ->
  sub_scores st2 w a t g ->
  exists st1' st2',
    calculateOverallRisk StringToNumber st1 = Some st1' /\
    calculateOverallRisk StringToNumber st2 = Some st2' /\
    overallRisk st1' = overallRisk st2' /\
    recommendation st1' = recommendation st2' /\
    riskFactors st1' = riskFactors st1 /\
    riskFactors st2' = riskFactors st2.
Proof.
  intros H1 H2.
  rewrite (calc_scores StringToNumber st1 w a t g H1).
  rewrite (calc_scores StringToNumber st2 w a t g H2).
  do 2 eexists. repeat split; reflexivity.
Qed.

Lemma calculateOverallRisk_deterministic_witness :
  exists st1' st2',
    calculateOverallRisk (fun _ => nan) initialState = Some st1' /\
    calculateOverallRisk (fun _ => nan) (state_of_scores 6 7 5 4) = Some st2' /\
    overallRisk st1' = overallRisk st2' /\
    recommendation st1' = recommendation st2' /\
    riskFactors st1' = riskFactors initialState /\
    riskFactors st2' = riskFactors (state_of_scores 6 7 5 4).
Proof.
  apply (calculateOverallRisk_deterministic (fun _ => nan)
           initialState (state_of_scores 6 7 5 4) 6 7 5 4).
  - repeat split; eexists; (split; reflexivity).
  - repeat split; eexists; (split; reflexivity).
Defined.

(** C7: the color and the recommendation bundle are functions of the tier
    alone (LOW: #10b981 and GO, MODERATE: #f59e0b and CAUTION, HIGH: #f97316
    and RECONSIDER, EXTREME: #dc2626 and CRITICAL RISK), each bundle is
    fixed and lists four details, and the color is [getRiskColor] of the
    score. *)
Theorem color_and_recommendation_by_tier
    (StringToNumber : string -> float) (st : State) (w a t g : float) :
  sub_scores st w a t g ->
  exists st' r rec,
    calculateOverallRisk StringToNumber st = Some st' /\
    overallRisk st' = Some r /\
    recommendation st' = Some rec /\
    color r = tier_color (level r) /\
    rec = tier_recommendation (level r) /\
    length (details rec) = 4%nat /\
    color r = getRiskColor (score r) /\
    (tier_color LOW, action (tier_recommendation LOW)) = ("#10b981", "GO") /\
    (tier_color MODERATE, action (tier_recommendation MODERATE))
    = ("#f59e0b", "CAUTION") /\
    (tier_color HIGH, action (tier_recommendation HIGH)) = ("#f97316", "RECONSIDER") /\
    (tier_color EXTREME, action (tier_recommendation EXTREME))
    = ("#dc2626", "CRITICAL RISK").
Proof.
  intros H. rewrite (calc_scores StringToNumber st w a t g H).
  do 3 eexists. do 3 (split; [reflexivity|]).
  cbn [score level color]. split; [reflexivity|]. split; [reflexivity|].
  split; [now destruct (tier_of_score _)|].
  split; [symmetry; apply getRiskColor_tier|].
  repeat split; reflexivity.
Qed.

Lemma color_and_recommendation_by_tier_witness :
  exists st' r rec,
    calculateOverallRisk (fun _ => nan) initialState = Some st' /\
    overallRisk st' = Some r /\
    recommendation st' = Some rec /\
    color r = tier_color (level r) /\
    rec = tier_recommendation (level r) /\
    length (details rec) = 4%nat /\
    color r = getRiskColor (score r) /\
    (tier_color LOW, action (tier_recommendation LOW)) = ("#10b981", "GO") /\
    (tier_color MODERATE, action (tier_recommendation MODERATE))
    = ("#f59e0b", "CAUTION") /\
    (tier_color HIGH, action (tier_recommendation HIGH)) = ("#f97316", "RECONSIDER") /\
    (tier_color EXTREME, action (tier_recommendation EXTREME))
    = ("#dc2626", "CRITICAL RISK").
Proof.
  apply (color_and_recommendation_by_tier (fun _ => nan) initialState 6 7 5 4).
  repeat split; eexists; (split; reflexivity).
Defined.


(** C9: totality.  For all numeric sub-scores, whatever their range, the
    function returns a result whose tier and color are one of the four
    matching pairs; a negative weighted score is LOW and one above 10 is
    EXTREME; the stored score is the weighted sum itself and the stored
    percentage its rounding, neither clamped. *)
Theorem calculateOverallRisk_total
    (StringToNumber : string -> float) (st : State) (w a t g : float) :
  sub_scores st w a t g ->
  exists st' r rec,
    calculateOverallRisk StringToNumber st = Some st' /\
    overallRisk st' = Some r /\
    recommendation st' = Some rec /\
    ((level r = LOW /\ color r = "#10b981") \/
     (level r = MODERATE /\ color r = "#f59e0b") \/
     (level r = HIGH /\ color r = "#f97316") \/
     (level r = EXTREME /\ color r = "#dc2626")) /\
    ((score r <? 0) = true -> level r = LOW /\ color r = "#10b981") /\
    ((10 <? score r) = true -> level r = EXTREME /\ color r = "#dc2626") /\
    score r = w * 0.3 + a * 0.35 + t * 0.2 + g * 0.15 /\
    percentage r = Math_round (score r / 10 * 100).
Proof.
  intros H. rewrite (calc_scores StringToNumber st w a t g H).
  do 3 eexists. do 3 (split; [reflexivity|]).
  cbn [score level color percentage].
  generalize (w * 0.3 + a * 0.35 + t * 0.2 + g * 0.15). intros s.
  split; [|split; [|split; [|split; reflexivity]]].
  - unfold tier_of_score.
    destruct (s <=? 3); [now left|].
    destruct (s <=? 5); [now right; left|].
    destruct (s <=? 7); [now right; right; left|now right; right; right].
  - intros Hneg.
    assert (H3 : (s <=? 3) = true).
    { apply ltb_leb. apply (ltb_leb_trans s 0 3); [exact Hneg|reflexivity]. }
    unfold tier_of_score. rewrite H3. now split.
  - intros Hbig.
    assert (H7 : (s <=? 7) = false).
    { destruct (s <=? 7) eqn:H7; [|reflexivity].
      pose proof (ltb_leb_trans 10 s 7 Hbig H7) as Habs. discriminate Habs. }
    assert (H5 : (s <=? 5) = false).
    { destruct (s <=? 5) eqn:H5; [|reflexivity].
      rewrite (leb_trans s 5 7 H5 eq_refl) in H7. discriminate H7. }
    assert (H3 : (s <=? 3) = false).
    { destruct (s <=? 3) eqn:H3; [|reflexivity].
      rewrite (leb_trans s 3 7 H3 eq_refl) in H7. discriminate H7. }
    unfold tier_of_score. rewrite H3, H5, H7. now split.
Qed.

Lemma calculateOverallRisk_total_witness :
  exists st' r rec,
    calculateOverallRisk (fun _ => nan) (state_of_scores 20 20 20 20) = Some st' /\
    overallRisk st' = Some r /\
    recommendation st' = Some rec /\
    ((level r = LOW /\ color r = "#10b981") \/
     (level r = MODERATE /\ color r = "#f59e0b") \/
     (level r = HIGH /\ color r = "#f97316") \/
     (level r = EXTREME /\ color r = "#dc2626")) /\
    ((score r <? 0) = true -> level r = LOW /\ color r = "#10b981") /\
    ((10 <? score r) = true -> level r = EXTREME /\ color r = "#dc2626") /\
    score r = 20 * 0.3 + 20 * 0.35 + 20 * 0.2 + 20 * 0.15 /\
    percentage r = Math_round (score r / 10 * 100).
Proof.
  apply (calculateOverallRisk_total (fun _ => nan) (state_of_scores 20 20 20 20)
           20 20 20 20).
  repeat split; eexists; (split; reflexivity).
Defined.

(** C10: frame property.  [updateRiskFactor category field value] sets the
    named field of the named category to [value] and leaves every other
    field of that category, every other category, the overall risk and
    the recommendation unchanged. *)
Theorem updateRiskFactor_frame
    (category field : string) (value : jsval) (st : State) :
  field_of (updateRiskFactor category field value st) category field = Some value /\
  (forall f : string, f <> field ->
     field_of (updateRiskFactor category field value st) category f
     = field_of st category f) /\
  (forall c : string, c <> category ->
     riskFactors (updateRiskFactor category field value st) !! c
     = riskFactors st !! c) /\
  overallRisk (updateRiskFactor category field value st) = overallRisk st /\
  recommendation (updateRiskFactor category field value st) = recommendation st.
Proof.
  unfold field_of, updateRiskFactor. cbn [riskFactors overallRisk recommendation].
  split; [|split; [|split; [|split; reflexivity]]].
  - rewrite lookup_insert_eq. simpl. apply lookup_insert_eq.
  - intros f Hf. rewrite lookup_insert_eq. simpl.
    rewrite lookup_insert_ne by congruence.
    destruct (riskFactors st !! category) as [r|]; simpl; [reflexivity|].
    apply lookup_empty.
  - intros c Hc. now apply lookup_insert_ne.
Qed.

(** ** Worked values *)

(** The demo defaults (6, 7, 5, 4) give the number nearest to 5.85 as score,
    tier HIGH and 59 percent. *)
Example initial_assessment :
  exists st',
    calculateOverallRisk (fun _ => nan) initialState = Some st' /\
    overallRisk st' =
      Some {| score := 5.8499999999999996; level := HIGH;
              color := "#f97316"; percentage := 59 |} /\
    recommendation st' = Some recommendation_RECONSIDER.
Proof.
  rewrite (calc_scores _ _ _ _ _ _ sub_scores_initialState).
  eexists. repeat split; reflexivity.
Qed.

(** Scores landing exactly on the boundaries 3, 5 and 7. *)
Example boundary_scores :
  (3 * 0.3 + 3 * 0.35 + 3 * 0.2 + 3 * 0.15 = 3 /\ tier_of_score 3 = LOW) /\
  (5 * 0.3 + 5 * 0.35 + 5 * 0.2 + 5 * 0.15 = 5 /\ tier_of_score 5 = MODERATE) /\
  (7 * 0.3 + 7 * 0.35 + 7 * 0.2 + 7 * 0.15 = 7 /\ tier_of_score 7 = HIGH).
Proof. repeat split; reflexivity. Qed.

(** The weighted sum is computed in binary64 arithmetic, each product and
    each sum rounded: four sub-scores equal to 1 give the number just
    below 1. *)
Example weighted_sum_rounding :
  weighted_sum 1 1 1 1 = 0.99999999999999989 /\
  (weighted_sum 1 1 1 1 <? 1) = true.
Proof. split; reflexivity. Qed.

(** A missing category makes the property access throw; a category without
    a [score] field contributes NaN, and the tier is then EXTREME. *)
Example missing_category (StringToNumber : string -> float) :
  calculateOverallRisk StringToNumber
    {| riskFactors := delete "group" initialRiskFactors;
       overallRisk := None; recommendation := None |} = None.
Proof. reflexivity. Qed.

Example missing_score_field (StringToNumber : string -> float) :
  exists st' r,
    calculateOverallRisk StringToNumber
      {| riskFactors := <["group" := ∅]> initialRiskFactors;
         overallRisk := None; recommendation := None |} = Some st' /\
    overallRisk st' = Some r /\
    is_nan (score r) = true /\ level r = EXTREME /\ is_nan (percentage r) = true.
Proof. do 2 eexists. repeat split; reflexivity. Qed.

(** Out-of-range sub-scores pass through unclamped. *)
Example unclamped_scores :
  (weighted_sum 20 20 20 20 = 20 /\ tier_of_score 20 = EXTREME /\
   Math_round (20 / 10 * 100) = 200) /\
  (weighted_sum (-10) (-10) (-10) (-10) = -10 /\ tier_of_score (-10) = LOW /\
   Math_round (-10 / 10 * 100) = -100) /\
  (is_nan (weighted_sum nan 1 1 1) = true /\ tier_of_score nan = EXTREME).
Proof. repeat split; reflexivity. Qed.

(** The weights as binary64 numbers: their exact sum is [1 - 2 ^ -55], and
    added as JavaScript numbers they give the number just below 1. *)
Example weights_binary64_sum :
  (float_value (weather weights) + float_value (avalanche weights)
   + float_value (terrain weights) + float_value (group weights)
   == 1 - Qpower 2 (-55))%Q /\
  weather weights + avalanche weights + terrain weights + group weights
  = 0.99999999999999989.
Proof. split; reflexivity. Qed.

(** [Math.round] on ties, negative numbers and the special values. *)
Example Math_round_values :
  Math_round 2.5 = 3 /\ Math_round (-2.5) = -2 /\ Math_round (-0.5) = neg_zero /\
  Math_round 0.49999999999999994 = 0 /\ Math_round 58.5 = 59 /\
  Math_round nan = nan /\ Math_round infinity = infinity.
Proof. repeat split; reflexivity. Qed.

(** ** Further properties of the component *)

(** *** Updates of the risk factors *)

Section UpdateAlgebra.
Lemma updateRiskFactor_factors category field value st :
  riskFactors (updateRiskFactor category field value st)
  = <[category := <[field := value]> (default ∅ (riskFactors st !! category))]>
      (riskFactors st).
Proof. reflexivity. Qed.

Lemma State_eq (s1 s2 : State) :
  riskFactors s1 = riskFactors s2 ->
  overallRisk s1 = overallRisk s2 ->
  recommendation s1 = recommendation s2 ->
  s1 = s2.
Proof. destruct s1, s2; simpl; intros; subst; reflexivity. Qed.

Lemma scored_categories_elem c :
  c ∈ scored_categories <->
  c = "weather" \/ c = "avalanche" \/ c = "terrain" \/ c = "group".
Proof.
  unfold scored_categories. rewrite !elem_of_cons, elem_of_nil. tauto.
Qed.
End UpdateAlgebra.

(** X1: the last write wins.  Two updates of the same field of the same
    category leave the state that the second update alone gives. *)
Theorem updateRiskFactor_overwrite
    (category field : string) (v1 v2 : jsval) (st : State) :
  updateRiskFactor category field v2 (updateRiskFactor category field v1 st)
  = updateRiskFactor category field v2 st.
Proof.
  apply State_eq; try reflexivity.
  rewrite !updateRiskFactor_factors.
  rewrite lookup_insert_eq. simpl. rewrite insert_insert_eq.
  now rewrite insert_insert_eq.
Qed.

(** X2: updates of different fields, or of different categories, commute. *)
Theorem updateRiskFactor_commute
    (c1 f1 : string) (v1 : jsval) (c2 f2 : string) (v2 : jsval) (st : State) :
  (c1, f1) <> (c2, f2) ->
  updateRiskFactor c1 f1 v1 (updateRiskFactor c2 f2 v2 st)
  = updateRiskFactor c2 f2 v2 (updateRiskFactor c1 f1 v1 st).
Proof.
  intros Hne. apply State_eq; try reflexivity.
  rewrite !updateRiskFactor_factors.
  destruct (decide (c1 = c2)) as [->|Hc].
  - assert (Hf : f1 <> f2) by congruence.
    rewrite !lookup_insert_eq. simpl. rewrite !insert_insert_eq.
    f_equal. now apply insert_insert_ne.
  - rewrite (lookup_insert_ne _ c2 c1) by congruence.
    rewrite (lookup_insert_ne _ c1 c2) by congruence.
    now apply insert_insert_ne.
Qed.

Lemma updateRiskFactor_commute_witness :
  updateRiskFactor "weather" "score" (JNum 2)
    (updateRiskFactor "weather" "windSpeed" (JNum 10) initialState)
  = updateRiskFactor "weather" "windSpeed" (JNum 10)
      (updateRiskFactor "weather" "score" (JNum 2) initialState).
Proof.
  apply (updateRiskFactor_commute "weather" "score" (JNum 2)
           "weather" "windSpeed" (JNum 10) initialState).
  discriminate.
Defined.

(** X3: writing the value that a field already holds changes nothing. *)
Theorem updateRiskFactor_same_value
    (category field : string) (value : jsval) (st : State) :
  field_of st category field = Some value ->
  updateRiskFactor category field value st = st.
Proof.
  unfold field_of. intros H.
  destruct (riskFactors st !! category) as [r|] eqn:Hr; [|discriminate].
  simpl in H. apply State_eq; try reflexivity.
  rewrite updateRiskFactor_factors, Hr. simpl.
  rewrite (insert_id r field value H). now apply insert_id.
Qed.

Lemma updateRiskFactor_same_value_witness :
  updateRiskFactor "terrain" "slope" (JNum 38) initialState = initialState.
Proof.
  apply (updateRiskFactor_same_value "terrain" "slope" (JNum 38) initialState).
  reflexivity.
Defined.

(** *** Updates and the assessment *)

Section UpdateAssessment.
Variable StringToNumber : string -> float.
Local Open Scope float_scope.

Lemma factor_score_update_other category field value st cat :
  field <> "score" ->
  is_Some (riskFactors st !! category) \/ cat <> category ->
  factor_score StringToNumber
    (riskFactors (updateRiskFactor category field value st)) cat
  = factor_score StringToNumber (riskFactors st) cat.
Proof.
  intros Hf Hc. unfold factor_score. rewrite updateRiskFactor_factors.
  destruct (decide (cat = category)) as [->|Hne].
  - destruct Hc as [[r Hr]|Hc]; [|congruence].
    rewrite lookup_insert_eq, Hr. simpl.
    now rewrite lookup_insert_ne by congruence.
  - now rewrite lookup_insert_ne by congruence.
Qed.

Lemma sub_score_update_same category x st :
  sub_score (updateRiskFactor category "score" (JNum x) st) category x.
Proof.
  unfold sub_score. rewrite updateRiskFactor_factors.
  eexists. split; [apply lookup_insert_eq|apply lookup_insert_eq].
Qed.

Lemma sub_score_update_other category field value st cat x :
  cat <> category ->
  sub_score st cat x ->
  sub_score (updateRiskFactor category field value st) cat x.
Proof.
  intros Hne (r & Hr & Hx). exists r. split; [|exact Hx].
  rewrite updateRiskFactor_factors. now rewrite lookup_insert_ne by congruence.
Qed.

Lemma is_nan_eq x : is_nan x = true -> x = nan.
Proof.
  rewrite is_nan_spec. intros H. apply Prim2SF_inj.
  destruct (Prim2SF x); try discriminate. reflexivity.
Qed.

Lemma mul_nan_l y : nan * y = nan.
Proof. apply Prim2SF_inj. rewrite FloatAxioms.mul_spec. reflexivity. Qed.

Lemma add_nan_l y : nan + y = nan.
Proof. apply Prim2SF_inj. rewrite FloatAxioms.add_spec. reflexivity. Qed.

Lemma add_nan_r y : y + nan = nan.
Proof. rewrite add_comm. apply add_nan_l. Qed.


(** A sum of four products is NaN as soon as one factor is. *)
Lemma weighted_score_nan w a t g :
  is_nan w || is_nan a || is_nan t || is_nan g = true ->
  w * 0.3 + a * 0.35 + t * 0.2 + g * 0.15 = nan.
Proof.
  intros H.
  destruct (is_nan w) eqn:Hw.
  { apply is_nan_eq in Hw. subst w. now rewrite mul_nan_l, !add_nan_l. }
  destruct (is_nan a) eqn:Ha.
  { apply is_nan_eq in Ha. subst a. now rewrite mul_nan_l, add_nan_r, !add_nan_l. }
  destruct (is_nan t) eqn:Ht.
  { apply is_nan_eq in Ht. subst t. now rewrite mul_nan_l, add_nan_r, add_nan_l. }
  simpl in H. apply is_nan_eq in H. subst g. now rewrite mul_nan_l, add_nan_r.
Qed.

(** The weighted score of four sub-scores that are all at most [T], for a
    threshold [T] whose own weighted score is at most [T]. *)
Lemma score_below_threshold T w a t g :
  num_finite T = true ->
  (T * 0.3 + T * 0.35 + T * 0.2 + T * 0.15 <=? T) = true ->
  (w <=? T) = true -> (a <=? T) = true -> (t <=? T) = true -> (g <=? T) = true ->
  (w * 0.3 + a * 0.35 + t * 0.2 + g * 0.15 <=? T) = true.
Proof.
  intros FT HT Hw Ha Ht Hg.
  assert (H1 : (T * 0.3 + T * 0.35 + T * 0.2 + g * 0.15 <=? T) = true).
  { apply (num_wle_below _ (T * 0.3 + T * 0.35 + T * 0.2 + T * 0.15) T FT); [|exact HT].
    apply score_wle. right; right; right. now repeat split. }
  assert (H2 : (T * 0.3 + T * 0.35 + t * 0.2 + g * 0.15 <=? T) = true).
  { apply (num_wle_below _ (T * 0.3 + T * 0.35 + T * 0.2 + g * 0.15) T FT); [|exact H1].
    apply score_wle. right; right; left. now repeat split. }
  assert (H3 : (T * 0.3 + a * 0.35 + t * 0.2 + g * 0.15 <=? T) = true).
  { apply (num_wle_below _ (T * 0.3 + T * 0.35 + t * 0.2 + g * 0.15) T FT); [|exact H2].
    apply score_wle. right; left. now repeat split. }
  apply (num_wle_below _ (T * 0.3 + a * 0.35 + t * 0.2 + g * 0.15) T FT); [|exact H3].
  apply score_wle. left. now repeat split.
Qed.

Lemma tier_rank_le_0 x : (level_rank (tier_of_score x) <= 0)%nat -> (x <=? 3) = true.
Proof.
  unfold tier_of_score. destruct (x <=? 3); [reflexivity|].
  destruct (x <=? 5); [simpl; lia|]. destruct (x <=? 7); simpl; lia.
Qed.

Lemma tier_rank_le_1 x : (level_rank (tier_of_score x) <= 1)%nat -> (x <=? 5) = true.
Proof.
  unfold tier_of_score. destruct (x <=? 3) eqn:H3.
  { intros _. now apply (leb_trans x 3 5). }
  destruct (x <=? 5); [reflexivity|]. destruct (x <=? 7); simpl; lia.
Qed.

Lemma tier_rank_le_2 x : (level_rank (tier_of_score x) <= 2)%nat -> (x <=? 7) = true.
Proof.
  unfold tier_of_score. destruct (x <=? 3) eqn:H3.
  { intros _. now apply (leb_trans x 3 7). }
  destruct (x <=? 5) eqn:H5.
  { intros _. now apply (leb_trans x 5 7). }
  destruct (x <=? 7); [reflexivity|simpl; lia].
Qed.

Lemma tier_rank_below_3 x : (x <=? 3) = true -> level_rank (tier_of_score x) = 0%nat.
Proof. unfold tier_of_score. now intros ->. Qed.

Lemma tier_rank_below_5 x : (x <=? 5) = true -> (level_rank (tier_of_score x) <= 1)%nat.
Proof.
  unfold tier_of_score. intros ->. destruct (x <=? 3); simpl; lia.
Qed.

Lemma tier_rank_below_7 x : (x <=? 7) = true -> (level_rank (tier_of_score x) <= 2)%nat.
Proof.
  unfold tier_of_score. intros ->. destruct (x <=? 3), (x <=? 5); simpl; lia.
Qed.

Lemma tier_rank_le_3 x : (level_rank (tier_of_score x) <= 3)%nat.
Proof.
  unfold tier_of_score. destruct (x <=? 3), (x <=? 5), (x <=? 7); simpl; lia.
Qed.

Lemma tier_of_weighted_score_bound w a t g :
  (level_rank (tier_of_score (w * 0.3 + a * 0.35 + t * 0.2 + g * 0.15))
   <= worst_factor_rank w a t g)%nat.
Proof.
  unfold worst_factor_rank.
  remember (Nat.max (Nat.max (Nat.max (level_rank (tier_of_score w))
                                      (level_rank (tier_of_score a)))
                             (level_rank (tier_of_score t)))
                    (level_rank (tier_of_score g))) as k eqn:Hk.
  assert (Hw : (level_rank (tier_of_score w) <= k)%nat) by lia.
  assert (Ha : (level_rank (tier_of_score a) <= k)%nat) by lia.
  assert (Ht : (level_rank (tier_of_score t) <= k)%nat) by lia.
  assert (Hg : (level_rank (tier_of_score g) <= k)%nat) by lia.
  clear Hk. destruct k as [|[|[|k]]].
  - rewrite tier_rank_below_3; [lia|].
    apply (score_below_threshold 3); try reflexivity; now apply tier_rank_le_0.
  - apply tier_rank_below_5.
    apply (score_below_threshold 5); try reflexivity; now apply tier_rank_le_1.
  - apply tier_rank_below_7.
    apply (score_below_threshold 7); try reflexivity; now apply tier_rank_le_2.
  - pose proof (tier_rank_le_3 (w * 0.3 + a * 0.35 + t * 0.2 + g * 0.15)). lia.
Qed.

Lemma glyph_update_other category field value st :
  category <> "weather" \/
  (is_Some (riskFactors st !! "weather") /\
   field <> "precipitation" /\ field <> "visibility" /\ field <> "windSpeed") ->
  getWeatherIcon StringToNumber (updateRiskFactor category field value st)
  = getWeatherIcon StringToNumber st.
Proof.
  intros H. unfold getWeatherIcon. rewrite updateRiskFactor_factors.
  destruct (decide (category = "weather")) as [->|Hne].
  - destruct H as [H|([r Hr] & H1 & H2 & H3)]; [congruence|].
    rewrite lookup_insert_eq, Hr. simpl.
    now rewrite !lookup_insert_ne by congruence.
  - now rewrite lookup_insert_ne by congruence.
Qed.
End UpdateAssessment.

(** X4: an update of a field other than [score] does not change the
    assessment, provided the category exists (an update of a missing
    category creates it, which can turn a throwing evaluation into a
    returning one) or is not one of the four scored categories. *)
Theorem assessment_ignores_other_fields
    (StringToNumber : string -> float)
    (category field : string) (value : jsval) (st : State) :
  field <> "score" ->
  is_Some (riskFactors st !! category) \/ category ∉ scored_categories ->
  assessment (calculateOverallRisk StringToNumber
                (updateRiskFactor category field value st))
  = assessment (calculateOverallRisk StringToNumber st).
Proof.
  intros Hf Hc.
  assert (Hs : forall cat, cat ∈ scored_categories ->
            factor_score StringToNumber
              (riskFactors (updateRiskFactor category field value st)) cat
            = factor_score StringToNumber (riskFactors st) cat).
  { intros cat Hcat. apply factor_score_update_other; [exact Hf|].
    destruct Hc as [Hc|Hc]; [now left|right]. congruence. }
  unfold calculateOverallRisk.
  rewrite (Hs "weather"), (Hs "avalanche"), (Hs "terrain"), (Hs "group")
    by (apply scored_categories_elem; tauto).
  destruct (factor_score StringToNumber (riskFactors st) "weather") as [w|];
    [|reflexivity].
  destruct (factor_score StringToNumber (riskFactors st) "avalanche") as [a|];
    [|reflexivity].
  destruct (factor_score StringToNumber (riskFactors st) "terrain") as [t|];
    [|reflexivity].
  destruct (factor_score StringToNumber (riskFactors st) "group") as [g|];
    [|reflexivity].
  cbn [mbind option_bind].
  destruct (_ <=? 3)%float; [reflexivity|].
  destruct (_ <=? 5)%float; [reflexivity|].
  destruct (_ <=? 7)%float; reflexivity.
Qed.

Lemma assessment_ignores_other_fields_witness :
  assessment (calculateOverallRisk (fun _ => nan)
                (updateRiskFactor "weather" "windSpeed" (JNum 80) initialState))
  = assessment (calculateOverallRisk (fun _ => nan) initialState).
Proof.
  apply (assessment_ignores_other_fields (fun _ => nan)
           "weather" "windSpeed" (JNum 80) initialState).
  - discriminate.
  - left. eexists. reflexivity.
Defined.

(** X5: an update of a [score] field replaces that sub-score, and only that
    one, in what [calculateOverallRisk] reads: the next evaluation stores
    the weighted sum with the new value in its place. *)
Theorem updateRiskFactor_score_recalculated
    (StringToNumber : string -> float) (st : State) (w a t g x : float) :
  sub_scores st w a t g ->
  (exists st' r,
     calculateOverallRisk StringToNumber
       (updateRiskFactor "weather" "score" (JNum x) st) = Some st' /\
     overallRisk st' = Some r /\ score r = weighted_sum x a t g) /\
  (exists st' r,
     calculateOverallRisk StringToNumber
       (updateRiskFactor "avalanche" "score" (JNum x) st) = Some st' /\
     overallRisk st' = Some r /\ score r = weighted_sum w x t g) /\
  (exists st' r,
     calculateOverallRisk StringToNumber
       (updateRiskFactor "terrain" "score" (JNum x) st) = Some st' /\
     overallRisk st' = Some r /\ score r = weighted_sum w a x g) /\
  (exists st' r,
     calculateOverallRisk StringToNumber
       (updateRiskFactor "group" "score" (JNum x) st) = Some st' /\
     overallRisk st' = Some r /\ score r = weighted_sum w a t x).
Proof.
  intros (Hw & Ha & Ht & Hg).
  assert (H1 : sub_scores (updateRiskFactor "weather" "score" (JNum x) st) x a t g).
  { repeat split; [apply sub_score_update_same|..];
      (apply sub_score_update_other; [discriminate|assumption]). }
  assert (H2 : sub_scores (updateRiskFactor "avalanche" "score" (JNum x) st) w x t g).
  { repeat split; [|apply sub_score_update_same|..];
      (apply sub_score_update_other; [discriminate|assumption]). }
  assert (H3 : sub_scores (updateRiskFactor "terrain" "score" (JNum x) st) w a x g).
  { repeat split; [| |apply sub_score_update_same|];
      (apply sub_score_update_other; [discriminate|assumption]). }
  assert (H4 : sub_scores (updateRiskFactor "group" "score" (JNum x) st) w a t x).
  { repeat split; [| | |apply sub_score_update_same];
      (apply sub_score_update_other; [discriminate|assumption]). }
  rewrite (calc_scores StringToNumber _ _ _ _ _ H1),
          (calc_scores StringToNumber _ _ _ _ _ H2),
          (calc_scores StringToNumber _ _ _ _ _ H3),
          (calc_scores StringToNumber _ _ _ _ _ H4).
  repeat split; do 2 eexists;
    (split; [reflexivity|]; split; [reflexivity|]; apply weighted_sum_code_order).
Qed.

Lemma updateRiskFactor_score_recalculated_witness :
  (exists st' r,
     calculateOverallRisk (fun _ => nan)
       (updateRiskFactor "weather" "score" (JNum 9) initialState) = Some st' /\
     overallRisk st' = Some r /\ score r = weighted_sum 9 7 5 4) /\
  (exists st' r,
     calculateOverallRisk (fun _ => nan)
       (updateRiskFactor "avalanche" "score" (JNum 9) initialState) = Some st' /\
     overallRisk st' = Some r /\ score r = weighted_sum 6 9 5 4) /\
  (exists st' r,
     calculateOverallRisk (fun _ => nan)
       (updateRiskFactor "terrain" "score" (JNum 9) initialState) = Some st' /\
     overallRisk st' = Some r /\ score r = weighted_sum 6 7 9 4) /\
  (exists st' r,
     calculateOverallRisk (fun _ => nan)
       (updateRiskFactor "group" "score" (JNum 9) initialState) = Some st' /\
     overallRisk st' = Some r /\ score r = weighted_sum 6 7 5 9).
Proof.
  apply (updateRiskFactor_score_recalculated (fun _ => nan) initialState 6 7 5 4 9).
  repeat split; eexists; (split; reflexivity).
Defined.

(** X6: the evaluation throws exactly when one of the four category
    records is missing. *)
Theorem calculateOverallRisk_throws_iff
    (StringToNumber : string -> float) (st : State) :
  calculateOverallRisk StringToNumber st = None <->
  exists c, c ∈ scored_categories /\ riskFactors st !! c = None.
Proof.
  unfold calculateOverallRisk, factor_score. split.
  - destruct (riskFactors st !! "weather") eqn:Hw;
      [|intros _; exists "weather"; split; [apply scored_categories_elem; tauto|assumption]].
    destruct (riskFactors st !! "avalanche") eqn:Ha;
      [|intros _; exists "avalanche"; split; [apply scored_categories_elem; tauto|assumption]].
    destruct (riskFactors st !! "terrain") eqn:Ht;
      [|intros _; exists "terrain"; split; [apply scored_categories_elem; tauto|assumption]].
    destruct (riskFactors st !! "group") eqn:Hg;
      [|intros _; exists "group"; split; [apply scored_categories_elem; tauto|assumption]].
    cbn [mbind option_bind].
    destruct (_ <=? 3)%float; [discriminate|].
    destruct (_ <=? 5)%float; [discriminate|].
    destruct (_ <=? 7)%float; discriminate.
  - intros (c & Hc & Hn).
    apply scored_categories_elem in Hc as [-> | [-> | [-> | ->]]]; rewrite Hn;
      repeat (destruct (riskFactors st !! _)); reflexivity.
Qed.

(** X7: a sub-score that is not a number makes the assessment the most
    severe one.  When one of the four scores converts to NaN (a missing
    [score] field does) and the evaluation returns, the score and the
    percentage are NaN, the tier is EXTREME with its color, and the
    recommendation is CRITICAL RISK. *)
Theorem nan_score_is_extreme
    (StringToNumber : string -> float) (st st' : State) (c : string) (x : float) :
  c ∈ scored_categories ->
  factor_score StringToNumber (riskFactors st) c = Some x ->
  is_nan x = true ->
  calculateOverallRisk StringToNumber st = Some st' ->
  exists r,
    overallRisk st' = Some r /\
    is_nan (score r) = true /\ level r = EXTREME /\ color r = "#dc2626" /\
    is_nan (percentage r) = true /\
    recommendation st' = Some recommendation_CRITICAL.
Proof.
  intros Hc Hx Hn. unfold calculateOverallRisk.
  destruct (factor_score StringToNumber (riskFactors st) "weather") as [w|] eqn:Hw;
    [|discriminate].
  destruct (factor_score StringToNumber (riskFactors st) "avalanche") as [a|] eqn:Ha;
    [|discriminate].
  destruct (factor_score StringToNumber (riskFactors st) "terrain") as [t|] eqn:Ht;
    [|discriminate].
  destruct (factor_score StringToNumber (riskFactors st) "group") as [g|] eqn:Hg;
    [|discriminate].
  cbn [mbind option_bind weather avalanche terrain group weights].
  assert (Hnan : (w * 0.3 + a * 0.35 + t * 0.2 + g * 0.15)%float = nan).
  { apply weighted_score_nan.
    apply scored_categories_elem in Hc as [-> | [-> | [-> | ->]]];
      [assert (x = w) by congruence|assert (x = a) by congruence
      |assert (x = t) by congruence|assert (x = g) by congruence];
      subst x; rewrite Hn; rewrite ?orb_true_r; reflexivity. }
  rewrite Hnan. intros Heq. injection Heq as <-. eexists. repeat split; reflexivity.
Qed.

Lemma nan_score_is_extreme_witness :
  exists r,
    overallRisk
      {| riskFactors := <["group" := ∅]> initialRiskFactors;
         overallRisk :=
           Some {| score := nan; level := EXTREME; color := "#dc2626";
                   percentage := nan |};
         recommendation := Some recommendation_CRITICAL |} = Some r /\
    is_nan (score r) = true /\ level r = EXTREME /\ color r = "#dc2626" /\
    is_nan (percentage r) = true /\
    recommendation
      {| riskFactors := <["group" := ∅]> initialRiskFactors;
         overallRisk :=
           Some {| score := nan; level := EXTREME; color := "#dc2626";
                   percentage := nan |};
         recommendation := Some recommendation_CRITICAL |}
    = Some recommendation_CRITICAL.
Proof.
  apply (nan_score_is_extreme (fun _ => nan)
           {| riskFactors := <["group" := ∅]> initialRiskFactors;
              overallRisk := None; recommendation := None |}
           _ "group" nan).
  - apply scored_categories_elem. tauto.
  - reflexivity.
  - reflexivity.
  - reflexivity.
Defined.

(** X8: the overall tier is never more severe than the most severe factor
    badge: with four numeric sub-scores, the rank of the stored tier is at
    most the largest rank among the tiers of the four sub-scores. *)
Theorem overall_tier_at_most_worst_factor
    (StringToNumber : string -> float) (st : State) (w a t g : float) :
  sub_scores st w a t g ->
  exists st' r,
    calculateOverallRisk StringToNumber st = Some st' /\
    overallRisk st' = Some r /\
    (level_rank (level r) <= worst_factor_rank w a t g)%nat /\
    color r = getRiskColor (score r).
Proof.
  intros H. rewrite (calc_scores StringToNumber st w a t g H).
  do 2 eexists. split; [reflexivity|]. split; [reflexivity|].
  cbn [level color score]. split; [apply tier_of_weighted_score_bound|].
  symmetry. apply getRiskColor_tier.
Qed.

Lemma overall_tier_at_most_worst_factor_witness :
  exists st' r,
    calculateOverallRisk (fun _ => nan) initialState = Some st' /\
    overallRisk st' = Some r /\
    (level_rank (level r) <= worst_factor_rank 6 7 5 4)%nat /\
    color r = getRiskColor (score r).
Proof.
  apply (overall_tier_at_most_worst_factor (fun _ => nan) initialState 6 7 5 4).
  repeat split; eexists; (split; reflexivity).
Defined.

(** X9: the weather glyph depends on three fields of the [weather] record
    only: an update of another category, or of another field of an existing
    [weather] record, leaves [getWeatherIcon] unchanged. *)
Theorem getWeatherIcon_frame
    (StringToNumber : string -> float)
    (category field : string) (value : jsval) (st : State) :
  category <> "weather" \/
  (is_Some (riskFactors st !! "weather") /\
   field <> "precipitation" /\ field <> "visibility" /\ field <> "windSpeed") ->
  getWeatherIcon StringToNumber (updateRiskFactor category field value st)
  = getWeatherIcon StringToNumber st.
Proof. apply glyph_update_other. Qed.

Lemma getWeatherIcon_frame_witness :
  getWeatherIcon (fun _ => nan)
    (updateRiskFactor "weather" "score" (JNum 1) initialState)
  = getWeatherIcon (fun _ => nan) initialState.
Proof.
  apply (getWeatherIcon_frame (fun _ => nan) "weather" "score" (JNum 1) initialState).
  right. split; [eexists; reflexivity|]. repeat split; discriminate.
Defined.

(** ** Rounding to integers, subtraction and negation *)

Section IntegerRounding.
Local Open Scope Z_scope.
Variables prec emax : Z.
Hypothesis Hprec : 1 < prec.
Hypothesis Hemax : prec < emax.

Abbreviation emin' := (SpecFloat.emin prec emax).
Abbreviation ebase' := (ebase_of prec emax).
Abbreviation rnd' := (rnd_of prec emax).
Abbreviation ord' := (ord_of prec emax).
Abbreviation valid' := (SpecFloat.valid_binary prec emax).
Abbreviation unit' := (2 ^ (- emin')).

Lemma prec_pos' : 0 < prec.
Proof. lia. Qed.

Lemma emin_neg : emin' <= -2.
Proof. pose proof (emin_eq prec emax). lia. Qed.

Lemma unit_pos : 0 < unit'.
Proof. apply pow2_pos. pose proof emin_neg. lia. Qed.

(** The integers below [2 ^ prec] in absolute value are floats. *)
Lemma rnd_pos_int_exact n :
  0 < n < 2 ^ prec -> rnd_pos_of prec emax (n * 2 ^ (- ebase')) = n * unit'.
Proof.
  intros [Hn0 Hn].
  pose proof emin_neg as Hemin. pose proof (emin_eq prec emax) as Hemin'.
  pose proof (ebase_eq prec emax) as Hebase.
  assert (Hlog : Z.log2 n < prec) by (apply Z.log2_lt_pow2; lia).
  pose proof (Z.log2_nonneg n) as Hlog0.
  unfold rnd_pos_of.
  assert (HE : rexp_of prec emax (n * 2 ^ (- ebase'))
               = Z.max (Z.log2 n + 1 - prec) emin').
  { rewrite (rexp_eq prec emax), Z.log2_mul_pow2 by lia. lia. }
  rewrite HE. remember (Z.max (Z.log2 n + 1 - prec) emin') as E eqn:HEq.
  assert (HE0 : emin' <= E <= 0) by lia.
  replace (n * 2 ^ (- ebase')) with ((n * 2 ^ (- E)) * 2 ^ (E - ebase')).
  2:{ rewrite <- Z.mul_assoc, <- pow2_split by lia. do 2 f_equal. lia. }
  rewrite rne_div_exact by lia.
  rewrite <- Z.mul_assoc, <- pow2_split by lia.
  replace (- E + (E - emin')) with (- emin') by lia.
  apply Z.min_l.
  assert (2 ^ prec * unit' <= 2 ^ (emax - emin')).
  { rewrite <- pow2_split by lia. apply pow2_le. lia. }
  pose proof unit_pos. nia.
Qed.

Lemma rnd_int_exact n :
  Z.abs n < 2 ^ prec -> rnd' (n * 2 ^ (- ebase')) = n * unit'.
Proof.
  intros Hn. pose proof prec_pos' as Hp.
  pose proof (ebase_eq prec emax) as Hebase. pose proof emin_neg as Hemin.
  assert (H2 : 0 < 2 ^ (- ebase')) by (apply pow2_pos; lia).
  destruct (Z.lt_trichotomy n 0) as [Hneg|[->|Hpos]].
  - replace (n * 2 ^ (- ebase')) with (- ((- n) * 2 ^ (- ebase'))) by lia.
    rewrite (rnd_opp prec emax), (rnd_of_pos prec emax Hp Hemax) by nia.
    rewrite rnd_pos_int_exact by lia. lia.
  - reflexivity.
  - rewrite (rnd_of_pos prec emax Hp Hemax) by nia.
    apply rnd_pos_int_exact. lia.
Qed.

Lemma binary_normalize_int n :
  Z.abs n < 2 ^ prec ->
  sf_is_finite (binary_normalize prec emax n 0 false) = true /\
  valid' (binary_normalize prec emax n 0 false) = true /\
  ord' (binary_normalize prec emax n 0 false) = n * unit'.
Proof.
  intros Hn. pose proof prec_pos' as Hp.
  pose proof (ebase_eq prec emax) as Hebase. pose proof emin_neg as Hemin.
  destruct (binary_normalize_ord prec emax Hp Hemax n 0 false) as (Hnan & Hv & Ho);
    [lia|].
  replace (0 - ebase') with (- ebase') in Ho by lia.
  rewrite rnd_int_exact in Ho by exact Hn.
  split; [|split; [exact Hv|exact Ho]].
  destruct (sf_is_finite _) eqn:Hf; [reflexivity|exfalso].
  assert (2 ^ prec * unit' <= 2 ^ (emax - emin')).
  { rewrite <- pow2_split by lia. apply pow2_le. lia. }
  pose proof unit_pos.
  destruct (ord_infinite prec emax _ Hnan Hf) as [[_ Hom]|[_ Hom]];
    rewrite Ho in Hom; nia.
Qed.

Lemma ord_finite_signed s m e :
  ord' (S754_finite s m e) = cond_Zopp s (Zpos m) * 2 ^ (e - emin').
Proof. destruct s; simpl; lia. Qed.

(** The integer image of a float rounded to an integer. *)
Lemma sf_round_ord x :
  valid' x = true -> sf_is_finite x = true ->
  sf_is_finite (sf_round_of prec emax x) = true /\
  valid' (sf_round_of prec emax x) = true /\
  ord' (sf_round_of prec emax x)
  = (ord' x + 2 ^ (- emin' - 1)) / unit' * unit'.
Proof.
  intros Hx Fx. pose proof prec_pos' as Hp. pose proof emin_neg as Hemin.
  pose proof unit_pos as HU.
  assert (Hhalf : 0 <= 2 ^ (- emin' - 1) < unit').
  { split; [apply Z.lt_le_incl, pow2_pos; lia|apply pow2_lt; lia]. }
  destruct x as [s|s| |s m e]; try discriminate.
  - simpl. rewrite Z.div_small by lia. repeat split; lia.
  - simpl in Hx.
    destruct (bounded_facts prec emax Hp m e Hx) as (He & _ & Hm & _).
    rewrite ord_finite_signed.
    remember (cond_Zopp s (Zpos m)) as a eqn:Ha.
    assert (Hab : - 2 ^ prec < a < 2 ^ prec) by (subst a; destruct s; simpl; lia).
    unfold sf_round_of. destruct (Z.leb_spec 0 e) as [He0|He0].
    + split; [reflexivity|]. split; [exact Hx|]. rewrite ord_finite_signed, <- Ha.
      replace (e - emin') with (e + - emin') by lia.
      rewrite pow2_split, Z.mul_assoc by lia.
      rewrite Z.div_add_l, (Z.div_small (2 ^ (- emin' - 1))) by lia. lia.
    + rewrite <- Ha. rewrite Z.shiftr_div_pow2 by lia.
      assert (HY : 0 < 2 ^ (- e - 1)) by (apply pow2_pos; lia).
      assert (H2Y : 2 ^ (- e) = 2 * 2 ^ (- e - 1)).
      { replace (- e) with (1 + (- e - 1)) at 1 by lia.
        now rewrite pow2_split by lia. }
      assert (H4Y : 2 ^ (1 - e) = 2 * 2 ^ (- e)).
      { replace (1 - e) with (1 + - e) by lia. now rewrite pow2_split by lia. }
      assert (HS : 0 < 2 ^ (e - emin')) by (apply pow2_pos; lia).
      assert (Hn : (a * 2 ^ (e - emin') + 2 ^ (- emin' - 1)) / unit'
                   = (2 * a + 2 ^ (- e)) / 2 ^ (1 - e)).
      { replace (2 ^ (- emin' - 1)) with (2 ^ (- e - 1) * 2 ^ (e - emin')).
        2:{ rewrite <- pow2_split by lia. f_equal. lia. }
        replace unit' with (2 ^ (- e) * 2 ^ (e - emin')).
        2:{ rewrite <- pow2_split by lia. f_equal. lia. }
        rewrite <- Z.mul_add_distr_r, Z.div_mul_cancel_r by lia.
        rewrite H4Y.
        replace (2 * a + 2 ^ (- e)) with (2 * (a + 2 ^ (- e - 1))) by lia.
        rewrite Z.div_mul_cancel_l by lia. reflexivity. }
      rewrite Hn. remember ((2 * a + 2 ^ (- e)) / 2 ^ (1 - e)) as n eqn:Hndef.
      assert (Hnb : Z.abs n < 2 ^ prec).
      { assert (H1 : 2 ^ (1 - e) * n <= 2 * a + 2 ^ (- e)).
        { subst n. apply Z.mul_div_le. lia. }
        assert (H3 : 2 * a + 2 ^ (- e) < 2 ^ (1 - e) * (n + 1)).
        { subst n. rewrite Z.mul_add_distr_l, Z.mul_1_r.
          pose proof (Z.mod_pos_bound (2 * a + 2 ^ (- e)) (2 ^ (1 - e)) ltac:(lia)).
          pose proof (Z.div_mod (2 * a + 2 ^ (- e)) (2 ^ (1 - e)) ltac:(lia)). lia. }
        assert (0 < 2 ^ prec) by (apply pow2_pos; lia). nia. }
      destruct (Z.eqb_spec n 0) as [->|Hn0].
      * repeat split.
      * apply binary_normalize_int. exact Hnb.
Qed.

Lemma sf_floor_ord x :
  valid' x = true -> sf_is_finite x = true ->
  sf_is_finite (sf_floor_of prec emax x) = true /\
  valid' (sf_floor_of prec emax x) = true /\
  ord' (sf_floor_of prec emax x) = ord' x / unit' * unit'.
Proof.
  intros Hx Fx. pose proof prec_pos' as Hp. pose proof emin_neg as Hemin.
  pose proof unit_pos as HU.
  destruct x as [s|s| |s m e]; try discriminate.
  - simpl. repeat split.
  - simpl in Hx.
    destruct (bounded_facts prec emax Hp m e Hx) as (He & _ & Hm & _).
    rewrite ord_finite_signed.
    remember (cond_Zopp s (Zpos m)) as a eqn:Ha.
    assert (Hab : - 2 ^ prec < a < 2 ^ prec) by (subst a; destruct s; simpl; lia).
    unfold sf_floor_of. destruct (Z.leb_spec 0 e) as [He0|He0].
    + split; [reflexivity|]. split; [exact Hx|]. rewrite ord_finite_signed, <- Ha.
      replace (e - emin') with (e + - emin') by lia.
      rewrite pow2_split, Z.mul_assoc by lia.
      rewrite Z.div_mul by lia. reflexivity.
    + rewrite <- Ha. rewrite Z.shiftr_div_pow2 by lia.
      assert (HY : 0 < 2 ^ (- e)) by (apply pow2_pos; lia).
      assert (HS : 0 < 2 ^ (e - emin')) by (apply pow2_pos; lia).
      assert (Hn : a * 2 ^ (e - emin') / unit' = a / 2 ^ (- e)).
      { replace unit' with (2 ^ (- e) * 2 ^ (e - emin')).
        2:{ rewrite <- pow2_split by lia. f_equal. lia. }
        now rewrite Z.div_mul_cancel_r by lia. }
      rewrite Hn. remember (a / 2 ^ (- e)) as n eqn:Hndef.
      assert (Hnb : Z.abs n < 2 ^ prec).
      { assert (H1 : 2 ^ (- e) * n <= a) by (subst n; apply Z.mul_div_le; lia).
        assert (H3 : a < 2 ^ (- e) * (n + 1)).
        { subst n. rewrite Z.mul_add_distr_l, Z.mul_1_r.
          pose proof (Z.mod_pos_bound a (2 ^ (- e)) ltac:(lia)).
          pose proof (Z.div_mod a (2 ^ (- e)) ltac:(lia)). lia. }
        assert (0 < 2 ^ prec) by (apply pow2_pos; lia). nia. }
      destruct (Z.eqb_spec n 0) as [->|Hn0].
      * repeat split.
      * apply binary_normalize_int. exact Hnb.
Qed.

(** Subtraction is the sum with the opposite; negation reverses the order. *)
Lemma SFsub_add_opp x y :
  SFsub prec emax x y = SFadd prec emax x (SFopp y).
Proof.
  destruct x as [[|]|[|]| |sx mx ex], y as [[|]|[|]| |sy my ey]; try reflexivity.
  cbn [SFsub SFadd SFopp]. f_equal.
  destruct sy; simpl; lia.
Qed.

Lemma SFopp_ord x : ord' (SFopp x) = - ord' x.
Proof. destruct x as [s|[|]| |[|] m e]; simpl; lia. Qed.

Lemma SFopp_valid x : valid' (SFopp x) = valid' x.
Proof. now destruct x. Qed.

Lemma SFopp_nan x : sf_is_nan (SFopp x) = sf_is_nan x.
Proof. now destruct x. Qed.

(** Below a power of two [2 ^ (prec - 1) * 2 ^ k] the largest float is
    [(2 ^ prec - 1) * 2 ^ (k - 1)]. *)
Lemma ord_below_pow2 x k :
  valid' x = true -> sf_is_finite x = true -> emin' < k ->
  ord' x < 2 ^ (prec - 1) * 2 ^ (k - emin') ->
  ord' x <= (2 ^ prec - 1) * 2 ^ (k - 1 - emin').
Proof.
  intros Hx Fx Hk Hlt. pose proof prec_pos' as Hp.
  assert (HP : 0 < 2 ^ (prec - 1)) by (apply pow2_pos; lia).
  assert (HPP : 2 ^ prec = 2 * 2 ^ (prec - 1)).
  { replace prec with (1 + (prec - 1)) at 1 by lia. now rewrite pow2_split by lia. }
  assert (HK : 0 < 2 ^ (k - 1 - emin')) by (apply pow2_pos; lia).
  assert (HKK : 2 ^ (k - emin') = 2 * 2 ^ (k - 1 - emin')).
  { replace (k - emin') with (1 + (k - 1 - emin')) by lia.
    now rewrite pow2_split by lia. }
  pose proof (omega_pos prec emax Hp Hemax) as Hom.
  destruct x as [s|s| |[|] m e]; try discriminate; simpl in Hlt, Hx |- *.
  - nia.
  - pose proof (ord_finite_bound prec emax Hp Hemax m e Hx). nia.
  - destruct (bounded_facts prec emax Hp m e Hx) as (He & _ & Hm & Hn).
    assert (HS : 0 < 2 ^ (e - emin')) by (apply pow2_pos; lia).
    destruct (Z_lt_le_dec e k) as [Hek|Hek].
    + assert (2 ^ (e - emin') <= 2 ^ (k - 1 - emin')) by (apply pow2_le; lia). nia.
    + specialize (Hn ltac:(lia)).
      assert (2 ^ (k - emin') <= 2 ^ (e - emin')) by (apply pow2_le; lia). nia.
Qed.
End IntegerRounding.

(** ** JavaScript numbers: integers, rounding and subtraction *)

Section Numbers64.
Local Open Scope float_scope.

Lemma prec_gt_1 : (1 < prec)%Z.
Proof. reflexivity. Qed.

Lemma num_finite_nonnan x : num_finite x = true -> is_nan x = false.
Proof.
  unfold num_finite. rewrite is_nan_spec. now destruct (Prim2SF x).
Qed.

Lemma leb_ord64 a b :
  is_nan a = false -> is_nan b = false ->
  (a <=? b) = (ord64 a <=? ord64 b)%Z.
Proof.
  intros Na Nb. rewrite is_nan_spec in Na, Nb. rewrite FloatAxioms.leb_spec.
  apply (SFleb_ord prec emax prec_pos prec_lt_emax);
    try apply Prim2SF_valid; assumption.
Qed.

Lemma ltb_ord64 a b :
  is_nan a = false -> is_nan b = false ->
  (a <? b) = (ord64 a <? ord64 b)%Z.
Proof.
  intros Na Nb. rewrite is_nan_spec in Na, Nb. rewrite FloatAxioms.ltb_spec.
  apply (SFltb_ord prec emax prec_pos prec_lt_emax);
    try apply Prim2SF_valid; assumption.
Qed.

Lemma leb_ord64_le a b : (a <=? b) = true -> (ord64 a <= ord64 b)%Z.
Proof.
  intros H. destruct (leb_nonnan a b H) as [Na Nb].
  rewrite (leb_ord64 a b Na Nb) in H. now apply Z.leb_le.
Qed.

Lemma leb_of_ord64 a b :
  num_finite a = true -> num_finite b = true ->
  (ord64 a <= ord64 b)%Z -> (a <=? b) = true.
Proof.
  intros Fa Fb H.
  rewrite (leb_ord64 a b (num_finite_nonnan a Fa) (num_finite_nonnan b Fb)).
  now apply Z.leb_le.
Qed.

Lemma leb_finite_l lo x hi :
  num_finite lo = true -> num_finite hi = true ->
  (lo <=? x) = true -> (x <=? hi) = true -> num_finite x = true.
Proof. apply between_finite. Qed.

Lemma ebase64_nonpos : (ebase_of prec emax <= 0)%Z.
Proof. unfold ebase_of. change (SpecFloat.emin prec emax) with (-1074)%Z. lia. Qed.

Lemma Prim2SF_Math_round x :
  Prim2SF (Math_round x) = sf_round_of prec emax (Prim2SF x).
Proof.
  unfold Math_round, sf_round_of.
  destruct (Prim2SF x) as [s|s| |s m e] eqn:E; try exact E.
  destruct (0 <=? e)%Z; [exact E|].
  destruct (_ =? 0)%Z; [now destruct s|].
  apply Prim2SF_SF2Prim.
  apply (binary_normalize_ord prec emax prec_pos prec_lt_emax), ebase64_nonpos.
Qed.

Lemma Prim2SF_Math_floor x :
  Prim2SF (Math_floor x) = sf_floor_of prec emax (Prim2SF x).
Proof.
  unfold Math_floor, sf_floor_of.
  destruct (Prim2SF x) as [s|s| |s m e] eqn:E; try exact E.
  destruct (0 <=? e)%Z; [exact E|].
  destruct (_ =? 0)%Z; [reflexivity|].
  apply Prim2SF_SF2Prim.
  apply (binary_normalize_ord prec emax prec_pos prec_lt_emax), ebase64_nonpos.
Qed.

(** [Math.round x] is [floor (x + 1/2)], and [Math.floor x] is [floor x]. *)
Lemma Math_round_ord x :
  num_finite x = true ->
  num_finite (Math_round x) = true /\
  ord64 (Math_round x) = ((ord64 x + 2 ^ 1073) / 2 ^ 1074 * 2 ^ 1074)%Z.
Proof.
  intros Fx. unfold num_finite, ord64. rewrite Prim2SF_Math_round.
  destruct (sf_round_ord prec emax prec_gt_1 prec_lt_emax (Prim2SF x)
              (Prim2SF_valid x) Fx) as (H1 & _ & H3).
  split; [exact H1|exact H3].
Qed.

Lemma Math_floor_ord x :
  num_finite x = true ->
  num_finite (Math_floor x) = true /\
  ord64 (Math_floor x) = (ord64 x / 2 ^ 1074 * 2 ^ 1074)%Z.
Proof.
  intros Fx. unfold num_finite, ord64. rewrite Prim2SF_Math_floor.
  destruct (sf_floor_ord prec emax prec_gt_1 prec_lt_emax (Prim2SF x)
              (Prim2SF_valid x) Fx) as (H1 & _ & H3).
  split; [exact H1|exact H3].
Qed.

Lemma unit64_pos : (0 < 2 ^ 1074)%Z.
Proof. reflexivity. Qed.

Lemma half_unit64 : (2 * 2 ^ 1073 = 2 ^ 1074)%Z.
Proof. reflexivity. Qed.

Lemma num_integer_spec x :
  num_integer x = true <->
  num_finite x = true /\ (ord64 x / 2 ^ 1074 * 2 ^ 1074 = ord64 x)%Z.
Proof.
  unfold num_integer. rewrite andb_true_iff, Z.eqb_eq.
  pose proof unit64_pos as HU.
  pose proof (Z.div_mod (ord64 x) (2 ^ 1074) ltac:(lia)) as Hdm.
  split; intros [H1 H2]; (split; [exact H1|]); lia.
Qed.

Lemma Math_round_integer x :
  num_finite x = true -> num_integer (Math_round x) = true.
Proof.
  intros Fx. destruct (Math_round_ord x Fx) as [H1 H2].
  apply num_integer_spec. split; [exact H1|]. rewrite H2.
  now rewrite Z.div_mul by (pose proof unit64_pos; lia).
Qed.

Lemma Math_round_mono x y :
  num_finite x = true -> num_finite y = true ->
  (x <=? y) = true -> (Math_round x <=? Math_round y) = true.
Proof.
  intros Fx Fy H. apply leb_ord64_le in H.
  destruct (Math_round_ord x Fx) as [Fx' Hx].
  destruct (Math_round_ord y Fy) as [Fy' Hy].
  apply leb_of_ord64; try assumption. rewrite Hx, Hy.
  pose proof unit64_pos as HU.
  apply Z.mul_le_mono_nonneg_r; [lia|]. apply Z.div_le_mono; lia.
Qed.

(** Rounding stays between integral bounds. *)
Lemma Math_round_between lo hi x :
  num_integer lo = true -> num_integer hi = true ->
  (lo <=? x) = true -> (x <=? hi) = true ->
  (lo <=? Math_round x) = true /\ (Math_round x <=? hi) = true /\
  num_integer (Math_round x) = true.
Proof.
  intros Ilo Ihi H1 H2.
  apply num_integer_spec in Ilo as [Flo Hlo]. apply num_integer_spec in Ihi as [Fhi Hhi].
  assert (Fx : num_finite x = true) by (apply (between_finite lo x hi); assumption).
  destruct (Math_round_ord x Fx) as [Fr Hr].
  apply leb_ord64_le in H1, H2.
  pose proof unit64_pos as HU. pose proof half_unit64 as HH.
  remember (ord64 lo / 2 ^ 1074)%Z as L. remember (ord64 hi / 2 ^ 1074)%Z as H.
  assert (HL : (L <= (ord64 x + 2 ^ 1073) / 2 ^ 1074)%Z).
  { apply Z.div_le_lower_bound; lia. }
  assert (HH' : ((ord64 x + 2 ^ 1073) / 2 ^ 1074 < H + 1)%Z).
  { apply Z.div_lt_upper_bound; lia. }
  repeat split.
  - apply leb_of_ord64; try assumption. rewrite Hr, <- Hlo. nia.
  - apply leb_of_ord64; try assumption. rewrite Hr, <- Hhi. nia.
  - now apply Math_round_integer.
Qed.

(** The floor of a number from 0 up to a bound below the length of a list
    names an element of the list. *)
Lemma array_get_floor {A : Type} (l : list A) x hi :
  (0 <=? x) = true -> (x <=? hi) = true -> num_finite hi = true ->
  (ord64 hi < Z.of_nat (length l) * 2 ^ 1074)%Z ->
  exists v, array_get l (Math_floor x) = Some v /\ v ∈ l.
Proof.
  intros H0 Hhi Fhi Hlen.
  assert (Fx : num_finite x = true) by (apply (between_finite 0 x hi); auto).
  destruct (Math_floor_ord x Fx) as [Ff Ho].
  apply leb_ord64_le in H0, Hhi. change (ord64 0) with 0%Z in H0.
  pose proof unit64_pos as HU.
  assert (Hq0 : (0 <= ord64 x / 2 ^ 1074)%Z) by (apply Z.div_pos; lia).
  assert (Hq1 : (ord64 x / 2 ^ 1074 < Z.of_nat (length l))%Z).
  { apply Z.div_lt_upper_bound; lia. }
  assert (Hidx : array_index (Math_floor x)
                 = Some (Z.to_nat (ord64 x / 2 ^ 1074))).
  { unfold array_index.
    assert (Hi : num_integer (Math_floor x) = true).
    { apply num_integer_spec. split; [exact Ff|]. rewrite Ho.
      now rewrite Z.div_mul by lia. }
    rewrite Hi, Ho. simpl.
    replace (0 <=? ord64 x / 2 ^ 1074 * 2 ^ 1074)%Z with true
      by (symmetry; apply Z.leb_le; nia).
    now rewrite Z.div_mul by lia. }
  unfold array_get. rewrite Hidx. simpl.
  destruct (lookup_lt_is_Some_2 l (Z.to_nat (ord64 x / 2 ^ 1074))) as [v Hv]; [lia|].
  exists v. split; [exact Hv|]. eapply list_elem_of_lookup_2; eauto.
Qed.

Lemma sub_add_opp x y : x - y = x + - y.
Proof.
  apply Prim2SF_inj.
  rewrite FloatAxioms.sub_spec, FloatAxioms.add_spec, FloatAxioms.opp_spec.
  apply SFsub_add_opp.
Qed.

Lemma opp_finite x : num_finite (- x) = num_finite x.
Proof.
  unfold num_finite. rewrite FloatAxioms.opp_spec. now destruct (Prim2SF x).
Qed.

Lemma opp_leb a b : (a <=? b) = true -> (- b <=? - a) = true.
Proof.
  intros H. destruct (leb_nonnan a b H) as [Na Nb].
  apply leb_ord64_le in H.
  assert (Na' : is_nan (- a) = false).
  { rewrite is_nan_spec in *. rewrite FloatAxioms.opp_spec. now rewrite SFopp_nan. }
  assert (Nb' : is_nan (- b) = false).
  { rewrite is_nan_spec in *. rewrite FloatAxioms.opp_spec. now rewrite SFopp_nan. }
  rewrite (leb_ord64 _ _ Nb' Na'). apply Z.leb_le.
  unfold ord64 in *. rewrite !FloatAxioms.opp_spec, !SFopp_ord. lia.
Qed.

(** Interval arithmetic for differences. *)
Lemma sub_interval la a ha lb b hb :
  num_finite la = true -> num_finite ha = true ->
  num_finite lb = true -> num_finite hb = true ->
  (la <=? a) = true -> (a <=? ha) = true ->
  (lb <=? b) = true -> (b <=? hb) = true ->
  (la - hb <=? a - b) = true /\ (a - b <=? ha - lb) = true.
Proof.
  intros Fla Fha Flb Fhb H1 H2 H3 H4. rewrite !sub_add_opp.
  apply add_interval; try assumption; try (now rewrite opp_finite);
    now apply opp_leb.
Qed.

(** A result of [Math.random] is at most the largest number below 1. *)
Lemma unit_draw_bounds r :
  unit_draw r -> (0 <=? r) = true /\ (r <=? 0.99999999999999989) = true.
Proof.
  intros [H0 H1]. split; [exact H0|].
  destruct (leb_nonnan 0 r H0) as [_ Nr].
  assert (Fr : num_finite r = true).
  { apply (between_finite 0 r 1); try reflexivity; [exact H0|now apply ltb_leb]. }
  rewrite (ltb_ord64 r 1 Nr eq_refl) in H1. apply Z.ltb_lt in H1.
  assert (E1 : ord64 1 = (2 ^ (prec - 1) * 2 ^ (-52 - SpecFloat.emin prec emax))%Z)
    by (vm_compute; reflexivity).
  assert (E2 : ord64 0.99999999999999989
               = ((2 ^ prec - 1) * 2 ^ (-52 - 1 - SpecFloat.emin prec emax))%Z)
    by (vm_compute; reflexivity).
  rewrite E1 in H1.
  apply leb_of_ord64; [exact Fr|reflexivity|]. rewrite E2.
  apply (ord_below_pow2 prec emax prec_gt_1 prec_lt_emax (Prim2SF r) (-52));
    [apply Prim2SF_valid|exact Fr|reflexivity|exact H1].
Qed.
End Numbers64.

(** ** Intervals of numbers *)

Section Intervals.
Local Open Scope float_scope.

Lemma leb_refl x : is_nan x = false -> (x <=? x) = true.
Proof. intros N. rewrite (leb_ord64 x x N N). apply Z.leb_le. lia. Qed.

Lemma leb_ltb_trans a b c :
  (a <=? b) = true -> (b <? c) = true -> (a <? c) = true.
Proof.
  intros H1 H2.
  destruct (leb_nonnan a b H1) as [Na Nb]. destruct (ltb_nonnan b c H2) as [_ Nc].
  rewrite (leb_ord64 a b Na Nb) in H1. rewrite (ltb_ord64 b c Nb Nc) in H2.
  rewrite (ltb_ord64 a c Na Nc). apply Z.leb_le in H1. apply Z.ltb_lt in H2.
  apply Z.ltb_lt. lia.
Qed.

Lemma ltb_false_leb a b :
  is_nan a = false -> is_nan b = false -> (a <? b) = false -> (b <=? a) = true.
Proof.
  intros Na Nb H. rewrite (ltb_ord64 a b Na Nb) in H.
  rewrite (leb_ord64 b a Nb Na). apply Z.ltb_ge in H. now apply Z.leb_le.
Qed.

Lemma num_between_refl c : is_nan c = false -> num_between c c c.
Proof. intros N. split; now apply leb_refl. Qed.

Lemma num_between_finite lo x hi :
  num_finite lo = true -> num_finite hi = true ->
  num_between lo x hi -> num_finite x = true.
Proof. intros Flo Fhi [H1 H2]. now apply (between_finite lo x hi). Qed.

Lemma num_between_widen lo' lo x hi hi' :
  (lo' <=? lo) = true -> (hi <=? hi') = true ->
  num_between lo x hi -> num_between lo' x hi'.
Proof.
  intros Hl Hh [H1 H2]. split.
  - now apply leb_trans with lo.
  - now apply leb_trans with hi.
Qed.

Lemma num_between_mul lo x hi c :
  num_finite c = true -> (0 <? c) = true ->
  num_between lo x hi -> num_between (lo * c) (x * c) (hi * c).
Proof. intros Fc Pc [H1 H2]. now apply mul_interval. Qed.

Lemma num_between_add la a ha lb b hb :
  num_finite la = true -> num_finite ha = true ->
  num_finite lb = true -> num_finite hb = true ->
  num_between la a ha -> num_between lb b hb ->
  num_between (la + lb) (a + b) (ha + hb).
Proof. intros Fla Fha Flb Fhb [H1 H2] [H3 H4]. now apply add_interval. Qed.

Lemma num_between_sub la a ha lb b hb :
  num_finite la = true -> num_finite ha = true ->
  num_finite lb = true -> num_finite hb = true ->
  num_between la a ha -> num_between lb b hb ->
  num_between (la - hb) (a - b) (ha - lb).
Proof. intros Fla Fha Flb Fhb [H1 H2] [H3 H4]. now apply sub_interval. Qed.

Lemma num_between_round lo x hi :
  num_integer lo = true -> num_integer hi = true ->
  num_between lo x hi -> whole_between lo (Math_round x) hi.
Proof.
  intros Il Ih [H1 H2].
  destruct (Math_round_between lo hi x Il Ih H1 H2) as (H3 & H4 & H5).
  repeat split; assumption.
Qed.

Lemma unit_draw_between r : unit_draw r -> num_between 0 r 0.99999999999999989.
Proof. apply unit_draw_bounds. Qed.

(** Subtracting zero does not increase a number. *)
Lemma sub_zero_le x : num_finite x = true -> (x - 0 <=? x) = true.
Proof.
  intros Fx. rewrite sub_add_opp.
  destruct (SFadd_ord prec emax prec_pos prec_lt_emax (Prim2SF x) (Prim2SF (- 0))
              (Prim2SF_valid x) (Prim2SF_valid (- 0)) Fx eq_refl) as (Hn & _ & Ho).
  change (ord_of prec emax (Prim2SF (- 0))) with 0%Z in Ho. rewrite Z.add_0_r in Ho.
  rewrite (ord_scale_exact prec emax prec_pos prec_lt_emax _ (Prim2SF_valid x) Fx) in Ho.
  rewrite <- FloatAxioms.add_spec in Hn, Ho. rewrite <- is_nan_spec in Hn.
  rewrite (leb_ord64 _ _ Hn (num_finite_nonnan x Fx)). apply Z.leb_le.
  unfold ord64. lia.
Qed.
End Intervals.

(** ** The generated weather data *)

Section GeneratorFacts.
Local Open Scope float_scope.
Import WeatherDashboard.
Variable random : nat -> float.
Variable now : nat -> float.
Variable getHours : float -> float.

Abbreviation generate := (generateMockWeatherData random now getHours).
Abbreviation entry := (forecast_entry random now getHours).
Abbreviation baseTemp_of w := (random (draws w) * 20 - 5).

Lemma conditions_length : array_length conditions = 5.
Proof. reflexivity. Qed.

Lemma generate_current loc w :
  current (fst (generate loc w))
  = {| Current.temperature := Math_round (baseTemp_of w);
       Current.condition :=
         array_get conditions (Math_floor (random (1 + draws w) * 5));
       Current.humidity := Math_round (random (2 + draws w) * 40 + 40);
       Current.windSpeed := Math_round (random (3 + draws w) * 25 + 5);
       Current.windDirection :=
         array_get directions (Math_floor (random (4 + draws w) * 8));
       Current.visibility := Math_round (random (5 + draws w) * 20 + 10);
       Current.pressure := Math_round (random (6 + draws w) * 50 + 980);
       Current.feelsLike :=
         Math_round (baseTemp_of w - random (7 + draws w) * 5) |}.
Proof. reflexivity. Qed.

Lemma generate_forecast loc w :
  forecast (fst (generate loc w))
  = fst (array_from (entry (baseTemp_of w)) 0 24
           {| draws := 8 + draws w; reads := reads w |}).
Proof. reflexivity. Qed.

Lemma generate_risks loc w :
  exists ra rv rw,
    risks (fst (generate loc w))
    = {| Risks.avalanche := if 0.7 <? ra then "moderate" else "low";
         Risks.frost := if baseTemp_of w <? 0 then "high" else "low";
         Risks.visibility := if 0.8 <? rv then "poor" else "good";
         Risks.wind := if 0.6 <? rw then "strong" else "normal" |}.
Proof. do 3 eexists. reflexivity. Qed.

Lemma entry_fields b i w :
  Hourly.temperature (fst (entry b i w))
  = Math_round (b + (random (draws w) - 0.5) * 8) /\
  Hourly.condition (fst (entry b i w))
  = array_get conditions (Math_floor (random (1 + draws w) * 5)) /\
  Hourly.precipitation (fst (entry b i w)) = random (2 + draws w) * 5 /\
  snd (entry b i w) = {| draws := 3 + draws w; reads := 1 + reads w |}.
Proof. repeat split; reflexivity. Qed.

Lemma array_from_length {A : Type} (f : nat -> Sim A) count i w :
  length (fst (array_from f i count w)) = count.
Proof.
  revert i w. induction count as [|c IH]; intros i w; [reflexivity|].
  cbn [array_from]. unfold mbind, sim_bind, mret, sim_ret. cbn [fst snd length].
  now rewrite IH.
Qed.

Lemma array_from_Forall {A : Type} (f : nat -> Sim A) (P : A -> Prop) :
  (forall i w, P (fst (f i w))) ->
  forall count i w, Forall P (fst (array_from f i count w)).
Proof.
  intros Hf count. induction count as [|c IH]; intros i w.
  - constructor.
  - cbn [array_from]. unfold mbind, sim_bind, mret, sim_ret. cbn [fst snd].
    constructor; [apply Hf|apply IH].
Qed.

Lemma array_from_world {A : Type} (f : nat -> Sim A) (d r : nat) :
  (forall i w, snd (f i w) = {| draws := d + draws w; reads := r + reads w |}) ->
  forall count i w,
    snd (array_from f i count w)
    = {| draws := count * d + draws w; reads := count * r + reads w |}.
Proof.
  intros Hf count. induction count as [|c IH]; intros i w.
  - now destruct w.
  - cbn [array_from]. unfold mbind, sim_bind, mret, sim_ret. cbn [fst snd].
    rewrite IH, Hf. cbn [draws reads]. f_equal; lia.
Qed.

Hypothesis Hdraw : forall n, unit_draw (random n).

Ltac bound :=
  lazymatch goal with
  | |- num_between _ (_ + _) _ =>
      eapply num_between_add; [ | | | | bound | bound]; reflexivity
  | |- num_between _ (_ - _) _ =>
      eapply num_between_sub; [ | | | | bound | bound]; reflexivity
  | |- num_between _ (_ * _) _ =>
      eapply num_between_mul; [ | | bound]; reflexivity
  | |- num_between _ (random _) _ => apply unit_draw_between, Hdraw
  | |- num_between _ _ _ => apply num_between_refl; reflexivity
  end.

Ltac range :=
  apply num_between_round;
    [reflexivity|reflexivity
    |eapply num_between_widen; [ | |bound]; reflexivity].

Lemma baseTemp_between w : num_between (-5) (baseTemp_of w) 15.
Proof. eapply num_between_widen; [ | |bound]; reflexivity. Qed.

Lemma baseTemp_finite w : num_finite (baseTemp_of w) = true.
Proof.
  apply (num_between_finite (-5) _ 15); [reflexivity|reflexivity|].
  apply baseTemp_between.
Qed.

Lemma current_ranges loc w :
  let c := current (fst (generate loc w)) in
  whole_between (-5) (Current.temperature c) 15 /\
  whole_between 40 (Current.humidity c) 80 /\
  whole_between 5 (Current.windSpeed c) 30 /\
  whole_between 10 (Current.visibility c) 30 /\
  whole_between 980 (Current.pressure c) 1030 /\
  whole_between (-10) (Current.feelsLike c) 15.
Proof.
  rewrite generate_current.
  cbn [Current.temperature Current.humidity Current.windSpeed Current.visibility
       Current.pressure Current.feelsLike].
  do 5 (split; [range|]). range.
Qed.

Lemma feelsLike_le loc w :
  let c := current (fst (generate loc w)) in
  (Current.feelsLike c <=? Current.temperature c) = true.
Proof.
  rewrite generate_current. cbn [Current.temperature Current.feelsLike].
  pose proof (baseTemp_finite w) as Fb.
  assert (Hs : num_between (baseTemp_of w - 4.9999999999999991)
                 (baseTemp_of w - random (7 + draws w) * 5) (baseTemp_of w - 0)).
  { eapply num_between_sub; try exact Fb; try reflexivity.
    - apply num_between_refl, num_finite_nonnan, Fb.
    - eapply num_between_widen; [ | |bound]; reflexivity. }
  assert (Hr : num_between (-10) (baseTemp_of w - random (7 + draws w) * 5) 15)
    by (eapply num_between_widen; [ | |bound]; reflexivity).
  apply Math_round_mono; [|exact Fb|].
  - apply (num_between_finite (-10) _ 15); [reflexivity|reflexivity|exact Hr].
  - eapply leb_trans; [apply Hs|]. now apply sub_zero_le.
Qed.

Lemma drawn_condition n :
  exists c, array_get conditions (Math_floor (random n * 5)) = Some c /\
            c ∈ conditions.
Proof.
  assert (H : num_between (0 * 5) (random n * 5) (0.99999999999999989 * 5)) by bound.
  destruct H as [H1 H2].
  apply (array_get_floor conditions (random n * 5) (0.99999999999999989 * 5));
    [exact H1|exact H2|reflexivity|reflexivity].
Qed.

Lemma drawn_direction n :
  exists c, array_get directions (Math_floor (random n * 8)) = Some c /\
            c ∈ directions.
Proof.
  assert (H : num_between (0 * 8) (random n * 8) (0.99999999999999989 * 8)) by bound.
  destruct H as [H1 H2].
  apply (array_get_floor directions (random n * 8) (0.99999999999999989 * 8));
    [exact H1|exact H2|reflexivity|reflexivity].
Qed.

Lemma entry_ranges w i j :
  let h := fst (entry (baseTemp_of w) i j) in
  whole_between (-9) (Hourly.temperature h) 19 /\
  (exists c, Hourly.condition h = Some c /\ c ∈ conditions) /\
  (0 <=? Hourly.precipitation h) = true /\ (Hourly.precipitation h <? 5) = true.
Proof.
  destruct (entry_fields (baseTemp_of w) i j) as (Ht & Hc & Hp & _).
  cbv zeta. rewrite Ht, Hc, Hp. split; [range|]. split; [apply drawn_condition|].
  assert (H : num_between (0 * 5) (random (2 + draws j) * 5) (0.99999999999999989 * 5))
    by bound.
  destruct H as [H1 H2]. split; [exact H1|].
  now apply leb_ltb_trans with (0.99999999999999989 * 5).
Qed.

Lemma frost_sign w :
  if baseTemp_of w <? 0
  then (Math_round (baseTemp_of w) <=? 0) = true
  else (0 <=? Math_round (baseTemp_of w)) = true.
Proof.
  pose proof (baseTemp_finite w) as Fb.
  destruct (baseTemp_of w <? 0) eqn:E.
  - change ((Math_round (baseTemp_of w) <=? Math_round 0) = true).
    apply Math_round_mono; [exact Fb|reflexivity|now apply ltb_leb].
  - change ((Math_round 0 <=? Math_round (baseTemp_of w)) = true).
    apply Math_round_mono; [reflexivity|exact Fb|].
    apply ltb_false_leb; [now apply num_finite_nonnan|reflexivity|exact E].
Qed.
End GeneratorFacts.

Section TableFacts.
Import WeatherDashboard.

Lemma condition_icon c :
  c ∈ conditions ->
  exists e, getWeatherIcon (Some c) = Own e /\
            className e = "weather-icon " +:+ c.
Proof.
  unfold conditions. rewrite !elem_of_cons, elem_of_nil.
  intros [-> | [-> | [-> | [-> | [-> | []]]]]]; eexists; split; reflexivity.
Qed.

Lemma generate_world random now getHours loc w :
  snd (generateMockWeatherData random now getHours loc w)
  = {| draws := 83 + draws w; reads := 24 + reads w |}.
Proof.
  unfold generateMockWeatherData, mbind, sim_bind, mret, sim_ret, Math_random.
  cbn [fst snd draws reads].
  rewrite (array_from_world _ 3 1).
  - cbn [draws reads]. f_equal; lia.
  - intros i j. apply entry_fields.
Qed.
End TableFacts.

(** X10: with every result of [Math.random] in [0, 1), the current values
    of the generated data are whole numbers in the ranges that the source
    announces: temperature -5..15, humidity 40..80, wind speed 5..30,
    visibility 10..30, pressure 980..1030, and the felt temperature is a
    whole number in -10..15. *)
Theorem mock_current_ranges
    (random now : nat -> float) (getHours : float -> float)
    (loc : WeatherDashboard.Location.t) (w : World) :
  (forall n, unit_draw (random n)) ->
  let c := WeatherDashboard.current
             (fst (WeatherDashboard.generateMockWeatherData random now getHours loc w)) in
  whole_between (-5) (WeatherDashboard.Current.temperature c) 15 /\
  whole_between 40 (WeatherDashboard.Current.humidity c) 80 /\
  whole_between 5 (WeatherDashboard.Current.windSpeed c) 30 /\
  whole_between 10 (WeatherDashboard.Current.visibility c) 30 /\
  whole_between 980 (WeatherDashboard.Current.pressure c) 1030 /\
  whole_between (-10) (WeatherDashboard.Current.feelsLike c) 15.
Proof. intros Hdraw. now apply current_ranges. Qed.

Lemma mock_current_ranges_witness :
  let c := WeatherDashboard.current
             (fst (WeatherDashboard.generateMockWeatherData
                     (fun _ => 0.5) (fun _ => 0) (fun t => t)
                     {| WeatherDashboard.Location.name := "Zermatt";
                        WeatherDashboard.Location.elevation := "1620m" |}
                     {| draws := 0; reads := 0 |})) in
  whole_between (-5) (WeatherDashboard.Current.temperature c) 15 /\
  whole_between 40 (WeatherDashboard.Current.humidity c) 80 /\
  whole_between 5 (WeatherDashboard.Current.windSpeed c) 30 /\
  whole_between 10 (WeatherDashboard.Current.visibility c) 30 /\
  whole_between 980 (WeatherDashboard.Current.pressure c) 1030 /\
  whole_between (-10) (WeatherDashboard.Current.feelsLike c) 15.
Proof.
  apply (mock_current_ranges (fun _ => 0.5) (fun _ => 0) (fun t => t)).
  intros n. split; reflexivity.
Defined.

(** X11: with every result of [Math.random] in [0, 1), the felt temperature
    of the generated data is never above the temperature. *)
Theorem mock_feelsLike_at_most_temperature
    (random now : nat -> float) (getHours : float -> float)
    (loc : WeatherDashboard.Location.t) (w : World) :
  (forall n, unit_draw (random n)) ->
  let c := WeatherDashboard.current
             (fst (WeatherDashboard.generateMockWeatherData random now getHours loc w)) in
  (WeatherDashboard.Current.feelsLike c <=? WeatherDashboard.Current.temperature c)
  = true.
Proof. intros Hdraw. now apply feelsLike_le. Qed.

Lemma mock_feelsLike_at_most_temperature_witness :
  let c := WeatherDashboard.current
             (fst (WeatherDashboard.generateMockWeatherData
                     (fun _ => 0.5) (fun _ => 0) (fun t => t)
                     {| WeatherDashboard.Location.name := "Verbier";
                        WeatherDashboard.Location.elevation := "1500m" |}
                     {| draws := 0; reads := 0 |})) in
  (WeatherDashboard.Current.feelsLike c <=? WeatherDashboard.Current.temperature c)
  = true.
Proof.
  apply (mock_feelsLike_at_most_temperature (fun _ => 0.5) (fun _ => 0) (fun t => t)).
  intros n. split; reflexivity.
Defined.

(** X12: with every result of [Math.random] in [0, 1), the index computed
    for the condition and for the wind direction is inside the array: the
    current condition is one of the five conditions, and the wind direction
    one of the eight directions; neither is [undefined]. *)
Theorem mock_condition_and_direction_defined
    (random now : nat -> float) (getHours : float -> float)
    (loc : WeatherDashboard.Location.t) (w : World) :
  (forall n, unit_draw (random n)) ->
  let c := WeatherDashboard.current
             (fst (WeatherDashboard.generateMockWeatherData random now getHours loc w)) in
  (exists k, WeatherDashboard.Current.condition c = Some k /\
             k ∈ WeatherDashboard.conditions) /\
  (exists d, WeatherDashboard.Current.windDirection c = Some d /\
             d ∈ WeatherDashboard.directions).
Proof.
  intros Hdraw. cbv zeta. rewrite generate_current.
  cbn [WeatherDashboard.Current.condition WeatherDashboard.Current.windDirection].
  split; [now apply drawn_condition|now apply drawn_direction].
Qed.

Lemma mock_condition_and_direction_defined_witness :
  let c := WeatherDashboard.current
             (fst (WeatherDashboard.generateMockWeatherData
                     (fun _ => 0.5) (fun _ => 0) (fun t => t)
                     {| WeatherDashboard.Location.name := "Interlaken";
                        WeatherDashboard.Location.elevation := "568m" |}
                     {| draws := 0; reads := 0 |})) in
  (exists k, WeatherDashboard.Current.condition c = Some k /\
             k ∈ WeatherDashboard.conditions) /\
  (exists d, WeatherDashboard.Current.windDirection c = Some d /\
             d ∈ WeatherDashboard.directions).
Proof.
  apply (mock_condition_and_direction_defined
           (fun _ => 0.5) (fun _ => 0) (fun t => t)).
  intros n. split; reflexivity.
Defined.

(** X13: the generated forecast has 24 entries, and with every result of
    [Math.random] in [0, 1) each entry has a whole temperature in -9..19, a
    condition that is one of the five conditions, and a precipitation from
    0 up to but not including 5. *)
Theorem mock_forecast_entries
    (random now : nat -> float) (getHours : float -> float)
    (loc : WeatherDashboard.Location.t) (w : World) :
  (forall n, unit_draw (random n)) ->
  let fc := WeatherDashboard.forecast
              (fst (WeatherDashboard.generateMockWeatherData random now getHours loc w)) in
  length fc = 24%nat /\
  Forall (fun h =>
            whole_between (-9) (WeatherDashboard.Hourly.temperature h) 19 /\
            (exists k, WeatherDashboard.Hourly.condition h = Some k /\
                       k ∈ WeatherDashboard.conditions) /\
            (0 <=? WeatherDashboard.Hourly.precipitation h) = true /\
            (WeatherDashboard.Hourly.precipitation h <? 5) = true) fc.
Proof.
  intros Hdraw. cbv zeta. rewrite generate_forecast. split.
  - apply array_from_length.
  - apply array_from_Forall. intros i j. now apply entry_ranges.
Qed.

Lemma mock_forecast_entries_witness :
  let fc := WeatherDashboard.forecast
              (fst (WeatherDashboard.generateMockWeatherData
                      (fun _ => 0.5) (fun _ => 0) (fun t => t)
                      {| WeatherDashboard.Location.name := "St. Moritz";
                         WeatherDashboard.Location.elevation := "1856m" |}
                      {| draws := 0; reads := 0 |})) in
  length fc = 24%nat /\
  Forall (fun h =>
            whole_between (-9) (WeatherDashboard.Hourly.temperature h) 19 /\
            (exists k, WeatherDashboard.Hourly.condition h = Some k /\
                       k ∈ WeatherDashboard.conditions) /\
            (0 <=? WeatherDashboard.Hourly.precipitation h) = true /\
            (WeatherDashboard.Hourly.precipitation h <? 5) = true) fc.
Proof.
  apply (mock_forecast_entries (fun _ => 0.5) (fun _ => 0) (fun t => t)).
  intros n. split; reflexivity.
Defined.

(** X14: with every result of [Math.random] in [0, 1), the frost label
    agrees with the temperature shown: it is 'high' with a temperature of
    at most 0, or 'low' with a temperature of at least 0. *)
Theorem mock_frost_label
    (random now : nat -> float) (getHours : float -> float)
    (loc : WeatherDashboard.Location.t) (w : World) :
  (forall n, unit_draw (random n)) ->
  let d := fst (WeatherDashboard.generateMockWeatherData random now getHours loc w) in
  let t := WeatherDashboard.Current.temperature (WeatherDashboard.current d) in
  (WeatherDashboard.Risks.frost (WeatherDashboard.risks d) = "high" /\
   (t <=? 0) = true) \/
  (WeatherDashboard.Risks.frost (WeatherDashboard.risks d) = "low" /\
   (0 <=? t) = true).
Proof.
  intros Hdraw. cbv zeta. rewrite generate_current.
  destruct (generate_risks random now getHours loc w) as (ra & rv & rw & ->).
  cbn [WeatherDashboard.Risks.frost WeatherDashboard.Current.temperature].
  pose proof (frost_sign random Hdraw w) as H.
  destruct (random (draws w) * 20 - 5 <? 0); [left|right]; (split; [reflexivity|exact H]).
Qed.

Lemma mock_frost_label_witness :
  let d := fst (WeatherDashboard.generateMockWeatherData
                  (fun _ => 0.125) (fun _ => 0) (fun t => t)
                  {| WeatherDashboard.Location.name := "Jungfraujoch";
                     WeatherDashboard.Location.elevation := "3454m" |}
                  {| draws := 0; reads := 0 |}) in
  let t := WeatherDashboard.Current.temperature (WeatherDashboard.current d) in
  (WeatherDashboard.Risks.frost (WeatherDashboard.risks d) = "high" /\
   (t <=? 0) = true) \/
  (WeatherDashboard.Risks.frost (WeatherDashboard.risks d) = "low" /\
   (0 <=? t) = true).
Proof.
  apply (mock_frost_label (fun _ => 0.125) (fun _ => 0) (fun t => t)).
  intros n. split; reflexivity.
Defined.

(** X15: whatever [Math.random] returns, every risk label of the generated
    data is a key of the color table of [getRiskColor]: the avalanche and
    wind badges are safe or warning, the frost and visibility badges safe
    or danger, and the fallback color is never shown. *)
Theorem mock_risk_labels_have_colors
    (random now : nat -> float) (getHours : float -> float)
    (loc : WeatherDashboard.Location.t) (w : World) :
  let r := WeatherDashboard.risks
             (fst (WeatherDashboard.generateMockWeatherData random now getHours loc w)) in
  WeatherDashboard.getRiskColor (Some (WeatherDashboard.Risks.avalanche r))
    ∈ [Own "var(--alpine-safe)"; Own "var(--alpine-warning)"] /\
  WeatherDashboard.getRiskColor (Some (WeatherDashboard.Risks.frost r))
    ∈ [Own "var(--alpine-safe)"; Own "var(--alpine-danger)"] /\
  WeatherDashboard.getRiskColor (Some (WeatherDashboard.Risks.visibility r))
    ∈ [Own "var(--alpine-safe)"; Own "var(--alpine-danger)"] /\
  WeatherDashboard.getRiskColor (Some (WeatherDashboard.Risks.wind r))
    ∈ [Own "var(--alpine-safe)"; Own "var(--alpine-warning)"].
Proof.
  cbv zeta.
  destruct (generate_risks random now getHours loc w) as (ra & rv & rw & ->).
  cbn [WeatherDashboard.Risks.avalanche WeatherDashboard.Risks.frost
       WeatherDashboard.Risks.visibility WeatherDashboard.Risks.wind].
  rewrite !elem_of_cons.
  destruct (0.7 <? ra)%float, (random (draws w) * 20 - 5 <? 0)%float,
    (0.8 <? rv)%float, (0.6 <? rw)%float; repeat split; tauto.
Qed.

(** X16: with every result of [Math.random] in [0, 1), every condition of
    the generated data has an icon of its own in the table of
    [getWeatherIcon]: the icon shown for the current condition and for each
    hour of the forecast carries the class of that condition. *)
Theorem mock_conditions_have_icons
    (random now : nat -> float) (getHours : float -> float)
    (loc : WeatherDashboard.Location.t) (w : World) :
  (forall n, unit_draw (random n)) ->
  let d := fst (WeatherDashboard.generateMockWeatherData random now getHours loc w) in
  (exists k e,
     WeatherDashboard.Current.condition (WeatherDashboard.current d) = Some k /\
     WeatherDashboard.getWeatherIcon (Some k) = Own e /\
     WeatherDashboard.className e = "weather-icon " +:+ k) /\
  Forall (fun h =>
            exists k e,
              WeatherDashboard.Hourly.condition h = Some k /\
              WeatherDashboard.getWeatherIcon (Some k) = Own e /\
              WeatherDashboard.className e = "weather-icon " +:+ k)
         (WeatherDashboard.forecast d).
Proof.
  intros Hdraw. cbv zeta. rewrite generate_current, generate_forecast.
  cbn [WeatherDashboard.Current.condition]. split.
  - destruct (drawn_condition random Hdraw (1 + draws w)) as (k & Hk & Hin).
    destruct (condition_icon k Hin) as (e & He & Hc). now exists k, e.
  - apply array_from_Forall. intros i j.
    destruct (entry_ranges random now getHours Hdraw w i j) as (_ & (k & Hk & Hin) & _).
    destruct (condition_icon k Hin) as (e & He & Hc). now exists k, e.
Qed.

Lemma mock_conditions_have_icons_witness :
  let d := fst (WeatherDashboard.generateMockWeatherData
                  (fun _ => 0.75) (fun _ => 0) (fun t => t)
                  {| WeatherDashboard.Location.name := "Zermatt";
                     WeatherDashboard.Location.elevation := "1620m" |}
                  {| draws := 0; reads := 0 |}) in
  (exists k e,
     WeatherDashboard.Current.condition (WeatherDashboard.current d) = Some k /\
     WeatherDashboard.getWeatherIcon (Some k) = Own e /\
     WeatherDashboard.className e = "weather-icon " +:+ k) /\
  Forall (fun h =>
            exists k e,
              WeatherDashboard.Hourly.condition h = Some k /\
              WeatherDashboard.getWeatherIcon (Some k) = Own e /\
              WeatherDashboard.className e = "weather-icon " +:+ k)
         (WeatherDashboard.forecast d).
Proof.
  apply (mock_conditions_have_icons (fun _ => 0.75) (fun _ => 0) (fun t => t)).
  intros n. split; reflexivity.
Defined.

(** X17: one call of [generateMockWeatherData] consumes exactly 83 results
    of [Math.random] and 24 of [Date.now], whatever they are. *)
Theorem generateMockWeatherData_consumption
    (random now : nat -> float) (getHours : float -> float)
    (loc : WeatherDashboard.Location.t) (w : World) :
  snd (WeatherDashboard.generateMockWeatherData random now getHours loc w)
  = {| draws := 83 + draws w; reads := 24 + reads w |}.
Proof. apply generate_world. Qed.

(** X18: [getWeatherIcon] shows the cloud of 'cloudy' exactly for 'cloudy'
    and for the keys that name neither another condition nor a member
    inherited from [Object.prototype]; [undefined] is such a key. *)
Theorem getWeatherIcon_cloudy_iff (condition : option string) :
  WeatherDashboard.getWeatherIcon condition = Own WeatherDashboard.cloudy_icon <->
  property_key condition
    ∉ ["sunny"; "rainy"; "snowy"; "windy"] ++ object_prototype_members.
Proof.
  unfold WeatherDashboard.getWeatherIcon, member_or, WeatherDashboard.icons,
    object_prototype_members.
  cbn [own_property app].
  generalize (property_key condition). intros k.
  rewrite !not_elem_of_cons.
  repeat (case_bool_decide; cbn iota);
    (split; [intros Heq|intros Hk; try reflexivity; exfalso]);
    try discriminate Heq.
  all: try (destruct Hk as (? & ? & ? & ? & _); congruence).
  all: try (subst k; repeat split; try discriminate; apply not_elem_of_nil).
  all: try (rewrite !not_elem_of_cons in *; repeat split; try congruence;
            try apply not_elem_of_nil; tauto).
  all: try (rewrite !elem_of_cons, elem_of_nil in *; tauto).
Qed.

(** ** The local risk calculation *)

Section LocalRisks.
Local Open Scope float_scope.
Import AlpineGuard.

Lemma default_lookup (m : gmap string string) (k d : string) :
  default_risks !! k = Some d ->
  (m ∪ default_risks) !! k = Some (default d (m !! k)).
Proof.
  intros Hd. rewrite lookup_union, Hd. now destruct (m !! k).
Qed.

Lemma default_lookup_other (m : gmap string string) (k : string) :
  default_risks !! k = None -> (m ∪ default_risks) !! k = m !! k.
Proof.
  intros Hd. rewrite lookup_union, Hd. now destruct (m !! k).
Qed.

Ltac lookups :=
  repeat first
    [ rewrite lookup_insert_eq
    | rewrite lookup_insert_ne by discriminate
    | rewrite lookup_alter_eq
    | rewrite lookup_alter_ne by discriminate ].

Lemma local_weather w b :
  calculateLocalRisks w b !! "weather"
  = Some (if 40 <? wind w then "high"
          else if 25 <? wind w then "moderate"
          else if temp w <? -10 then "high"
          else if temp w <? -5 then "moderate"
          else default "low" (default ∅ b !! "weather")).
Proof.
  unfold calculateLocalRisks.
  destruct (temp w <? -5), (temp w <? -10), (25 <? wind w), (40 <? wind w),
    (bool_decide (condition w = "Snow")), (bool_decide (condition w = "Fog")),
    (20 <? wind w); cbn [andb]; lookups;
    first [reflexivity | now apply default_lookup].
Qed.

Lemma local_avalanche w b :
  calculateLocalRisks w b !! "avalanche"
  = Some (let a := default "low" (default ∅ b !! "avalanche") in
          if bool_decide (condition w = "Snow")
          then if 20 <? wind w then "high"
               else if bool_decide (a = "low") then "moderate" else a
          else a).
Proof.
  unfold calculateLocalRisks.
  destruct (temp w <? -5), (temp w <? -10), (25 <? wind w), (40 <? wind w),
    (bool_decide (condition w = "Snow")), (bool_decide (condition w = "Fog")),
    (20 <? wind w); cbn [andb]; lookups;
    try reflexivity;
    rewrite (default_lookup _ "avalanche" "low") by reflexivity; reflexivity.
Qed.

Lemma local_visibility w b :
  calculateLocalRisks w b !! "visibility"
  = Some (if bool_decide (condition w = "Snow") || bool_decide (condition w = "Fog")
          then "poor"
          else default "good" (default ∅ b !! "visibility")).
Proof.
  unfold calculateLocalRisks.
  destruct (temp w <? -5), (temp w <? -10), (25 <? wind w), (40 <? wind w),
    (bool_decide (condition w = "Snow")), (bool_decide (condition w = "Fog")),
    (20 <? wind w); cbn [andb orb]; lookups;
    try reflexivity;
    rewrite (default_lookup _ "visibility" "good") by reflexivity; reflexivity.
Qed.

Lemma local_other w b k :
  k <> "weather" -> k <> "avalanche" -> k <> "visibility" ->
  calculateLocalRisks w b !! k = (default ∅ b ∪ default_risks) !! k.
Proof.
  intros H1 H2 H3. unfold calculateLocalRisks.
  destruct (temp w <? -5), (temp w <? -10), (25 <? wind w), (40 <? wind w),
    (bool_decide (condition w = "Snow")), (bool_decide (condition w = "Fog")),
    (20 <? wind w); cbn [andb];
    repeat first
      [ rewrite lookup_insert_ne by congruence
      | rewrite lookup_alter_ne by congruence ];
    reflexivity.
Qed.

Lemma wind_40_25 x : (40 <? x) = true -> (25 <? x) = true.
Proof. intros H. now apply (leb_ltb_trans 25 40 x). Qed.

Lemma temp_10_5 x : (x <? -10) = true -> (x <? -5) = true.
Proof. intros H. now apply (ltb_leb_trans x (-10) (-5)). Qed.

Lemma label_rank_cases a :
  known_label a ->
  known_label (if bool_decide (a = "low") then "moderate" else a) /\
  (label_rank a <= label_rank (if bool_decide (a = "low") then "moderate" else a))%nat /\
  (label_rank a <= label_rank "high")%nat.
Proof.
  intros [-> | [-> | ->]]; vm_compute; repeat split; auto.
Qed.
End LocalRisks.

(** X19: the weather risk of [calculateLocalRisks] is decided by the wind
    before the temperature: over 40 it is 'high', over 25 'moderate'
    whatever the temperature and the given risk are; only at a wind of at
    most 25 does a temperature below -10 give 'high' and one below -5
    'moderate', and only otherwise is the given risk (or 'low') kept. *)
Theorem calculateLocalRisks_weather_table
    (w : AlpineGuard.Weather) (b : option (gmap string string)) :
  AlpineGuard.calculateLocalRisks w b !! "weather"
  = Some (if 40 <? AlpineGuard.wind w then "high"
          else if 25 <? AlpineGuard.wind w then "moderate"
          else if AlpineGuard.temp w <? -10 then "high"
          else if AlpineGuard.temp w <? -5 then "moderate"
          else default "low" (default ∅ b !! "weather")).
Proof. apply local_weather. Qed.

(** X20: [calculateLocalRisks] is idempotent: applied to its own result
    with the same weather it returns that result. *)
Theorem calculateLocalRisks_idempotent
    (w : AlpineGuard.Weather) (b : option (gmap string string)) :
  AlpineGuard.calculateLocalRisks w (Some (AlpineGuard.calculateLocalRisks w b))
  = AlpineGuard.calculateLocalRisks w b.
Proof.
  apply map_eq. intros k.
  destruct (decide (k = "weather")) as [->|Hw].
  { rewrite (local_weather w (Some _)). cbn [default from_option id]. rewrite !local_weather.
    cbn [default from_option id].
    destruct (40 <? AlpineGuard.wind w), (25 <? AlpineGuard.wind w),
      (AlpineGuard.temp w <? -10), (AlpineGuard.temp w <? -5); reflexivity. }
  destruct (decide (k = "avalanche")) as [->|Ha].
  { rewrite (local_avalanche w (Some _)). cbn [default from_option id]. rewrite !local_avalanche.
    cbn [default from_option id]. cbv zeta.
    destruct (bool_decide (AlpineGuard.condition w = "Snow")); [|reflexivity].
    destruct (20 <? AlpineGuard.wind w); [reflexivity|].
    destruct (bool_decide (default "low" (default ∅ b !! "avalanche") = "low")) eqn:E;
      [reflexivity|]. now rewrite E. }
  destruct (decide (k = "visibility")) as [->|Hv].
  { rewrite (local_visibility w (Some _)). cbn [default from_option id]. rewrite !local_visibility.
    cbn [default from_option id].
    destruct (bool_decide (AlpineGuard.condition w = "Snow")
              || bool_decide (AlpineGuard.condition w = "Fog")); reflexivity. }
  rewrite !local_other by assumption. cbn [default from_option id].
  rewrite !lookup_union, local_other by assumption. rewrite lookup_union.
  now destruct (default ∅ b !! k), (AlpineGuard.default_risks !! k).
Qed.

(** X21: [calculateLocalRisks] changes the keys [weather], [avalanche] and
    [visibility] only: every other key of the result, [terrain] among them,
    holds the entry of the given risks, or the default when there is none. *)
Theorem calculateLocalRisks_frame
    (w : AlpineGuard.Weather) (b : option (gmap string string)) (k : string) :
  k <> "weather" -> k <> "avalanche" -> k <> "visibility" ->
  AlpineGuard.calculateLocalRisks w b !! k
  = if bool_decide (k = "terrain")
    then Some (default "low" (default ∅ b !! k))
    else default ∅ b !! k.
Proof.
  intros H1 H2 H3. rewrite local_other by assumption.
  case_bool_decide as Hk.
  - subst k. now apply default_lookup.
  - apply default_lookup_other. unfold AlpineGuard.default_risks.
    now rewrite !lookup_insert_ne, lookup_empty by congruence.
Qed.

Lemma calculateLocalRisks_frame_witness :
  AlpineGuard.calculateLocalRisks
    {| AlpineGuard.temp := -12; AlpineGuard.condition := "Snow";
       AlpineGuard.wind := 30; AlpineGuard.humidity := 65 |}
    (Some ({["terrain" := "high"]} : gmap string string)) !! "terrain"
  = if bool_decide ("terrain" = "terrain")
    then Some (default "low" (default ∅ (Some ({["terrain" := "high"]} : gmap string string)) !! "terrain"))
    else default ∅ (Some ({["terrain" := "high"]} : gmap string string)) !! "terrain".
Proof.
  apply (calculateLocalRisks_frame
           {| AlpineGuard.temp := -12; AlpineGuard.condition := "Snow";
              AlpineGuard.wind := 30; AlpineGuard.humidity := 65 |}
           (Some ({["terrain" := "high"]} : gmap string string)) "terrain"); discriminate.
Defined.

(** X22: [calculateLocalRisks] never lowers the avalanche risk: when the
    given avalanche risk is 'low', 'moderate' or 'high' (or absent, which
    counts as 'low'), the result's is one of the three and not below it;
    with snow it is at least 'moderate', and 'high' when the wind is over
    20. *)
Theorem calculateLocalRisks_avalanche_not_lowered
    (w : AlpineGuard.Weather) (b : option (gmap string string)) :
  AlpineGuard.known_label (default "low" (default ∅ b !! "avalanche")) ->
  exists a,
    AlpineGuard.calculateLocalRisks w b !! "avalanche" = Some a /\
    AlpineGuard.known_label a /\
    (AlpineGuard.label_rank (default "low" (default ∅ b !! "avalanche"))
     <= AlpineGuard.label_rank a)%nat /\
    (AlpineGuard.condition w = "Snow" ->
     (1 <= AlpineGuard.label_rank a)%nat /\
     ((20 <? AlpineGuard.wind w) = true -> a = "high")).
Proof.
  intros Hk. rewrite local_avalanche. eexists. split; [reflexivity|]. cbv zeta.
  destruct (label_rank_cases _ Hk) as (K1 & K2 & K3).
  destruct (decide (AlpineGuard.condition w = "Snow")) as [Hs|Hs].
  - rewrite (bool_decide_eq_true_2 _ Hs). destruct (20 <? AlpineGuard.wind w).
    + split; [right; right; reflexivity|]. split; [exact K3|].
      intros _. split; [vm_compute; lia|reflexivity].
    + split; [exact K1|]. split; [exact K2|].
      intros _. split; [|discriminate].
      destruct Hk as [-> | [-> | ->]]; vm_compute; lia.
  - rewrite (bool_decide_eq_false_2 _ Hs).
    split; [exact Hk|]. split; [lia|]. intros Hc. contradiction.
Qed.

Lemma calculateLocalRisks_avalanche_not_lowered_witness :
  exists a,
    AlpineGuard.calculateLocalRisks
      {| AlpineGuard.temp := -2; AlpineGuard.condition := "Snow";
         AlpineGuard.wind := 15; AlpineGuard.humidity := 65 |}
      (Some ({["avalanche" := "moderate"]} : gmap string string)) !! "avalanche" = Some a /\
    AlpineGuard.known_label a /\
    (AlpineGuard.label_rank
       (default "low" (default ∅ (Some ({["avalanche" := "moderate"]} : gmap string string)) !! "avalanche"))
     <= AlpineGuard.label_rank a)%nat /\
    ("Snow" = "Snow" ->
     (1 <= AlpineGuard.label_rank a)%nat /\
     ((20 <? 15) = true -> a = "high")).
Proof.
  apply (calculateLocalRisks_avalanche_not_lowered
           {| AlpineGuard.temp := -2; AlpineGuard.condition := "Snow";
              AlpineGuard.wind := 15; AlpineGuard.humidity := 65 |}
           (Some ({["avalanche" := "moderate"]} : gmap string string))).
  right; left; reflexivity.
Defined.

(** X23: the visibility of the result of [calculateLocalRisks] is 'poor'
    exactly when the condition is 'Snow' or 'Fog' or the given visibility
    is 'poor'; a good visibility is never assigned. *)
Theorem calculateLocalRisks_visibility_poor_iff
    (w : AlpineGuard.Weather) (b : option (gmap string string)) :
  AlpineGuard.calculateLocalRisks w b !! "visibility" = Some "poor" <->
  AlpineGuard.condition w = "Snow" \/ AlpineGuard.condition w = "Fog" \/
  default ∅ b !! "visibility" = Some "poor".
Proof.
  rewrite local_visibility.
  do 2 case_bool_decide; cbn [orb]; try tauto.
  destruct (default ∅ b !! "visibility") as [v|]; cbn [default from_option id].
  - split; [intros Heq; injection Heq as ->; tauto|].
    intros [?|[?|Heq]]; try contradiction. exact Heq.
  - split; [discriminate|]. intros [?|[?|?]]; try contradiction; discriminate.
Qed.



